(** * A shallow embedding of the hibp-bloom Bloom filter engine (src/src/hibp-bloom.c,
    src/src/load-stream.h, src/src/save-stream.h) and proofs of its specification.

    Conventions of the embedding:
    - [size_t] values are [Z]s; the width of [size_t] is [8 * sizeof_size_t], a
      section variable, so the development covers 32-bit and 64-bit hosts alike.
    - Bytes ([hibp_byte_t]) are [Z]s in [0, 256); byte buffers are [list Z],
      indexed with stdpp's [!!] / [!!!] and updated with [<[i := x]>].
    - C's undefined behaviour (an out-of-range shift) and failing [assert]s are the
      outcome [Stuck] of [c_result]. *)

From Stdlib Require Import ZArith Lia Ascii String.
From stdpp Require Import base list.

Open Scope Z_scope.

(** ** Status codes ([hibp_status_t]) *)

Inductive status :=
  | HIBP_E_NOMEM
  | HIBP_E_VERSION
  | HIBP_E_IO
  | HIBP_E_CHECKSUM
  | HIBP_E_2BIG
  | HIBP_E_INVAL
  | HIBP_OK.

Global Instance status_eq_dec : EqDecision status.
Proof. solve_decision. Defined.

(** Outcome of a piece of C code: a value, or undefined behaviour / a failed
    assertion. *)
Inductive c_result (A : Type) :=
  | Done (a : A)
  | Stuck.
Arguments Done {A} a.
Arguments Stuck {A}.

(** The Bloom filter ([hibp_bloom_filter_t]). *)
Record bloom_filter := mk_filter {
  n_hash_functions : Z;
  log2_bits : Z;
  buffer : list Z
}.

Definition SHA1_BYTES : Z := 20.
Definition SHA1_BITS : Z := 8 * SHA1_BYTES.

(** [VERSION]: the magic version string. *)
Definition VERSION : list Z := [0xb1; 0x00; 0x13; 0x37].

Section Host.

(** [sizeof(size_t)] on the host. *)
Variable sizeof_size_t : Z.

Definition size_t_bits : Z := 8 * sizeof_size_t.

Definition SIZE_MAX : Z := 2 ^ size_t_bits - 1.

(** [LOG2_BITS_MAX = MIN(8 * sizeof(size_t), SHA1_BITS)] *)
Definition LOG2_BITS_MAX : Z := Z.min size_t_bits SHA1_BITS.

(** [N_HASH_FUNCTIONS_MAX = MIN(SIZE_MAX, 0xffffffffffffffff)] *)
Definition N_HASH_FUNCTIONS_MAX : Z := Z.min SIZE_MAX (2 ^ 64 - 1).

(** [size_t] arithmetic, with wrap-around. *)
Definition size_t_wrap (x : Z) : Z := x mod 2 ^ size_t_bits.

(** [x << n] on [size_t]: undefined when [n] is at least the width. *)
Definition size_t_shl (x n : Z) : c_result Z :=
  if (0 <=? n) && (n <? size_t_bits) then Done (size_t_wrap (Z.shiftl x n))
  else Stuck.

(** [compute_buffer_size]: [inr size] is [HIBP_OK] with [*buffer_size = size];
    [inl st] is the error status [st]. *)
Definition compute_buffer_size (n_hash_functions log2_bits : Z) : c_result (status + Z) :=
  if n_hash_functions =? 0 then Done (inl HIBP_E_INVAL)
  else if (log2_bits >? LOG2_BITS_MAX) || (n_hash_functions >? N_HASH_FUNCTIONS_MAX)
  then Done (inl HIBP_E_2BIG)
  else if log2_bits >? SIZE_MAX / n_hash_functions then Done (inl HIBP_E_2BIG)
  else
    let hash_functions_size := size_t_wrap (log2_bits * n_hash_functions) in
    match size_t_shl 1 log2_bits with
    | Stuck => Stuck
    | Done vector_bits =>
        let vector_size :=
          size_t_wrap (vector_bits / 8 + (if vector_bits mod 8 =? 0 then 0 else 1)) in
        if hash_functions_size >? SIZE_MAX - vector_size then Done (inl HIBP_E_2BIG)
        else Done (inr (size_t_wrap (hash_functions_size + vector_size)))
    end.

End Host.

(** ** Hashing primitive, insertion and query *)

(** [eval_nth_hash_function bf k sha]: the [k]'th hash function is the slice
    [buffer[k * log2_bits ..]] of bit indices; bit [i] of the value is bit
    [indices[i]] of [sha]. *)
Definition eval_nth_hash_function (bf : bloom_filter) (k : Z) (sha : list Z) : Z :=
  let base := k * log2_bits bf in
  fold_left
    (fun value i =>
       let index := buffer bf !!! Z.to_nat (base + Z.of_nat i) in
       let bit := Z.land (Z.shiftr (sha !!! Z.to_nat (index / 8)) (index mod 8)) 1 in
       Z.lor value (Z.shiftl bit (Z.of_nat i)))
    (seq 0 (Z.to_nat (log2_bits bf))) 0.

(** Offset of the bit vector in the buffer ([bvector]). *)
Definition bvector_offset (bf : bloom_filter) : Z :=
  n_hash_functions bf * log2_bits bf.

(** One iteration of the loop of [hibp_bf_insert_sha1]:
    [vector[k / 8] |= (1 << (k % 8))], the result cast back to a byte. *)
Definition insert_step (sha : list Z) (bf : bloom_filter) (i : nat) : bloom_filter :=
  let k := eval_nth_hash_function bf (Z.of_nat i) sha in
  let pos := Z.to_nat (bvector_offset bf + k / 8) in
  let buf := buffer bf in
  {| n_hash_functions := n_hash_functions bf;
     log2_bits := log2_bits bf;
     buffer := <[pos := Z.land (Z.lor (buf !!! pos) (Z.shiftl 1 (k mod 8))) 255]> buf |}.

(** [hibp_bf_insert_sha1] *)
Definition hibp_bf_insert_sha1 (bf : bloom_filter) (sha : list Z) : bloom_filter :=
  fold_left (insert_step sha) (seq 0 (Z.to_nat (n_hash_functions bf))) bf.

(** The loop of [hibp_bf_query_sha1], returning at the first unset bit. *)
Fixpoint query_loop (bf : bloom_filter) (sha : list Z) (is : list nat) : bool :=
  match is with
  | [] => true
  | i :: is' =>
      let k := eval_nth_hash_function bf (Z.of_nat i) sha in
      let byte := buffer bf !!! Z.to_nat (bvector_offset bf + k / 8) in
      if Z.land (Z.shiftr byte (k mod 8)) 1 =? 0 then false
      else query_loop bf sha is'
  end.

(** [hibp_bf_query_sha1] *)
Definition hibp_bf_query_sha1 (bf : bloom_filter) (sha : list Z) : bool :=
  query_loop bf sha (seq 0 (Z.to_nat (n_hash_functions bf))).

Section Digest.

(** The SHA-1 implementation the library links against (OpenSSL's [SHA1]). *)
Variable sha1 : list Z -> list Z.

(** [hibp_bf_insert] *)
Definition hibp_bf_insert (bf : bloom_filter) (buf : list Z) : bloom_filter :=
  hibp_bf_insert_sha1 bf (sha1 buf).

(** [hibp_bf_query] *)
Definition hibp_bf_query (bf : bloom_filter) (buf : list Z) : bool :=
  hibp_bf_query_sha1 bf (sha1 buf).

End Digest.

(** ** Construction ([hibp_bf_new_prng]) *)

(** [memcpy(dst + off, src, length src)] on a byte buffer. *)
Definition memcpy (dst : list Z) (off : Z) (src : list Z) : list Z :=
  take (Z.to_nat off) dst ++ src ++ drop (Z.to_nat off + length src) dst.

(** The swap of the Fisher-Yates loop:
    [swap = p[i]; p[i] = p[j]; p[j] = swap]. *)
Definition swap (p : list Z) (i j : nat) : list Z :=
  let s := p !!! i in
  <[j := s]> (<[i := p !!! j]> p).

Definition identity_permutation : list Z := map Z.of_nat (seq 0 (Z.to_nat SHA1_BITS)).

Section Prng.

(** The PRNG callback [prng(ctx, upper_bound)], with its context as explicit
    state. *)
Variable prng_state : Type.
Variable prng : prng_state -> Z -> Z * prng_state.

(** [for(i = SHA1_BITS - 1; i > 0; i--) { j = prng(ctx, i + 1); swap }], started
    with [i] = the argument. *)
Fixpoint fisher_yates (i : nat) (p : list Z) (ctx : prng_state) : list Z * prng_state :=
  match i with
  | O => (p, ctx)
  | S i' =>
      let (j, ctx') := prng ctx (Z.of_nat i + 1) in
      fisher_yates i' (swap p i (Z.to_nat j)) ctx'
  end.

(** [for(generated = 0; generated < hash_functions_size; generated += SHA1_BITS)];
    [fuel] bounds the number of iterations. *)
Fixpoint generate_loop (fuel : nat) (generated hash_functions_size : Z)
    (permutation buf : list Z) (ctx : prng_state) : list Z * prng_state :=
  match fuel with
  | O => (buf, ctx)
  | S fuel' =>
      if generated <? hash_functions_size then
        let (permutation', ctx') :=
          fisher_yates (Z.to_nat (SHA1_BITS - 1)) permutation ctx in
        let copy_size := Z.min (hash_functions_size - generated) SHA1_BITS in
        let buf' := memcpy buf generated (take (Z.to_nat copy_size) permutation') in
        generate_loop fuel' (generated + SHA1_BITS) hash_functions_size
          permutation' buf' ctx'
      else (buf, ctx)
  end.

Definition generate_fuel (hash_functions_size : Z) : nat :=
  S (Z.to_nat (hash_functions_size / SHA1_BITS)).

(** [hibp_bf_new_prng]; [calloc_ok] is whether [calloc] succeeds. On success the
    result is the filter and the final PRNG context. *)
Definition hibp_bf_new_prng (sizeof_size_t : Z) (calloc_ok : bool)
    (ctx : prng_state) (n_hash_functions log2_bits : Z)
    : c_result (status + bloom_filter * prng_state) :=
  match compute_buffer_size sizeof_size_t n_hash_functions log2_bits with
  | Stuck => Stuck
  | Done (inl st) => Done (inl st)
  | Done (inr buffer_size) =>
      if negb calloc_ok then Done (inl HIBP_E_NOMEM)
      else
        let buf := replicate (Z.to_nat buffer_size) 0 in
        let hash_functions_size := log2_bits * n_hash_functions in
        let (buf', ctx') :=
          generate_loop (generate_fuel hash_functions_size) 0 hash_functions_size
            identity_permutation buf ctx in
        Done (inr ({| n_hash_functions := n_hash_functions;
                      log2_bits := log2_bits;
                      buffer := buf' |}, ctx'))
  end.

End Prng.

Section DefaultPrng.

Variable sizeof_size_t : Z.

(** The source of random numbers of [default_prng]: [my_rand] repeated until the
    number drawn lies below [limit] (the rejection loop of [default_prng]). *)
Variable rand_state : Type.
Variable draw_below : rand_state -> Z -> Z * rand_state.

(** [default_prng] *)
Definition default_prng (ctx : rand_state) (upper_bound : Z) : Z * rand_state :=
  if upper_bound =? SIZE_MAX sizeof_size_t then draw_below ctx (SIZE_MAX sizeof_size_t + 1)
  else
    let limit := SIZE_MAX sizeof_size_t / upper_bound * upper_bound in
    let (number, ctx') := draw_below ctx limit in
    (number mod upper_bound, ctx').

(** [hibp_bf_new] *)
Definition hibp_bf_new (calloc_ok : bool) (ctx : rand_state) (n_hash_functions log2_bits : Z)
    : c_result (status + bloom_filter * rand_state) :=
  hibp_bf_new_prng rand_state default_prng sizeof_size_t calloc_ok ctx
    n_hash_functions log2_bits.

End DefaultPrng.

(** A deterministic PRNG for examples: a linear congruential generator. *)
Definition lcg (s : Z) (u : Z) : Z * Z :=
  let s' := (s * 1103515245 + 12345) mod 2 ^ 31 in (s' mod u, s').

(** The filter [hibp_bf_new_prng(bf, 3, 5, seed 7, lcg)] builds on a 64-bit host. *)
Definition example_filter : bloom_filter :=
  match hibp_bf_new_prng Z lcg 8 true 7 3 5 with
  | Done (inr (bf, _)) => bf
  | _ => mk_filter 0 0 []
  end.

(** The 20 bytes 0, 1, ..., 19 and 19, ..., 0, used as digests. *)
Definition example_digest : list Z := map Z.of_nat (seq 0 20).
Definition example_digest' : list Z := rev example_digest.


(** ** [hibp_sha1_hex2bin] *)

(** The value of an ASCII hexadecimal digit, as tested by [hibp_sha1_hex2bin]. *)
Definition hex_digit_value (c : Z) : option Z :=
  if (48 <=? c) && (c <=? 57) then Some (c - 48)
  else if (97 <=? c) && (c <=? 102) then Some (10 + c - 97)
  else if (65 <=? c) && (c <=? 70) then Some (10 + c - 65)
  else None.

(** The inner loop [for(k = i; k <= i + 1; k++)]: [bin[i] <<= 4], then or in the
    digit [hex[k]], or return [HIBP_E_INVAL]. A C string is the list of its
    characters; reading at its end yields the terminator 0. *)
Fixpoint hex2bin_inner (hex : list Z) (i : nat) (ks : list nat) (bin : list Z)
    : status + list Z :=
  match ks with
  | [] => inr bin
  | k :: ks' =>
      let bin' := <[i := Z.land (Z.shiftl (bin !!! i) 4) 255]> bin in
      match hex_digit_value (hex !!! k) with
      | Some v => hex2bin_inner hex i ks' (<[i := Z.lor (bin' !!! i) v]> bin')
      | None => inl HIBP_E_INVAL
      end
  end.

(** The outer loop [for(i = 0; i < 20; i++) { bin[i] = 0; ... }]. *)
Fixpoint hex2bin_outer (hex : list Z) (is : list nat) (bin : list Z) : status + list Z :=
  match is with
  | [] => inr bin
  | i :: is' =>
      match hex2bin_inner hex i (seq i 2) (<[i := 0]> bin) with
      | inl st => inl st
      | inr bin' => hex2bin_outer hex is' bin'
      end
  end.

(** The characters of a C string, as bytes. *)
Fixpoint bytes_of_string (s : string) : list Z :=
  match s with
  | EmptyString => []
  | String c s' => Z.of_nat (nat_of_ascii c) :: bytes_of_string s'
  end.

(** [hibp_sha1_hex2bin bin hex]: [inr bin'] is [HIBP_OK] with the 20 bytes [bin'];
    [inl st] is the error [st]. *)
Definition hibp_sha1_hex2bin (bin hex : list Z) : status + list Z :=
  hex2bin_outer hex (seq 0 20) bin.

(** The decoding the header describes: byte [i] is the value of the hex
    digits [hex[2i]] and [hex[2i+1]]; [None] if one of the first 40 characters
    is not a hex digit. *)
Definition hex_decode_spec (hex : list Z) : option (list Z) :=
  fold_right
    (fun i acc =>
       match hex_digit_value (hex !!! (2 * i)%nat), hex_digit_value (hex !!! (2 * i + 1)%nat), acc with
       | Some hi, Some lo, Some l => Some (16 * hi + lo :: l)
       | _, _, _ => None
       end)
    (Some []) (seq 0 20).

(** Two 40-character inputs: all hex digits, and with a [g] at position 39. *)
Definition hex_example : list Z :=
  bytes_of_string "0123456789abcdef0123456789abcdef01234567".
Definition hex_example_bad : list Z :=
  bytes_of_string "0123456789abcdef0123456789abcdef0123456g".

(** ** [hibp_compute_constrained_params] *)

Section Constrained.

Variable sizeof_size_t : Z.

(** The double [ceil(pow(2, candidate_log2_bits) / count * log_of_2 + 1e-6)], as a
    function of [count] and [candidate_log2_bits]. *)
Variable optimal_k : Z -> Z -> Z.

(** The loop [for(candidate_log2_bits = 8;; candidate_log2_bits++)]. [cur] holds
    [( *n_hash_functions, *log2_bits)]; running out of [fuel] is [Stuck] (the loop
    has not terminated). Note the argument order of the call to
    [compute_buffer_size], as in the source. *)
Fixpoint constrained_loop (fuel : nat) (count max_memory candidate_log2_bits : Z)
    (cur : option (Z * Z)) : c_result (option (Z * Z)) :=
  match fuel with
  | O => Stuck
  | S fuel' =>
      let double_candidate_n_hash_functions := optimal_k count candidate_log2_bits in
      let candidate_n_hash_functions :=
        if double_candidate_n_hash_functions >? N_HASH_FUNCTIONS_MAX sizeof_size_t
        then N_HASH_FUNCTIONS_MAX sizeof_size_t
        else double_candidate_n_hash_functions in
      match compute_buffer_size sizeof_size_t candidate_log2_bits candidate_n_hash_functions with
      | Stuck => Stuck
      | Done r =>
          let buffer_size :=
            match r with inr size => size | inl _ => SIZE_MAX sizeof_size_t end in
          if (buffer_size >? max_memory) && (candidate_log2_bits >? 8) then Done cur
          else constrained_loop fuel' count max_memory (candidate_log2_bits + 1)
                 (Some (candidate_n_hash_functions, candidate_log2_bits))
      end
  end.

(** [hibp_compute_constrained_params count max_memory], run for at most [fuel]
    iterations; the result is [(n_hash_functions, log2_bits)]. *)
Definition hibp_compute_constrained_params (fuel : nat) (count max_memory : Z)
    : c_result (option (Z * Z)) :=
  constrained_loop fuel count max_memory 8 None.

(** The selection rule in the words of the specification: iterate [b] upward from
    8, take [k] = the capped optimal number of hash functions and the buffer size
    [k * b + ceil(2^b / 8)], and keep the last pair whose size fits in
    [max_memory] ([b = 8] is kept regardless). *)
Fixpoint constrained_spec_loop (fuel : nat) (count max_memory b : Z)
    (cur : option (Z * Z)) : option (Z * Z) :=
  match fuel with
  | O => cur
  | S fuel' =>
      let k := Z.min (optimal_k count b) (N_HASH_FUNCTIONS_MAX sizeof_size_t) in
      let size := k * b + (2 ^ b + 7) / 8 in
      if (size >? max_memory) && (b >? 8) then cur
      else constrained_spec_loop fuel' count max_memory (b + 1) (Some (k, b))
  end.

Definition constrained_params_spec (fuel : nat) (count max_memory : Z) : option (Z * Z) :=
  constrained_spec_loop fuel count max_memory 8 None.

End Constrained.

(** [ceil(pow(2, b) / count * log(2) + 1e-6)] evaluated over the rationals, with
    [log(2)] = 0.6931471805599453 (the double [log(2)] to 16 digits). *)
Definition optimal_k_real (count b : Z) : Z :=
  let den := count * 10 ^ 16 in
  let num := 2 ^ b * 6931471805599453 + count * 10 ^ 10 in
  (num + den - 1) / den.

(** ** Persistence *)

(** A state and error monad: a computation on a stream state [S] either fails
    with a status, gets stuck, or returns a value and the new state. *)
Definition M (S A : Type) : Type := S -> c_result (status + A * S).

Definition ret {S A} (a : A) : M S A := fun s => Done (inr (a, s)).
Definition fail {S A} (st : status) : M S A := fun _ => Done (inl st).
Definition stuck {S A} : M S A := fun _ => Stuck.
Definition bind {S A B} (m : M S A) (k : A -> M S B) : M S B :=
  fun s =>
    match m s with
    | Stuck => Stuck
    | Done (inl st) => Done (inl st)
    | Done (inr (a, s')) => k a s'
    end.

Notation "'let*' x ':=' m 'in' k" := (bind m (fun x => k))
  (at level 200, x name, m at level 100, k at level 200).

(** [le_8_bytes_to_size_t]: [None] when the value does not fit a [size_t]. *)
Definition le_8_bytes_to_size_t (sizeof_size_t : Z) (buf : list Z) : option Z :=
  if existsb (fun i => negb (buf !!! i =? 0))
       (seq (Z.to_nat sizeof_size_t) (8 - Z.to_nat sizeof_size_t))
  then None
  else Some (fold_left
               (fun size i => Z.lor size
                  (size_t_wrap sizeof_size_t (Z.shiftl (buf !!! i) (8 * Z.of_nat i))))
               (seq 0 (Z.to_nat sizeof_size_t)) 0).

(** [size_t_to_le_8_bytes], with its final [assert(size == 0)]. *)
Definition size_t_to_le_8_bytes (size : Z) : c_result (list Z) :=
  let bytes := map (fun i => Z.land (Z.shiftr size (8 * Z.of_nat i)) 255) (seq 0 8) in
  if Z.shiftr size 64 =? 0 then Done bytes else Stuck.

Section Streams.

Variable sizeof_size_t : Z.
Variable sha1 : list Z -> list Z.

(** *** Loading: the stream is the list of bytes [getc] still has to return. *)

(** [getc(ctx)]: [None] is [EOF]. *)
Definition getc : M (list Z) (option Z) :=
  fun s => match s with
           | [] => Done (inr (None, []))
           | c :: s' => Done (inr (Some c, s'))
           end.

(** [my_read(buffer, size, ctx, getc)]: [None] is the return value -1. *)
Fixpoint my_read (size : nat) : M (list Z) (option (list Z)) :=
  match size with
  | O => ret (Some [])
  | S size' =>
      let* c := getc in
      match c with
      | None => ret None
      | Some c =>
          let* rest := my_read size' in
          ret (match rest with None => None | Some l => Some (c :: l) end)
      end
  end.

(** [hibp_bf_load_stream] (load-stream.h); [malloc_ok] is whether [malloc]
    succeeds. *)
Definition hibp_bf_load_stream (malloc_ok : bool) : M (list Z) bloom_filter :=
  let* this_version := my_read 4 in
  match this_version with
  | None => fail HIBP_E_IO
  | Some this_version =>
  if negb (bool_decide (this_version = VERSION)) then fail HIBP_E_VERSION else
  let* n_hash_functions_bytes := my_read 8 in
  match n_hash_functions_bytes with
  | None => fail HIBP_E_IO
  | Some n_hash_functions_bytes =>
  match le_8_bytes_to_size_t sizeof_size_t n_hash_functions_bytes with
  | None => fail HIBP_E_2BIG
  | Some n_hash_functions =>
  let* c := getc in
  match c with
  | None => fail HIBP_E_IO
  | Some c =>
  let log2_bits := c in
  match compute_buffer_size sizeof_size_t n_hash_functions log2_bits with
  | Stuck => stuck
  | Done (inl st) => fail st
  | Done (inr buffer_size) =>
  let* checksum := my_read (Z.to_nat SHA1_BYTES) in
  match checksum with
  | None => fail HIBP_E_IO
  | Some checksum =>
  if negb malloc_ok then fail HIBP_E_NOMEM else
  let* buf := my_read (Z.to_nat buffer_size) in
  match buf with
  | None => fail HIBP_E_IO
  | Some buf =>
  if negb (bool_decide (checksum = sha1 buf)) then fail HIBP_E_CHECKSUM else
  ret {| n_hash_functions := n_hash_functions; log2_bits := log2_bits; buffer := buf |}
  end end end end end end end.

(** *** Saving: the writer is an abstract stream state with a [putc] that may
    fail (return [EOF]). *)

Variable writer : Type.
Variable putc : writer -> Z -> option writer.

(** [my_write(buffer, size, ctx, putc)]: [false] is the return value -1. *)
Fixpoint my_write (bytes : list Z) : M writer bool :=
  match bytes with
  | [] => ret true
  | c :: bytes' =>
      fun s => match putc s c with
               | None => ret false s
               | Some s' => my_write bytes' s'
               end
  end.

(** [hibp_bf_save_stream] (save-stream.h). *)
Definition hibp_bf_save_stream (bf : bloom_filter) : M writer unit :=
  let* ok := my_write VERSION in
  if negb ok then fail HIBP_E_IO else
  match size_t_to_le_8_bytes (n_hash_functions bf) with
  | Stuck => stuck
  | Done n_hash_functions_bytes =>
  let* ok := my_write n_hash_functions_bytes in
  if negb ok then fail HIBP_E_IO else
  if negb ((0 <=? log2_bits bf) && (log2_bits bf <=? 255)) then stuck else
  let* ok := my_write [log2_bits bf] in
  if negb ok then fail HIBP_E_IO else
  match compute_buffer_size sizeof_size_t (n_hash_functions bf) (log2_bits bf) with
  | Done (inr buffer_size) =>
      if (length (buffer bf) <? Z.to_nat buffer_size)%nat then stuck else
      let contents := take (Z.to_nat buffer_size) (buffer bf) in
      let checksum := sha1 contents in
      let* ok := my_write checksum in
      if negb ok then fail HIBP_E_IO else
      let* ok := my_write contents in
      if negb ok then fail HIBP_E_IO else
      ret tt
  | _ => stuck
  end
  end.

End Streams.

(** ** SHA-1 (FIPS 180-4), the digest the library obtains from OpenSSL; used to
    run the persistence code on concrete streams. *)

Module Sha1.

Definition w32 (x : Z) : Z := x mod 2 ^ 32.

Definition rotl (x n : Z) : Z := w32 (Z.lor (Z.shiftl x n) (Z.shiftr x (32 - n))).

Definition be_bytes (width : nat) (x : Z) : list Z :=
  map (fun i => Z.land (Z.shiftr x (8 * Z.of_nat (width - 1 - i))) 255) (seq 0 width).

Definition pad (msg : list Z) : list Z :=
  let l := Z.of_nat (length msg) in
  msg ++ [0x80] ++ replicate (Z.to_nat ((55 - l) mod 64)) 0 ++ be_bytes 8 (8 * l).

Fixpoint chunks (fuel n : nat) (l : list Z) : list (list Z) :=
  match fuel with
  | O => []
  | S fuel' =>
      match l with
      | [] => []
      | _ => take n l :: chunks fuel' n (drop n l)
      end
  end.

Definition word_of_bytes (bs : list Z) : Z :=
  fold_left (fun acc b => acc * 256 + b) bs 0.

(** The message schedule: [w[t] = rotl1(w[t-3] ^ w[t-8] ^ w[t-14] ^ w[t-16])]. *)
Fixpoint schedule (n : nat) (w : list Z) : list Z :=
  match n with
  | O => w
  | S n' =>
      let t := length w in
      let x := Z.lxor (Z.lxor (w !!! (t - 3)%nat) (w !!! (t - 8)%nat))
                      (Z.lxor (w !!! (t - 14)%nat) (w !!! (t - 16)%nat)) in
      schedule n' (w ++ [rotl x 1])
  end.

Definition round (w : list Z) (st : Z * Z * Z * Z * Z) (t : nat) : Z * Z * Z * Z * Z :=
  let '(a, b, c, d, e) := st in
  let notb := Z.lxor b (2 ^ 32 - 1) in
  let '(f, k) :=
    if (t <? 20)%nat then (Z.lor (Z.land b c) (Z.land notb d), 0x5A827999)
    else if (t <? 40)%nat then (Z.lxor (Z.lxor b c) d, 0x6ED9EBA1)
    else if (t <? 60)%nat then
      (Z.lor (Z.lor (Z.land b c) (Z.land b d)) (Z.land c d), 0x8F1BBCDC)
    else (Z.lxor (Z.lxor b c) d, 0xCA62C1D6) in
  let temp := w32 (rotl a 5 + f + e + k + w !!! t) in
  (temp, a, rotl b 30, c, d).

Definition compress (h : Z * Z * Z * Z * Z) (block : list Z) : Z * Z * Z * Z * Z :=
  let w := schedule 64 (map word_of_bytes (chunks 16 4 block)) in
  let '(a, b, c, d, e) := fold_left (round w) (seq 0 80) h in
  let '(h0, h1, h2, h3, h4) := h in
  (w32 (h0 + a), w32 (h1 + b), w32 (h2 + c), w32 (h3 + d), w32 (h4 + e)).

Definition digest (msg : list Z) : list Z :=
  let p := pad msg in
  let '(h0, h1, h2, h3, h4) :=
    fold_left compress (chunks (length p) 64 p)
      (0x67452301, 0xEFCDAB89, 0x98BADCFE, 0x10325476, 0xC3D2E1F0) in
  be_bytes 4 h0 ++ be_bytes 4 h1 ++ be_bytes 4 h2 ++ be_bytes 4 h3 ++ be_bytes 4 h4.

End Sha1.

(** A writer that appends every byte to a list and never fails. *)
Definition list_putc (w : list Z) (c : Z) : option (list Z) := Some (w ++ [c]).

(** The number of bytes of a bit vector of [2 ^ b] bits, [ceil(2^b / 8)]. *)
Definition vector_bytes (b : Z) : Z := (2 ^ b + 7) / 8.

(** A filter as the library builds it: its buffer has the size
    [compute_buffer_size] accepts for its parameters (hibp_bf_new_prng and
    hibp_bf_load_stream allocate exactly that size; insertion keeps it). *)
Definition filter_ok (sizeof_size_t : Z) (bf : bloom_filter) : Prop :=
  compute_buffer_size sizeof_size_t (n_hash_functions bf) (log2_bits bf)
  = Done (inr (Z.of_nat (length (buffer bf)))).

(** The hash-function table [H] and the bit vector [V] of a filter. *)
Definition hash_table (bf : bloom_filter) : list Z :=
  take (Z.to_nat (bvector_offset bf)) (buffer bf).
Definition bit_vector (bf : bloom_filter) : list Z :=
  drop (Z.to_nat (bvector_offset bf)) (buffer bf).

(** Invariant (I3): every byte of [H] is a bit index into a SHA-1 digest. *)
Definition hash_indices_ok (bf : bloom_filter) : Prop :=
  Forall (fun q => 0 <= q < SHA1_BITS) (hash_table bf).

(** Bit [v] of the bit vector, as [hibp_bf_query_sha1] reads it. *)
Definition bit_set (bf : bloom_filter) (v : Z) : bool :=
  negb (Z.land (Z.shiftr (buffer bf !!! Z.to_nat (bvector_offset bf + v / 8)) (v mod 8)) 1 =? 0).

(** The buffer layout (I1, I2, I4): [H] of [n * b] bytes followed by [V] of
    [ceil(2^b / 8)] bytes. *)
Definition layout_ok (bf : bloom_filter) : Prop :=
  0 <= n_hash_functions bf /\ 0 <= log2_bits bf /\
  Z.of_nat (length (buffer bf)) = n_hash_functions bf * log2_bits bf + vector_bytes (log2_bits bf).

(** The loop invariant of the generation loop: after [length ps] iterations,
    [generated = 160 * length ps] and the first [min generated hfs] bytes of the
    buffer are those of the concatenated permutations [ps]. *)
Definition generate_inv (hfs len generated : Z) (permutation buf : list Z)
    (ps : list (list Z)) : Prop :=
  generated = SHA1_BITS * Z.of_nat (length ps) /\
  generated <= hfs + SHA1_BITS - 1 /\
  Forall (fun p => p ≡ₚ identity_permutation) ps /\
  permutation ≡ₚ identity_permutation /\
  Z.of_nat (length buf) = len /\
  take (Z.to_nat (Z.min generated hfs)) buf = take (Z.to_nat (Z.min generated hfs)) (concat ps).

(** The 8 little-endian bytes of a count, as the on-disk layout describes
    them: byte [i] is [(k / 256^i) mod 256]. *)
Definition le8_spec (k : Z) : list Z :=
  map (fun i => (k / 2 ^ (8 * Z.of_nat i)) mod 256) (seq 0 8).

(** The on-disk image of a filter: magic, [k], [b], the SHA-1 of [H ++ V],
    then [H] and [V]. *)
Definition serialized_layout (sha1 : list Z -> list Z) (bf : bloom_filter) : list Z :=
  VERSION ++ le8_spec (n_hash_functions bf) ++ [log2_bits bf] ++
  sha1 (hash_table bf ++ bit_vector bf) ++ hash_table bf ++ bit_vector bf.

(** Writing a byte sequence with [putc], one byte after another, stopping at
    the first failure ([None]). *)
Fixpoint put_all {W : Type} (putc : W -> Z -> option W) (l : list Z) (w : W) : option W :=
  match l with
  | [] => Some w
  | c :: l' => match putc w c with None => None | Some w' => put_all putc l' w' end
  end.

(** A stream in the on-disk format with [k = 1], [b = 1] and a correct
    checksum, whose table [H] is the single byte 200. *)
Definition stream_bad_index : list Z :=
  VERSION ++ [1; 0; 0; 0; 0; 0; 0; 0] ++ [1] ++ Sha1.digest [200; 0] ++ [200; 0].

(** A deterministic source for [default_prng] in examples. *)
Definition counter_draw (s : Z) (limit : Z) : Z * Z := (s mod limit, s + 1).

(** ** Further definitions: the insertion as a buffer update, [hibp_sha1_hex2bin]
    byte by byte, the candidates of [hibp_compute_constrained_params],
    [hibp_bf_get_info] and the [FILE*] variants of loading and saving. *)

(** The byte update of one iteration of [hibp_bf_insert_sha1] on the buffer:
    [vector[k / 8] |= (1 << (k % 8))] with [vector] at offset [off]. *)
Definition set_vector_bit (off : Z) (buf : list Z) (k : Z) : list Z :=
  let pos := Z.to_nat (off + k / 8) in
  <[pos := Z.land (Z.lor (buf !!! pos) (Z.shiftl 1 (k mod 8))) 255]> buf.

(** The values of the hash functions [0 .. n - 1] of a filter on a digest, in
    the order [hibp_bf_insert_sha1] evaluates them. *)
Definition hash_values (bf : bloom_filter) (sha : list Z) : list Z :=
  map (fun i => eval_nth_hash_function bf (Z.of_nat i) sha) (seq 0 (Z.to_nat (n_hash_functions bf))).

(** The digit value [hibp_sha1_hex2bin] ors in for a character, 0 for a
    non-digit. *)
Definition hex_nibble (c : Z) : Z :=
  match hex_digit_value c with Some v => v | None => 0 end.

(** Whether [hibp_sha1_hex2bin] accepts a character as a hexadecimal digit. *)
Definition hex_valid (c : Z) : bool :=
  match hex_digit_value c with Some _ => true | None => false end.

(** The byte [hibp_sha1_hex2bin] stores at [bin[i]] when the characters
    [hex[i]] and [hex[i + 1]] are digits. *)
Definition hex2bin_byte (hex : list Z) (i : nat) : Z :=
  16 * hex_nibble (hex !!! i) + hex_nibble (hex !!! S i).

(** The number of hash functions [hibp_compute_constrained_params] takes at
    [candidate_log2_bits], capped at [N_HASH_FUNCTIONS_MAX]. *)
Definition constrained_candidate_n (sz : Z) (optimal_k : Z -> Z -> Z) (count b : Z) : Z :=
  let d := optimal_k count b in
  if d >? N_HASH_FUNCTIONS_MAX sz then N_HASH_FUNCTIONS_MAX sz else d.

(** The size the loop of [hibp_compute_constrained_params] compares with
    [max_memory] at [candidate_log2_bits] (with the arguments of
    [compute_buffer_size] in the order of the source): [SIZE_MAX] when
    [compute_buffer_size] fails. *)
Definition constrained_tested_size (sz : Z) (optimal_k : Z -> Z -> Z) (count b : Z) : c_result Z :=
  match compute_buffer_size sz b (constrained_candidate_n sz optimal_k count b) with
  | Stuck => Stuck
  | Done (inr size) => Done size
  | Done (inl _) => Done (SIZE_MAX sz)
  end.

(** [hibp_filter_info_t] *)
Record filter_info : Type := mk_info {
  info_n_hash_functions : Z;
  info_log2_bits : Z;
  info_bits : Z;
  info_memory : Z
}.

(** [hibp_bf_get_info]; [sizeof_bf] is [sizeof(hibp_bloom_filter_t)] and
    [uninit] the value [buffer_size] happens to hold when
    [compute_buffer_size] fails and leaves it uninitialised. *)
Definition hibp_bf_get_info (sz sizeof_bf uninit : Z) (bf : bloom_filter) : c_result filter_info :=
  match compute_buffer_size sz (n_hash_functions bf) (log2_bits bf) with
  | Stuck => Stuck
  | Done r =>
      let buffer_size := match r with inr size => size | inl _ => uninit end in
      match size_t_shl sz 1 (log2_bits bf) with
      | Stuck => Stuck
      | Done bits =>
          Done (mk_info (n_hash_functions bf) (log2_bits bf) bits
                  (size_t_wrap sz (sizeof_bf + buffer_size)))
      end
  end.

(** [fread(buffer, 1, size, file)] on a file holding the bytes [s]: the bytes
    read (fewer than [size] at the end of the file). *)
Definition fread (size : nat) : M (list Z) (list Z) :=
  fun s => Done (inr (take size s, drop size s)).

(** [hibp_bf_load_file]: load-stream.h with [my_read(b, size, ...)] defined as
    [fread(b, 1, size, file) != size] and [getc] as [fgetc]. *)
Definition hibp_bf_load_file (sizeof_size_t : Z) (sha1 : list Z -> list Z) (malloc_ok : bool)
    : M (list Z) bloom_filter :=
  let* this_version := fread 4 in
  if negb (length this_version =? 4)%nat then fail HIBP_E_IO else
  if negb (bool_decide (this_version = VERSION)) then fail HIBP_E_VERSION else
  let* n_hash_functions_bytes := fread 8 in
  if negb (length n_hash_functions_bytes =? 8)%nat then fail HIBP_E_IO else
  match le_8_bytes_to_size_t sizeof_size_t n_hash_functions_bytes with
  | None => fail HIBP_E_2BIG
  | Some n_hash_functions =>
  let* c := getc in
  match c with
  | None => fail HIBP_E_IO
  | Some c =>
  let log2_bits := c in
  match compute_buffer_size sizeof_size_t n_hash_functions log2_bits with
  | Stuck => stuck
  | Done (inl st) => fail st
  | Done (inr buffer_size) =>
  let* checksum := fread (Z.to_nat SHA1_BYTES) in
  if negb (length checksum =? Z.to_nat SHA1_BYTES)%nat then fail HIBP_E_IO else
  if negb malloc_ok then fail HIBP_E_NOMEM else
  let* buf := fread (Z.to_nat buffer_size) in
  if negb (length buf =? Z.to_nat buffer_size)%nat then fail HIBP_E_IO else
  if negb (bool_decide (checksum = sha1 buf)) then fail HIBP_E_CHECKSUM else
  ret {| n_hash_functions := n_hash_functions; log2_bits := log2_bits; buffer := buf |}
  end end end.

Section FileWriter.

(** The file as a writer state with [fputc], which may fail ([EOF]). *)
Variable writer : Type.
Variable fputc : writer -> Z -> option writer.

(** [fwrite(bytes, 1, length bytes, file)]: the number of bytes written, up to
    the first failing [fputc]. *)
Fixpoint fwrite (bytes : list Z) : M writer nat :=
  match bytes with
  | [] => ret 0%nat
  | c :: bytes' =>
      fun s => match fputc s c with
               | None => ret 0%nat s
               | Some s' => bind (fwrite bytes') (fun k => ret (S k)) s'
               end
  end.

(** [hibp_bf_save_file]: save-stream.h with [my_write(b, size, ...)] defined as
    [fwrite(b, 1, size, file) != size] and [putc] as [fputc]. *)
Definition hibp_bf_save_file (sizeof_size_t : Z) (sha1 : list Z -> list Z) (bf : bloom_filter)
    : M writer unit :=
  let* k := fwrite VERSION in
  if negb (k =? 4)%nat then fail HIBP_E_IO else
  match size_t_to_le_8_bytes (n_hash_functions bf) with
  | Stuck => stuck
  | Done n_hash_functions_bytes =>
  let* k := fwrite n_hash_functions_bytes in
  if negb (k =? 8)%nat then fail HIBP_E_IO else
  if negb ((0 <=? log2_bits bf) && (log2_bits bf <=? 255)) then stuck else
  fun s => match fputc s (log2_bits bf) with
  | None => fail HIBP_E_IO s
  | Some s =>
  (match compute_buffer_size sizeof_size_t (n_hash_functions bf) (log2_bits bf) with
  | Done (inr buffer_size) =>
      if (length (buffer bf) <? Z.to_nat buffer_size)%nat then stuck else
      let contents := take (Z.to_nat buffer_size) (buffer bf) in
      let checksum := sha1 contents in
      let* k := fwrite checksum in
      if negb (k =? Z.to_nat SHA1_BYTES)%nat then fail HIBP_E_IO else
      let* k := fwrite contents in
      if negb (k =? Z.to_nat buffer_size)%nat then fail HIBP_E_IO else
      ret tt
  | _ => stuck
  end) s
  end
  end.

End FileWriter.

(** The loop of [eval_nth_hash_function] with its checks: reading
    [indices[i]] outside the buffer, [assert(index < SHA1_BITS)], reading
    [sha[index / 8]] outside the digest and the [size_t] shift [bit << i] are
    [Stuck] where they fail. *)
Fixpoint eval_loop_checked (sz : Z) (bf : bloom_filter) (base : Z) (sha : list Z)
    (is : list nat) (value : Z) : c_result Z :=
  match is with
  | [] => Done value
  | i :: is' =>
      match buffer bf !! Z.to_nat (base + Z.of_nat i) with
      | None => Stuck
      | Some index =>
          if negb (index <? SHA1_BITS) then Stuck else
          match sha !! Z.to_nat (index / 8) with
          | None => Stuck
          | Some byte =>
              let bit := Z.land (Z.shiftr byte (index mod 8)) 1 in
              match size_t_shl sz bit (Z.of_nat i) with
              | Stuck => Stuck
              | Done shifted => eval_loop_checked sz bf base sha is' (Z.lor value shifted)
              end
          end
      end
  end.

(** [eval_nth_hash_function] with its checks, the final
    [assert(value < (((size_t)1) << bf->log2_bits))] included. *)
Definition eval_nth_hash_function_checked (sz : Z) (bf : bloom_filter) (k : Z) (sha : list Z)
    : c_result Z :=
  match eval_loop_checked sz bf (k * log2_bits bf) sha (seq 0 (Z.to_nat (log2_bits bf))) 0 with
  | Stuck => Stuck
  | Done value =>
      match size_t_shl sz 1 (log2_bits bf) with
      | Stuck => Stuck
      | Done bound => if value <? bound then Done value else Stuck
      end
  end.

(** The loop of [hibp_bf_insert_sha1] with its checks: the hash evaluation
    and the access [vector[k / 8]] outside the buffer. *)
Fixpoint insert_loop_checked (sz : Z) (sha : list Z) (bf : bloom_filter) (is : list nat)
    : c_result bloom_filter :=
  match is with
  | [] => Done bf
  | i :: is' =>
      match eval_nth_hash_function_checked sz bf (Z.of_nat i) sha with
      | Stuck => Stuck
      | Done k =>
          let pos := Z.to_nat (bvector_offset bf + k / 8) in
          match buffer bf !! pos with
          | None => Stuck
          | Some x =>
              insert_loop_checked sz sha
                {| n_hash_functions := n_hash_functions bf;
                   log2_bits := log2_bits bf;
                   buffer := <[pos := Z.land (Z.lor x (Z.shiftl 1 (k mod 8))) 255]> (buffer bf) |}
                is'
          end
      end
  end.

(** [hibp_bf_insert_sha1] with its checks. *)
Definition hibp_bf_insert_sha1_checked (sz : Z) (bf : bloom_filter) (sha : list Z)
    : c_result bloom_filter :=
  insert_loop_checked sz sha bf (seq 0 (Z.to_nat (n_hash_functions bf))).

(** The loop of [hibp_bf_query_sha1] with its checks: the hash evaluation,
    [assert(k < (((size_t)1) << bf->log2_bits))] and the access [vector[k / 8]]
    outside the buffer. *)
Fixpoint query_loop_checked (sz : Z) (bf : bloom_filter) (sha : list Z) (is : list nat)
    : c_result bool :=
  match is with
  | [] => Done true
  | i :: is' =>
      match eval_nth_hash_function_checked sz bf (Z.of_nat i) sha with
      | Stuck => Stuck
      | Done k =>
          match size_t_shl sz 1 (log2_bits bf) with
          | Stuck => Stuck
          | Done bound =>
              if negb (k <? bound) then Stuck else
              match buffer bf !! Z.to_nat (bvector_offset bf + k / 8) with
              | None => Stuck
              | Some byte =>
                  if Z.land (Z.shiftr byte (k mod 8)) 1 =? 0 then Done false
                  else query_loop_checked sz bf sha is'
              end
          end
      end
  end.

(** [hibp_bf_query_sha1] with its checks. *)
Definition hibp_bf_query_sha1_checked (sz : Z) (bf : bloom_filter) (sha : list Z) : c_result bool :=
  query_loop_checked sz bf sha (seq 0 (Z.to_nat (n_hash_functions bf))).

(** ** Size arithmetic *)

Lemma ceil8_eq (x : Z) :
  0 <= x -> x / 8 + (if x mod 8 =? 0 then 0 else 1) = (x + 7) / 8.
Proof.
  intros Hx.
  pose proof (Z.div_mod x 8 ltac:(lia)) as Hd.
  pose proof (Z.mod_pos_bound x 8 ltac:(lia)) as Hr.
  set (q := x / 8) in *. set (r := x mod 8) in *.
  apply Z.div_unique with (r := (r + 7) mod 8); [pose proof (Z.mod_pos_bound (r + 7) 8); lia|].
  destruct (Z.eqb_spec r 0) as [E|E].
  - rewrite E. change ((0 + 7) mod 8) with 7. lia.
  - assert ((r + 7) mod 8 = r - 1) as ->.
    { symmetry. apply Z.mod_unique with (q := 1); lia. }
    lia.
Qed.

Lemma vector_bytes_pos (b : Z) : 0 <= b -> 1 <= vector_bytes b <= 2 ^ b.
Proof.
  intros Hb. unfold vector_bytes.
  pose proof (Z.pow_pos_nonneg 2 b ltac:(lia) Hb).
  split.
  - apply Z.div_le_lower_bound; lia.
  - apply Z.div_le_upper_bound; lia.
Qed.

(** When [compute_buffer_size] accepts [(n, b)], the size it returns is the exact,
    untruncated [n * b + ceil(2^b / 8)], which fits a [size_t]. *)
Lemma compute_buffer_size_ok (sz n b size : Z) :
  1 <= sz ->
  compute_buffer_size sz n b = Done (inr size) ->
  1 <= n <= N_HASH_FUNCTIONS_MAX sz /\ 0 <= b < size_t_bits sz /\ b <= SHA1_BITS /\
  size = n * b + vector_bytes b /\ size <= SIZE_MAX sz.
Proof.
  intros Hsz. unfold compute_buffer_size, size_t_shl, LOG2_BITS_MAX, size_t_wrap.
  assert (Hw : 8 <= size_t_bits sz) by (unfold size_t_bits; lia).
  assert (HM : SIZE_MAX sz = 2 ^ size_t_bits sz - 1) by reflexivity.
  destruct (Z.eqb_spec n 0); [discriminate|].
  destruct (Z.gtb_spec b (Z.min (size_t_bits sz) SHA1_BITS)); [discriminate|].
  destruct (Z.gtb_spec n (N_HASH_FUNCTIONS_MAX sz)); [discriminate|].
  destruct (Z.gtb_spec b (SIZE_MAX sz / n)); [discriminate|]. simpl.
  destruct (Z.leb_spec 0 b); [|discriminate].
  destruct (Z.ltb_spec b (size_t_bits sz)); [|discriminate]. simpl.
  assert (Hn : 1 <= n).
  { destruct (Z.lt_ge_cases n 0) as [Hlt|]; [|lia].
    exfalso.
    pose proof (Z.div_mod (SIZE_MAX sz) n ltac:(lia)) as Hd.
    pose proof (Z.mod_neg_bound (SIZE_MAX sz) n Hlt) as Hr.
    pose proof (Z.pow_le_mono_r 2 8 (size_t_bits sz) ltac:(lia) Hw).
    set (q := SIZE_MAX sz / n) in *.
    destruct (Z.lt_ge_cases q 0); [lia|]. nia. }
  assert (Hp : 2 ^ b < 2 ^ size_t_bits sz) by (apply Z.pow_lt_mono_r; lia).
  assert (Hbpos : 0 < 2 ^ b) by (apply Z.pow_pos_nonneg; lia).
  assert (Hprod : b * n <= SIZE_MAX sz).
  { pose proof (Z.mul_div_le (SIZE_MAX sz) n ltac:(lia)). nia. }
  rewrite Z.shiftl_1_l.
  rewrite (Z.mod_small (2 ^ b)) by lia.
  rewrite (Z.mod_small (b * n)) by lia.
  rewrite ceil8_eq by lia.
  fold (vector_bytes b).
  pose proof (vector_bytes_pos b ltac:(lia)).
  rewrite (Z.mod_small (vector_bytes b)) by lia.
  destruct (Z.gtb_spec (b * n) (SIZE_MAX sz - vector_bytes b)); [discriminate|].
  intros E. injection E as <-.
  rewrite Z.mod_small by lia.
  repeat split; try lia.
Qed.

(** ** The hashing primitive *)

Lemma lor_lt_pow2 (a b n : Z) :
  0 <= a < 2 ^ n -> 0 <= b < 2 ^ n -> 0 <= Z.lor a b < 2 ^ n.
Proof.
  intros Ha Hb.
  assert (0 <= Z.lor a b) by (apply Z.lor_nonneg; lia).
  split; [lia|].
  destruct (Z.eq_dec (Z.lor a b) 0) as [E|E]; [lia|].
  destruct (Z.eq_dec a 0) as [->|Ea]; [rewrite Z.lor_0_l; lia|].
  destruct (Z.eq_dec b 0) as [->|Eb]; [rewrite Z.lor_0_r; lia|].
  apply Z.log2_lt_pow2; [lia|].
  rewrite Z.log2_lor by lia.
  apply Z.max_lub_lt; apply Z.log2_lt_pow2; lia.
Qed.

(** The accumulation loop of [eval_nth_hash_function] keeps [value < 2^i]. *)
Lemma eval_loop_bound (f : nat -> Z) (s m : nat) (v : Z) :
  (forall i, 0 <= f i <= 1) ->
  0 <= v < 2 ^ Z.of_nat s ->
  0 <= fold_left (fun value i => Z.lor value (Z.shiftl (f i) (Z.of_nat i))) (seq s m) v
    < 2 ^ Z.of_nat (s + m).
Proof.
  intros Hf. revert s v. induction m as [|m IH]; intros s v Hv; simpl.
  - rewrite Nat.add_0_r. lia.
  - replace (s + S m)%nat with (S s + m)%nat by lia.
    apply IH.
    assert (H2 : 2 ^ Z.of_nat (S s) = 2 * 2 ^ Z.of_nat s).
    { rewrite Nat2Z.inj_succ, Z.pow_succ_r; lia. }
    apply lor_lt_pow2.
    + rewrite H2. lia.
    + rewrite Z.shiftl_mul_pow2 by lia. specialize (Hf s). rewrite H2. nia.
Qed.

Lemma land_1_range (x : Z) : 0 <= Z.land x 1 <= 1.
Proof.
  assert (E : Z.land x 1 = x mod 2).
  { change 1 with (Z.ones 1). rewrite Z.land_ones by lia. reflexivity. }
  rewrite E. pose proof (Z.mod_pos_bound x 2). lia.
Qed.

(** [eval_nth_hash_function] returns a value below [2 ^ log2_bits]. *)
Lemma eval_bound (bf : bloom_filter) (k : Z) (sha : list Z) :
  0 <= log2_bits bf ->
  0 <= eval_nth_hash_function bf k sha < 2 ^ log2_bits bf.
Proof.
  intros Hb. unfold eval_nth_hash_function.
  pose proof (eval_loop_bound
           (fun i => Z.land (Z.shiftr (sha !!! Z.to_nat
              ((buffer bf !!! Z.to_nat (k * log2_bits bf + Z.of_nat i)) / 8))
              ((buffer bf !!! Z.to_nat (k * log2_bits bf + Z.of_nat i)) mod 8)) 1)
           0 (Z.to_nat (log2_bits bf)) 0 (fun i => land_1_range _)) as H.
  rewrite Nat.add_0_l, Z2Nat.id in H by lia.
  apply H. simpl. lia.
Qed.

Lemma fold_left_ext_seq {A : Type} (f g : A -> nat -> A) (s m : nat) (a : A) :
  (forall x i, (s <= i < s + m)%nat -> f x i = g x i) ->
  fold_left f (seq s m) a = fold_left g (seq s m) a.
Proof.
  revert s a. induction m as [|m IH]; intros s a Hfg; simpl; [reflexivity|].
  rewrite Hfg by lia. apply IH. intros x i Hi. apply Hfg. lia.
Qed.

(** Hash function [k < n] only reads the table [H]. *)
Lemma eval_hash_table (bf1 bf2 : bloom_filter) (k : Z) (sha : list Z) :
  n_hash_functions bf1 = n_hash_functions bf2 ->
  log2_bits bf1 = log2_bits bf2 ->
  hash_table bf1 = hash_table bf2 ->
  0 <= k < n_hash_functions bf1 -> 0 <= log2_bits bf1 ->
  eval_nth_hash_function bf1 k sha = eval_nth_hash_function bf2 k sha.
Proof.
  unfold hash_table, bvector_offset, eval_nth_hash_function.
  intros En Eb EH Hk Hb. rewrite <- En, <- Eb in *.
  apply fold_left_ext_seq. intros x i Hi.
  assert (Hlt : (Z.to_nat (k * log2_bits bf1 + Z.of_nat i)
                 < Z.to_nat (n_hash_functions bf1 * log2_bits bf1))%nat).
  { assert (Z.of_nat i < log2_bits bf1) by lia.
    apply Z2Nat.inj_lt; nia. }
  rewrite <- (lookup_total_take_lt (buffer bf1) _ _ Hlt).
  rewrite <- (lookup_total_take_lt (buffer bf2) _ _ Hlt).
  rewrite EH. reflexivity.
Qed.

(** ** Bits of the bit vector *)

Lemma land_shiftr_1 (x j : Z) :
  0 <= j -> Z.land (Z.shiftr x j) 1 = if Z.testbit x j then 1 else 0.
Proof.
  intros Hj.
  assert (E : forall y, Z.land y 1 = y mod 2).
  { intros y. change 1 with (Z.ones 1). rewrite Z.land_ones by lia. reflexivity. }
  rewrite E, Zmod_odd, <- Z.bit0_odd, Z.shiftr_spec by lia.
  rewrite Z.add_0_l. reflexivity.
Qed.

Lemma bit_set_testbit (bf : bloom_filter) (v : Z) :
  bit_set bf v = Z.testbit (buffer bf !!! Z.to_nat (bvector_offset bf + v / 8)) (v mod 8).
Proof.
  unfold bit_set. rewrite land_shiftr_1 by (apply Z.mod_pos_bound; lia).
  destruct (Z.testbit _ _); reflexivity.
Qed.

Lemma testbit_set_byte (x j t : Z) :
  0 <= j < 8 -> 0 <= t < 8 ->
  Z.testbit (Z.land (Z.lor x (Z.shiftl 1 t)) 255) j = Z.testbit x j || bool_decide (j = t).
Proof.
  intros Hj Ht.
  change 255 with (Z.ones 8).
  rewrite Z.land_spec, Z.lor_spec, Z.testbit_ones by lia.
  rewrite Z.shiftl_spec by lia.
  assert (E : (0 <=? j) && (j <? 8) = true) by (apply andb_true_intro; split; apply Z.leb_le || apply Z.ltb_lt; lia).
  rewrite E, andb_true_r.
  f_equal.
  destruct (decide (j = t)) as [->|Ne].
  - rewrite Z.sub_diag, bool_decide_true by reflexivity. reflexivity.
  - rewrite bool_decide_false by exact Ne.
    destruct (Z.lt_ge_cases (j - t) 0).
    + apply Z.testbit_neg_r; lia.
    + change 1 with (2 ^ 0). rewrite Z.pow2_bits_eqb by lia.
      apply Z.eqb_neq. lia.
Qed.

(** ** Insertion and query *)

Lemma filter_ok_layout (sz : Z) (bf : bloom_filter) :
  1 <= sz -> filter_ok sz bf ->
  1 <= n_hash_functions bf /\ 1 <= sz /\ log2_bits bf < size_t_bits sz /\ layout_ok bf.
Proof.
  intros Hsz Hok. apply compute_buffer_size_ok in Hok as (Hn & Hb & Hb' & Hl & _); [|exact Hsz].
  unfold layout_ok. lia.
Qed.

Section InsertStep.

Variables (sha : list Z) (bf : bloom_filter) (i : nat).
Hypothesis (Hn : 0 <= n_hash_functions bf) (Hb : 0 <= log2_bits bf).

Lemma insert_step_n : n_hash_functions (insert_step sha bf i) = n_hash_functions bf.
Proof. reflexivity. Qed.

Lemma insert_step_b : log2_bits (insert_step sha bf i) = log2_bits bf.
Proof. reflexivity. Qed.

Lemma insert_step_length : length (buffer (insert_step sha bf i)) = length (buffer bf).
Proof. simpl. apply length_insert. Qed.

Lemma insert_step_hash_table : hash_table (insert_step sha bf i) = hash_table bf.
Proof.
  unfold hash_table. simpl. unfold bvector_offset at 1. simpl.
  apply take_insert_ge.
  pose proof (eval_bound bf (Z.of_nat i) sha Hb).
  pose proof (Z.div_pos (eval_nth_hash_function bf (Z.of_nat i) sha) 8 ltac:(lia) ltac:(lia)).
  unfold bvector_offset. apply Z2Nat.inj_le; nia.
Qed.

(** A set bit stays set. *)
Lemma insert_step_bit_set (v : Z) :
  bit_set bf v = true -> bit_set (insert_step sha bf i) v = true.
Proof.
  rewrite !bit_set_testbit. unfold bvector_offset. simpl. fold (bvector_offset bf).
  rewrite list_lookup_total_insert.
  case_decide as Hc; [|auto].
  intros Hbit. destruct Hc as [Hp _].
  rewrite testbit_set_byte by (apply Z.mod_pos_bound; lia).
  rewrite <- Hp in Hbit. rewrite Hbit. reflexivity.
Qed.

(** The bit of hash function [i] is set. *)
Lemma insert_step_sets :
  layout_ok bf ->
  bit_set (insert_step sha bf i) (eval_nth_hash_function bf (Z.of_nat i) sha) = true.
Proof.
  intros (_ & _ & Hlen).
  set (v := eval_nth_hash_function bf (Z.of_nat i) sha).
  pose proof (eval_bound bf (Z.of_nat i) sha Hb) as Hv. fold v in Hv.
  rewrite bit_set_testbit. unfold bvector_offset. simpl. fold v. fold (bvector_offset bf).
  rewrite list_lookup_total_insert_eq.
  - rewrite testbit_set_byte by (apply Z.mod_pos_bound; lia).
    rewrite bool_decide_true by reflexivity. apply orb_true_r.
  - assert (Hq : v / 8 < vector_bytes (log2_bits bf)).
    { unfold vector_bytes.
      assert (E : 2 ^ log2_bits bf + 7 = (2 ^ log2_bits bf - 1) + 1 * 8) by lia.
      rewrite E, Z.div_add by lia.
      pose proof (Z.div_le_mono v (2 ^ log2_bits bf - 1) 8 ltac:(lia) ltac:(lia)). lia. }
    pose proof (Z.div_pos v 8 ltac:(lia) ltac:(lia)).
    unfold bvector_offset. apply Nat2Z.inj_lt. rewrite Z2Nat.id by nia. lia.
Qed.

End InsertStep.

Lemma insert_fold_preserves (sha : list Z) (is : list nat) (bf : bloom_filter) :
  0 <= n_hash_functions bf -> 0 <= log2_bits bf ->
  let bf' := fold_left (insert_step sha) is bf in
  n_hash_functions bf' = n_hash_functions bf /\ log2_bits bf' = log2_bits bf /\
  length (buffer bf') = length (buffer bf) /\ hash_table bf' = hash_table bf /\
  (forall v, bit_set bf v = true -> bit_set bf' v = true).
Proof.
  revert bf. induction is as [|i is IH]; intros bf Hn Hb; simpl.
  - auto.
  - destruct (IH (insert_step sha bf i)) as (E1 & E2 & E3 & E4 & E5);
      rewrite ?insert_step_n, ?insert_step_b; try lia.
    rewrite E1, E2, E3, E4, insert_step_length, insert_step_hash_table,
      insert_step_n, insert_step_b by lia.
    repeat split; auto using insert_step_bit_set.
Qed.

(** [hibp_bf_insert_sha1] keeps the parameters, the buffer size and [H]. *)
Lemma insert_preserves (bf : bloom_filter) (sha : list Z) :
  0 <= n_hash_functions bf -> 0 <= log2_bits bf ->
  n_hash_functions (hibp_bf_insert_sha1 bf sha) = n_hash_functions bf /\
  log2_bits (hibp_bf_insert_sha1 bf sha) = log2_bits bf /\
  length (buffer (hibp_bf_insert_sha1 bf sha)) = length (buffer bf) /\
  hash_table (hibp_bf_insert_sha1 bf sha) = hash_table bf /\
  (forall v, bit_set bf v = true -> bit_set (hibp_bf_insert_sha1 bf sha) v = true).
Proof. intros. apply insert_fold_preserves; assumption. Qed.

Lemma insert_filter_ok (sz : Z) (bf : bloom_filter) (sha : list Z) :
  1 <= sz -> filter_ok sz bf -> filter_ok sz (hibp_bf_insert_sha1 bf sha).
Proof.
  intros Hsz Hok. pose proof (filter_ok_layout sz bf Hsz Hok) as (? & _ & _ & ? & ? & _).
  destruct (insert_preserves bf sha) as (E1 & E2 & E3 & _); try lia.
  unfold filter_ok. rewrite E1, E2, E3. exact Hok.
Qed.

Lemma insert_layout_ok (bf : bloom_filter) (sha : list Z) :
  layout_ok bf -> layout_ok (hibp_bf_insert_sha1 bf sha).
Proof.
  intros (Hn & Hb & Hl).
  destruct (insert_preserves bf sha) as (E1 & E2 & E3 & _); try lia.
  unfold layout_ok. rewrite E1, E2, E3. auto.
Qed.

Lemma insert_step_layout_ok (sha : list Z) (bf : bloom_filter) (i : nat) :
  layout_ok bf -> layout_ok (insert_step sha bf i).
Proof.
  intros (Hn & Hb & Hl). unfold layout_ok.
  rewrite insert_step_length, insert_step_n, insert_step_b. auto.
Qed.

Lemma insert_fold_sets (sha : list Z) (is : list nat) (bf : bloom_filter) (j : nat) :
  layout_ok bf -> In j is -> Z.of_nat j < n_hash_functions bf ->
  bit_set (fold_left (insert_step sha) is bf) (eval_nth_hash_function bf (Z.of_nat j) sha) = true.
Proof.
  revert bf. induction is as [|i is IH]; intros bf Hl Hj Hjn; [destruct Hj|].
  pose proof Hl as (Hn & Hb & _). simpl.
  destruct Hj as [<-|Hj].
  - apply insert_fold_preserves; rewrite ?insert_step_n, ?insert_step_b; try lia.
    apply insert_step_sets; assumption.
  - rewrite <- (eval_hash_table (insert_step sha bf i) bf);
      rewrite ?insert_step_n, ?insert_step_b, ?insert_step_hash_table; try lia; [|reflexivity].
    apply IH; rewrite ?insert_step_n; auto using insert_step_layout_ok.
Qed.

(** After [hibp_bf_insert_sha1 bf sha], the bit of every hash function is set. *)
Lemma insert_sets_all (bf : bloom_filter) (sha : list Z) :
  layout_ok bf ->
  forall i, 0 <= i < n_hash_functions bf ->
  bit_set (hibp_bf_insert_sha1 bf sha) (eval_nth_hash_function bf i sha) = true.
Proof.
  intros Hl i Hi. rewrite <- (Z2Nat.id i) by lia.
  apply insert_fold_sets; [exact Hl| |lia].
  apply in_seq. lia.
Qed.

(** [hibp_bf_query_sha1] is the conjunction of the bits of the hash functions. *)
Lemma query_loop_spec (bf : bloom_filter) (sha : list Z) (is : list nat) :
  query_loop bf sha is = forallb (fun i => bit_set bf (eval_nth_hash_function bf (Z.of_nat i) sha)) is.
Proof.
  induction is as [|i is IH]; simpl; [reflexivity|].
  unfold bit_set. destruct (_ =? 0); simpl; auto.
Qed.

Lemma query_true_iff (bf : bloom_filter) (sha : list Z) :
  hibp_bf_query_sha1 bf sha = true <->
  forall i, 0 <= i < n_hash_functions bf -> bit_set bf (eval_nth_hash_function bf i sha) = true.
Proof.
  unfold hibp_bf_query_sha1. rewrite query_loop_spec, forallb_forall.
  split.
  - intros H i Hi. rewrite <- (Z2Nat.id i) by lia. apply H, in_seq. lia.
  - intros H j Hj. apply in_seq in Hj. apply H. lia.
Qed.

Lemma hash_table_length (bf : bloom_filter) :
  layout_ok bf -> Z.of_nat (length (hash_table bf)) = bvector_offset bf.
Proof.
  intros (Hn & Hb & Hl). unfold hash_table, bvector_offset.
  pose proof (vector_bytes_pos (log2_bits bf) Hb).
  rewrite length_take_le by lia. lia.
Qed.

(** Under (I3), every byte of the table [H] is a bit index below 160. *)
Lemma hash_table_byte (bf : bloom_filter) (idx : nat) :
  layout_ok bf -> hash_indices_ok bf ->
  Z.of_nat idx < bvector_offset bf ->
  0 <= buffer bf !!! idx < SHA1_BITS.
Proof.
  intros Hl HI Hidx.
  pose proof (hash_table_length bf Hl) as Hlen.
  assert (Hlt : (idx < Z.to_nat (bvector_offset bf))%nat) by lia.
  rewrite <- (lookup_total_take_lt (buffer bf) _ _ Hlt).
  fold (hash_table bf).
  destruct (lookup_lt_is_Some_2 (hash_table bf) idx ltac:(lia)) as [x Hx].
  rewrite (list_lookup_total_correct _ _ _ Hx).
  exact (Forall_lookup_1 _ _ _ _ HI Hx).
Qed.

(** Insertion and query touch only the bit vector: the byte holding bit [v < 2^b]
    lies inside [V]. *)
Lemma bit_position_in_vector (bf : bloom_filter) (v : Z) :
  layout_ok bf -> 0 <= v < 2 ^ log2_bits bf ->
  bvector_offset bf <= bvector_offset bf + v / 8 < Z.of_nat (length (buffer bf)).
Proof.
  intros (Hn & Hb & Hl) Hv.
  assert (Hq : v / 8 < vector_bytes (log2_bits bf)).
  { unfold vector_bytes.
    assert (E : 2 ^ log2_bits bf + 7 = (2 ^ log2_bits bf - 1) + 1 * 8) by lia.
    rewrite E, Z.div_add by lia.
    pose proof (Z.div_le_mono v (2 ^ log2_bits bf - 1) 8 ltac:(lia) ltac:(lia)). lia. }
  pose proof (Z.div_pos v 8 ltac:(lia) ltac:(lia)).
  unfold bvector_offset. lia.
Qed.

(** ** Claims about insertion and query *)

(** C1. No false negatives: on a filter with the layout of its invariants
    (k, b >= 0, [H] of k*b bytes, [V] of ceil(2^b/8) bytes), once digest [d] has
    been inserted, [hibp_bf_query_sha1] reports it present, also after any
    further sequence [ds] of insertions of arbitrary digests. *)
Theorem no_false_negatives (bf : bloom_filter) (d : list Z) (ds : list (list Z)) :
  layout_ok bf ->
  hibp_bf_query_sha1 (fold_left hibp_bf_insert_sha1 ds (hibp_bf_insert_sha1 bf d)) d = true.
Proof.
  intros Hl. pose proof Hl as (Hn & Hb & _).
  destruct (insert_preserves bf d Hn Hb) as (E1 & E2 & _ & E4 & _).
  assert (Hl1 : layout_ok (hibp_bf_insert_sha1 bf d)) by (apply insert_layout_ok; exact Hl).
  assert (Hds : forall bf1, layout_ok bf1 ->
            let bf2 := fold_left hibp_bf_insert_sha1 ds bf1 in
            n_hash_functions bf2 = n_hash_functions bf1 /\ log2_bits bf2 = log2_bits bf1 /\
            hash_table bf2 = hash_table bf1 /\
            (forall v, bit_set bf1 v = true -> bit_set bf2 v = true)).
  { induction ds as [|d' ds IH]; intros bf1 Hl1'; simpl; [auto|].
    pose proof Hl1' as (Hn1 & Hb1 & _).
    destruct (insert_preserves bf1 d' Hn1 Hb1) as (F1 & F2 & _ & F4 & F5).
    destruct (IH (hibp_bf_insert_sha1 bf1 d') (insert_layout_ok _ _ Hl1'))
      as (G1 & G2 & G4 & G5).
    rewrite G1, G2, G4, F1, F2, F4. repeat split; auto. }
  destruct (Hds _ Hl1) as (G1 & G2 & G4 & G5).
  apply query_true_iff. intros i Hi.
  rewrite G1, E1 in Hi.
  rewrite (eval_hash_table _ bf); rewrite ?G1, ?G2, ?G4, ?E1, ?E2, ?E4; try lia.
  - apply G5. apply insert_sets_all; assumption.
  - reflexivity.
Qed.

Lemma no_false_negatives_witness :
  layout_ok example_filter /\
  hibp_bf_query_sha1
    (fold_left hibp_bf_insert_sha1 [example_digest'] (hibp_bf_insert_sha1 example_filter example_digest))
    example_digest = true.
Proof.
  assert (Hl : layout_ok example_filter).
  { unfold layout_ok. apply (bool_decide_unpack _). vm_compute. exact I. }
  split; [exact Hl | apply (no_false_negatives example_filter); exact Hl].
Defined.

(** ** Construction: the hash-function family *)

Lemma swap_permutation (p : list Z) (i j : nat) :
  (i < length p)%nat -> (j < length p)%nat -> swap p i j ≡ₚ p.
Proof.
  intros Hi Hj. unfold swap.
  destruct (lookup_lt_is_Some_2 p i Hi) as [x Hx].
  destruct (lookup_lt_is_Some_2 p j Hj) as [y Hy].
  rewrite (list_lookup_total_correct _ _ _ Hx), (list_lookup_total_correct _ _ _ Hy).
  apply Permutation_insert_swap; assumption.
Qed.

Lemma identity_permutation_NoDup : NoDup identity_permutation.
Proof.
  unfold identity_permutation.
  apply (NoDup_fmap_2 Z.of_nat). apply NoDup_seq.
Qed.

Lemma identity_permutation_elem (q : Z) :
  0 <= q < SHA1_BITS -> q ∈ identity_permutation.
Proof.
  intros Hq. apply list_elem_of_In. unfold identity_permutation.
  apply in_map_iff. exists (Z.to_nat q). split; [lia|]. apply in_seq. unfold SHA1_BITS, SHA1_BYTES in *. lia.
Qed.

Lemma identity_permutation_length : length identity_permutation = Z.to_nat SHA1_BITS.
Proof. unfold identity_permutation. rewrite length_map, length_seq. reflexivity. Qed.

Section PrngContract.

Variable prng_state : Type.
Variable prng : prng_state -> Z -> Z * prng_state.

(** The PRNG contract: [prng(ctx, u)] lies in [[0, u)], for the bounds
    [1 <= u <= 160] the construction uses. *)
Hypothesis prng_range : forall ctx u, 1 <= u <= SHA1_BITS -> 0 <= fst (prng ctx u) < u.

Lemma fisher_yates_permutation (i : nat) (p : list Z) (ctx : prng_state) :
  (i < length p)%nat -> (length p <= Z.to_nat SHA1_BITS)%nat ->
  fst (fisher_yates prng_state prng i p ctx) ≡ₚ p.
Proof.
  revert p ctx. induction i as [|i IH]; intros p ctx Hi Hp; cbn [fisher_yates]; [reflexivity|].
  destruct (prng ctx (Z.of_nat (S i) + 1)) as [j ctx'] eqn:Ej.
  assert (Hu : 1 <= Z.of_nat (S i) + 1 <= SHA1_BITS)
    by (change (Z.to_nat SHA1_BITS) with 160%nat in Hp; unfold SHA1_BITS, SHA1_BYTES; lia).
  pose proof (prng_range ctx (Z.of_nat (S i) + 1) Hu) as Hj.
  rewrite Ej in Hj. simpl in Hj.
  assert (Hs : swap p (S i) (Z.to_nat j) ≡ₚ p) by (apply swap_permutation; lia).
  etrans; [|exact Hs]. apply IH; rewrite (Permutation_length Hs); lia.
Qed.

Lemma length_concat_perms (ps : list (list Z)) :
  Forall (fun p => p ≡ₚ identity_permutation) ps ->
  Z.of_nat (length (concat ps)) = SHA1_BITS * Z.of_nat (length ps).
Proof.
  induction 1 as [|p ps Hp _ IH]; simpl; [reflexivity|].
  rewrite length_app, (Permutation_length Hp), identity_permutation_length.
  unfold SHA1_BITS, SHA1_BYTES in *. lia.
Qed.

Lemma generate_loop_spec (fuel : nat) (hfs len generated : Z) (permutation buf : list Z)
    (ps : list (list Z)) (ctx : prng_state) :
  0 <= hfs <= len -> 0 <= generated ->
  hfs - generated < SHA1_BITS * Z.of_nat fuel ->
  generate_inv hfs len generated permutation buf ps ->
  exists ps',
    Forall (fun p => p ≡ₚ identity_permutation) ps' /\
    Z.of_nat (length ps') = (hfs + SHA1_BITS - 1) / SHA1_BITS /\
    Z.of_nat (length (fst (generate_loop prng_state prng fuel generated hfs permutation buf ctx))) = len /\
    take (Z.to_nat hfs) (fst (generate_loop prng_state prng fuel generated hfs permutation buf ctx))
    = take (Z.to_nat hfs) (concat ps').
Proof.
  revert generated permutation buf ps ctx.
  induction fuel as [|fuel IH]; intros generated permutation buf ps ctx Hh Hg Hf Hinv;
    destruct Hinv as (Hgen & Hgb & Hps & Hperm & Hlen & Htake).
  - simpl in Hf |- *. exists ps. unfold SHA1_BITS, SHA1_BYTES in *.
    replace (Z.min generated hfs) with hfs in Htake by lia.
    repeat split; try assumption; try lia.
    apply Z.div_unique with (r := hfs + 159 - 160 * Z.of_nat (length ps)); lia.
  - cbn [generate_loop].
    destruct (Z.ltb_spec generated hfs) as [Hlt|Hge].
    + destruct (fisher_yates prng_state prng (Z.to_nat (SHA1_BITS - 1)) permutation ctx)
        as [perm' ctx'] eqn:Efy.
      assert (Hp' : perm' ≡ₚ identity_permutation).
      { pose proof (fisher_yates_permutation (Z.to_nat (SHA1_BITS - 1)) permutation ctx) as Hfy.
        rewrite Efy in Hfy. simpl in Hfy. etrans; [apply Hfy|exact Hperm];
        rewrite (Permutation_length Hperm), identity_permutation_length;
        unfold SHA1_BITS, SHA1_BYTES; simpl; lia. }
      assert (Hl' : length perm' = 160%nat).
      { rewrite (Permutation_length Hp'), identity_permutation_length. reflexivity. }
      pose proof (length_concat_perms ps Hps) as Hcl.
      set (copy := Z.min (hfs - generated) SHA1_BITS).
      assert (Hc : length (take (Z.to_nat copy) perm') = Z.to_nat copy).
      { rewrite length_take. unfold copy, SHA1_BITS, SHA1_BYTES in *. lia. }
      apply IH with (ps := ps ++ [perm']); try lia.
      unfold generate_inv.
      assert (Hmin : Z.min (generated + SHA1_BITS) hfs = generated + copy)
        by (unfold copy, SHA1_BITS, SHA1_BYTES in *; lia).
      assert (Hmin0 : Z.min generated hfs = generated) by lia.
      rewrite Hmin0 in Htake.
      assert (Hcp : 0 <= copy <= SHA1_BITS /\ generated + copy <= hfs)
        by (unfold copy, SHA1_BITS, SHA1_BYTES in *; lia).
      rewrite Hmin, length_app. simpl length. unfold memcpy.
      rewrite Hc.
      repeat split.
      * unfold SHA1_BITS, SHA1_BYTES in *. lia.
      * unfold SHA1_BITS, SHA1_BYTES in *. lia.
      * apply Forall_app. split; [exact Hps|]. constructor; [exact Hp'|constructor].
      * exact Hp'.
      * rewrite !length_app, length_take, length_drop, Hc. lia.
      * rewrite concat_app. simpl concat. rewrite app_nil_r.
        assert (Hg1 : length (take (Z.to_nat generated) buf) = Z.to_nat generated)
          by (rewrite length_take; lia).
        assert (Hg2 : concat ps = take (Z.to_nat generated) (concat ps))
          by (rewrite take_ge; [reflexivity|lia]).
        replace (Z.to_nat (generated + copy)) with
          (length (take (Z.to_nat generated) buf) + Z.to_nat copy)%nat by lia.
        rewrite take_app_add.
        replace (length (take (Z.to_nat generated) buf) + Z.to_nat copy)%nat with
          (length (concat ps) + Z.to_nat copy)%nat by lia.
        rewrite take_app_add. f_equal.
        { rewrite Htake, <- Hg2. reflexivity. }
        rewrite <- Hc at 1. rewrite take_app_length. reflexivity.
    + simpl. exists ps. unfold SHA1_BITS, SHA1_BYTES in *.
      replace (Z.min generated hfs) with hfs in Htake by lia.
      repeat split; try assumption; try lia.
      apply Z.div_unique with (r := hfs + 159 - 160 * Z.of_nat (length ps)); lia.
Qed.

Lemma NoDup_take_Z (l : list Z) (m : nat) : NoDup l -> NoDup (take m l).
Proof.
  intros H. rewrite <- (take_drop m l) in H. apply NoDup_app in H. tauto.
Qed.

(** A successful [hibp_bf_new_prng] fills [H] with the prefix of a sequence
    of permutations of [0 .. 159]. *)
Lemma new_prng_blocks (sz : Z) (calloc_ok : bool) (ctx ctx' : prng_state)
    (n b : Z) (bf : bloom_filter) :
  1 <= sz ->
  hibp_bf_new_prng prng_state prng sz calloc_ok ctx n b = Done (inr (bf, ctx')) ->
  n_hash_functions bf = n /\ log2_bits bf = b /\
  exists ps : list (list Z),
    Forall (fun p => p ≡ₚ identity_permutation) ps /\
    Z.of_nat (length ps) = (n * b + SHA1_BITS - 1) / SHA1_BITS /\
    hash_table bf = take (Z.to_nat (n * b)) (concat ps).
Proof.
  intros Hsz Hnew. unfold hibp_bf_new_prng in Hnew.
  destruct (compute_buffer_size sz n b) as [[st|size]|] eqn:Ec; try discriminate.
  destruct calloc_ok; cbn [negb] in Hnew; [|discriminate].
  destruct (generate_loop prng_state prng (generate_fuel (b * n)) 0 (b * n)
              identity_permutation (replicate (Z.to_nat size) 0) ctx) as [buf' c] eqn:Eg.
  injection Hnew as <- <-.
  destruct (compute_buffer_size_ok sz n b size Hsz Ec) as (Hn & Hb & Hb160 & Hsize & _).
  pose proof (vector_bytes_pos b) as Hvb.
  destruct (generate_loop_spec (generate_fuel (b * n)) (b * n) size 0
              identity_permutation (replicate (Z.to_nat size) 0) [] ctx)
    as (ps & Hps & Hlen & _ & Htake).
  { nia. }
  { lia. }
  { unfold generate_fuel. change SHA1_BITS with 160.
    assert (Hq : 0 <= b * n / 160) by (apply Z.div_pos; nia).
    rewrite Nat2Z.inj_succ, Z2Nat.id by exact Hq.
    pose proof (Z.mod_pos_bound (b * n) 160 ltac:(lia)).
    pose proof (Z.div_mod (b * n) 160 ltac:(lia)). lia. }
  { unfold generate_inv. rewrite length_replicate.
    split; [simpl; lia|]. split; [unfold SHA1_BITS, SHA1_BYTES; nia|].
    split; [constructor|]. split; [reflexivity|]. split; [lia|].
    replace (Z.to_nat (Z.min 0 (b * n))) with 0%nat by nia. reflexivity. }
  rewrite Eg in Htake. simpl in Htake. rewrite (Z.mul_comm b n) in Hlen.
  assert (Hht : hash_table {| n_hash_functions := n; log2_bits := b; buffer := buf' |}
                = take (Z.to_nat (n * b)) (concat ps)).
  { unfold hash_table, bvector_offset. simpl. rewrite Z.mul_comm. exact Htake. }
  split; [reflexivity|]. split; [reflexivity|].
  exists ps. split; [exact Hps|split; [exact Hlen|exact Hht]].
Qed.

(** C9. For every valid [(k, b)] and every PRNG meeting its contract, a
    successful [hibp_bf_new_prng] fills the [k * b] bytes of [H] with
    consecutive blocks of 160 bytes, the last one possibly truncated, each
    block a permutation of [0 .. 159] (the result of a Fisher-Yates shuffle).
    Hence the first 160 bytes of [H] are pairwise distinct, all of [H] is when
    [k * b <= 160], and every bit position [0 .. 159] occurs among the first
    160 bytes when [k * b >= 160]. *)
Theorem hash_family_blocks (sz : Z) (calloc_ok : bool) (ctx ctx' : prng_state)
    (n b : Z) (bf : bloom_filter) :
  1 <= sz ->
  hibp_bf_new_prng prng_state prng sz calloc_ok ctx n b = Done (inr (bf, ctx')) ->
  (exists ps : list (list Z),
     Forall (fun p => p ≡ₚ identity_permutation) ps /\
     Z.of_nat (length ps) = (n * b + SHA1_BITS - 1) / SHA1_BITS /\
     hash_table bf = take (Z.to_nat (n * b)) (concat ps)) /\
  NoDup (take (Z.to_nat SHA1_BITS) (hash_table bf)) /\
  (n * b <= SHA1_BITS -> NoDup (hash_table bf)) /\
  (SHA1_BITS <= n * b ->
   forall q, 0 <= q < SHA1_BITS -> q ∈ take (Z.to_nat SHA1_BITS) (hash_table bf)).
Proof.
  intros Hsz Hnew.
  destruct (new_prng_blocks sz calloc_ok ctx ctx' n b bf Hsz Hnew)
    as (_ & _ & ps & Hps & Hlen & Hht).
  rewrite Hht.
  assert (Hfirst : forall p ps', ps = p :: ps' ->
            take (Z.to_nat SHA1_BITS) (take (Z.to_nat (n * b)) (concat ps))
            = take (Z.to_nat (Z.min SHA1_BITS (n * b))) p).
  { intros p ps' ->. inversion Hps as [|? ? Hp _]; subst.
    assert (Hlp : length p = Z.to_nat SHA1_BITS)
      by (rewrite (Permutation_length Hp), identity_permutation_length; reflexivity).
    rewrite take_take. simpl concat.
    rewrite take_app_le by (rewrite Hlp; lia).
    f_equal. lia. }
  split; [exists ps; split; [exact Hps|split; [exact Hlen|reflexivity]]|].
  destruct ps as [|p ps'].
  - simpl in Hlen. unfold SHA1_BITS, SHA1_BYTES in *.
    assert (Hnb : n * b <= 0).
    { destruct (Z.le_gt_cases (n * b) 0) as [|Hgt]; [assumption|].
      assert (1 <= (n * b + 8 * 20 - 1) / (8 * 20)) by (apply Z.div_le_lower_bound; lia).
      lia. }
    replace (Z.to_nat (n * b)) with 0%nat by lia. simpl.
    repeat split; try constructor. intros. lia.
  - rewrite (Hfirst p ps' eq_refl).
    inversion Hps as [|? ? Hp _]; subst.
    assert (HpN : NoDup p)
      by (rewrite Hp; apply identity_permutation_NoDup).
    assert (Hlp : length p = Z.to_nat SHA1_BITS)
      by (rewrite (Permutation_length Hp), identity_permutation_length; reflexivity).
    repeat split.
    + apply NoDup_take_Z. exact HpN.
    + intros Hle. simpl concat. rewrite take_app_le by (rewrite Hlp; lia).
      apply NoDup_take_Z. exact HpN.
    + intros Hge q Hq. rewrite take_ge by (rewrite Hlp; lia).
      rewrite Hp. apply identity_permutation_elem. exact Hq.
Qed.

End PrngContract.

Lemma lcg_range (s u : Z) : 1 <= u <= SHA1_BITS -> 0 <= fst (lcg s u) < u.
Proof. intros Hu. unfold lcg. simpl. apply Z.mod_pos_bound. lia. Qed.

Lemma hash_family_blocks_witness :
  1 <= 8 /\
  hibp_bf_new_prng Z lcg 8 true 7 3 5 = Done (inr (example_filter, 1643607334)) /\
  NoDup (take (Z.to_nat SHA1_BITS) (hash_table example_filter)) /\
  (3 * 5 <= SHA1_BITS -> NoDup (hash_table example_filter)).
Proof.
  assert (H1 : 1 <= 8) by lia.
  assert (H2 : hibp_bf_new_prng Z lcg 8 true 7 3 5 = Done (inr (example_filter, 1643607334)))
    by (vm_compute; reflexivity).
  destruct (hash_family_blocks Z lcg lcg_range 8 true 7 1643607334 3 5 example_filter H1 H2)
    as (_ & HA & HB & _).
  split; [exact H1|]. split; [exact H2|]. split; assumption.
Defined.

(** ** Persistence: the framing *)

Lemma my_read_app (n : nat) (l r : list Z) :
  length l = n -> my_read n (l ++ r) = Done (inr (Some l, r)).
Proof.
  intros <-. induction l as [|c l IH]; [reflexivity|].
  cbn [length my_read]. unfold bind at 1. cbn [getc app].
  unfold bind. rewrite IH. reflexivity.
Qed.

Lemma my_write_app {W : Type} (putc : W -> Z -> option W) (a b : list Z)
    (k : bool -> M W unit) (w : W) :
  bind (my_write W putc (a ++ b)) k w =
  bind (my_write W putc a) (fun ok => if ok then bind (my_write W putc b) k else k false) w.
Proof.
  revert w. induction a as [|c a IH]; intros w; [reflexivity|].
  unfold bind in *. cbn [my_write app].
  destruct (putc w c) as [w'|]; [exact (IH w')|reflexivity].
Qed.

Lemma bind_ext {S A B : Type} (m : M S A) (k1 k2 : A -> M S B) (s : S) :
  (forall a s', k1 a s' = k2 a s') -> bind m k1 s = bind m k2 s.
Proof.
  intros Hk. unfold bind. destruct (m s) as [[st|[a s']]|]; [reflexivity|apply Hk|reflexivity].
Qed.

Lemma my_write_put_all {W : Type} (putc : W -> Z -> option W) (l : list Z) (w : W) :
  bind (my_write W putc l) (fun ok => if negb ok then fail HIBP_E_IO else ret tt) w =
  match put_all putc l w with
  | Some w' => Done (inr (tt, w'))
  | None => Done (inl HIBP_E_IO)
  end.
Proof.
  revert w. induction l as [|c l IH]; intros w; [reflexivity|].
  unfold bind in *. cbn [my_write put_all].
  destruct (putc w c) as [w'|]; [exact (IH w')|reflexivity].
Qed.

Lemma put_all_list (l w : list Z) : put_all list_putc l w = Some (w ++ l).
Proof.
  revert w. induction l as [|c l IH]; intros w; simpl.
  - rewrite app_nil_r. reflexivity.
  - unfold list_putc. rewrite IH, <- app_assoc. reflexivity.
Qed.

Lemma le8_spec_length (k : Z) : length (le8_spec k) = 8%nat.
Proof. unfold le8_spec. rewrite length_map, length_seq. reflexivity. Qed.

Lemma le8_spec_lookup (k : Z) (i : nat) :
  (i < 8)%nat -> le8_spec k !!! i = (k / 2 ^ (8 * Z.of_nat i)) mod 256.
Proof.
  intros Hi. do 8 (destruct i as [|i]; [reflexivity|]). lia.
Qed.

Lemma size_t_to_le_8_bytes_spec (k : Z) :
  0 <= k < 2 ^ 64 -> size_t_to_le_8_bytes k = Done (le8_spec k).
Proof.
  intros Hk. unfold size_t_to_le_8_bytes.
  rewrite Z.shiftr_div_pow2, Z.div_small, Z.eqb_refl by lia.
  f_equal. apply map_ext. intros i.
  rewrite Z.shiftr_div_pow2 by lia. change 255 with (Z.ones 8).
  rewrite Z.land_ones by lia. reflexivity.
Qed.

Lemma le8_byte_bits (k m w : Z) :
  0 <= k -> 0 <= m -> 8 * m + 8 <= w ->
  Z.lor (k mod 2 ^ (8 * m)) ((Z.shiftl ((k / 2 ^ (8 * m)) mod 256) (8 * m)) mod 2 ^ w)
  = k mod 2 ^ (8 * (m + 1)).
Proof.
  intros Hk Hm Hw. apply Z.bits_inj'. intros j Hj. rewrite Z.lor_spec.
  change 256 with (2 ^ 8).
  destruct (Z.lt_ge_cases j (8 * m)) as [H1|H1].
  - rewrite (Z.mod_pow2_bits_low k (8 * m)), (Z.mod_pow2_bits_low k (8 * (m + 1))),
      Z.mod_pow2_bits_low, Z.shiftl_spec_low by lia.
    apply orb_false_r.
  - rewrite (Z.mod_pow2_bits_high k (8 * m)) by lia. simpl.
    destruct (Z.lt_ge_cases j (8 * m + 8)) as [H2|H2].
    + rewrite (Z.mod_pow2_bits_low k (8 * (m + 1))), Z.mod_pow2_bits_low,
        Z.shiftl_spec, Z.mod_pow2_bits_low, Z.div_pow2_bits by lia.
      f_equal. lia.
    + rewrite (Z.mod_pow2_bits_high k (8 * (m + 1))) by lia.
      destruct (Z.lt_ge_cases j w) as [H3|H3].
      * rewrite Z.mod_pow2_bits_low, Z.shiftl_spec, Z.mod_pow2_bits_high by lia.
        reflexivity.
      * rewrite Z.mod_pow2_bits_high by lia. reflexivity.
Qed.

Lemma le8_decode (sz k : Z) :
  1 <= sz <= 8 -> 0 <= k <= SIZE_MAX sz ->
  le_8_bytes_to_size_t sz (le8_spec k) = Some k.
Proof.
  intros Hsz Hk. unfold le_8_bytes_to_size_t.
  assert (HM : SIZE_MAX sz = 2 ^ (8 * sz) - 1) by reflexivity.
  replace (existsb _ _) with false.
  2: {
    symmetry. apply not_true_iff_false. intros Hex. apply existsb_exists in Hex.
    destruct Hex as [i [Hin Hi]]. apply in_seq in Hin.
    rewrite le8_spec_lookup in Hi by lia.
    rewrite Z.div_small in Hi; [discriminate|].
    assert (2 ^ (8 * sz) <= 2 ^ (8 * Z.of_nat i)) by (apply Z.pow_le_mono_r; lia).
    lia. }
  f_equal.
  assert (Hfold : forall m : nat, (m <= Z.to_nat sz)%nat ->
    fold_left (fun size i => Z.lor size
                 (size_t_wrap sz (Z.shiftl (le8_spec k !!! i) (8 * Z.of_nat i))))
      (seq 0 m) 0 = k mod 2 ^ (8 * Z.of_nat m)).
  { induction m as [|m IH]; intros Hm.
    - simpl. rewrite Z.mod_1_r. reflexivity.
    - rewrite seq_S, fold_left_app, IH by lia. simpl.
      rewrite le8_spec_lookup by lia. unfold size_t_wrap, size_t_bits.
      rewrite le8_byte_bits by lia. f_equal. f_equal. lia. }
  rewrite Hfold by lia. rewrite Z2Nat.id by lia.
  apply Z.mod_small. lia.
Qed.

Section Framing.

Variable sizeof_size_t : Z.
Variable sha1 : list Z -> list Z.
Hypothesis Hsz : 1 <= sizeof_size_t <= 8.

Lemma hash_table_bit_vector (bf : bloom_filter) :
  hash_table bf ++ bit_vector bf = buffer bf.
Proof. apply take_drop. Qed.

Lemma save_stream_put_all (W : Type) (putc : W -> Z -> option W) (bf : bloom_filter) (w : W) :
  filter_ok sizeof_size_t bf ->
  hibp_bf_save_stream sizeof_size_t sha1 W putc bf w =
  match put_all putc (serialized_layout sha1 bf) w with
  | Some w' => Done (inr (tt, w'))
  | None => Done (inl HIBP_E_IO)
  end.
Proof.
  intros Hok. unfold filter_ok in Hok.
  destruct (compute_buffer_size_ok sizeof_size_t _ _ _ ltac:(lia) Hok)
    as (Hn & Hb & Hb160 & _ & _).
  assert (HN : N_HASH_FUNCTIONS_MAX sizeof_size_t <= 2 ^ 64 - 1)
    by (unfold N_HASH_FUNCTIONS_MAX; lia).
  rewrite <- my_write_put_all. unfold hibp_bf_save_stream, serialized_layout.
  rewrite hash_table_bit_vector.
  rewrite my_write_app. apply bind_ext. intros [|] w1; [|reflexivity]. cbn [negb].
  rewrite size_t_to_le_8_bytes_spec by lia.
  rewrite my_write_app. apply bind_ext. intros [|] w2; [|reflexivity]. cbn [negb].
  replace ((0 <=? log2_bits bf) && (log2_bits bf <=? 255)) with true
    by (unfold SHA1_BITS, SHA1_BYTES in *; symmetry; apply andb_true_iff; split; apply Z.leb_le; lia).
  cbn [negb].
  rewrite my_write_app. apply bind_ext. intros [|] w3; [|reflexivity]. cbn [negb].
  rewrite Hok, Nat2Z.id, Nat.ltb_irrefl, take_ge by lia.
  rewrite my_write_app. apply bind_ext. intros [|] w4; [|reflexivity]. cbn [negb].
  reflexivity.
Qed.

Hypothesis sha1_length : forall l, length (sha1 l) = Z.to_nat SHA1_BYTES.

Lemma load_serialized (malloc_ok : bool) (bf : bloom_filter) (r : list Z) :
  filter_ok sizeof_size_t bf ->
  hibp_bf_load_stream sizeof_size_t sha1 malloc_ok (serialized_layout sha1 bf ++ r) =
  if malloc_ok then Done (inr (bf, r)) else Done (inl HIBP_E_NOMEM).
Proof.
  intros Hok. unfold filter_ok in Hok.
  destruct (compute_buffer_size_ok sizeof_size_t _ _ _ ltac:(lia) Hok)
    as (Hn & Hb & Hb160 & _ & _).
  unfold hibp_bf_load_stream, serialized_layout.
  rewrite hash_table_bit_vector, <- !app_assoc.
  unfold bind at 1. rewrite (my_read_app 4 VERSION) by reflexivity.
  rewrite bool_decide_eq_true_2 by reflexivity. cbn [negb].
  unfold bind at 1. rewrite (my_read_app 8 (le8_spec _)) by apply le8_spec_length.
  rewrite le8_decode by (unfold N_HASH_FUNCTIONS_MAX in Hn; lia).
  unfold bind at 1. cbn [getc app].
  rewrite Hok.
  unfold bind at 1. rewrite (my_read_app (Z.to_nat SHA1_BYTES) (sha1 _)) by apply sha1_length.
  destruct malloc_ok; cbn [negb]; [|reflexivity].
  unfold bind at 1. rewrite Nat2Z.id, (my_read_app (length (buffer bf)) (buffer bf)) by reflexivity.
  rewrite bool_decide_eq_true_2 by reflexivity. cbn [negb].
  destruct bf. reflexivity.
Qed.

End Framing.

Lemma sha1_digest_length (l : list Z) : length (Sha1.digest l) = Z.to_nat SHA1_BYTES.
Proof.
  unfold Sha1.digest. cbv zeta.
  destruct (fold_left _ _ _) as [[[[h0 h1] h2] h3] h4].
  unfold Sha1.be_bytes. rewrite !length_app, !length_map, !length_seq. reflexivity.
Qed.

Lemma example_filter_ok : filter_ok 8 example_filter.
Proof. vm_compute. reflexivity. Qed.

(** C2. Saving a filter built by the library to a byte stream and loading the
    bytes back (on the same host, when [malloc] succeeds) returns [HIBP_OK]
    and a filter with the same [k] and [b] and byte-identical [H] and [V];
    hence every query answers the same on both. *)
Theorem save_load_roundtrip (sz : Z) (sha1 : list Z -> list Z) (bf : bloom_filter) :
  (forall l, length (sha1 l) = Z.to_nat SHA1_BYTES) ->
  1 <= sz <= 8 ->
  filter_ok sz bf ->
  exists (out : list Z) (bf' : bloom_filter),
    hibp_bf_save_stream sz sha1 (list Z) list_putc bf [] = Done (inr (tt, out)) /\
    hibp_bf_load_stream sz sha1 true out = Done (inr (bf', [])) /\
    n_hash_functions bf' = n_hash_functions bf /\ log2_bits bf' = log2_bits bf /\
    hash_table bf' = hash_table bf /\ bit_vector bf' = bit_vector bf /\
    (forall s, hibp_bf_query sha1 bf' s = hibp_bf_query sha1 bf s).
Proof.
  intros Hsha Hsz Hok.
  exists (serialized_layout sha1 bf), bf.
  split.
  - rewrite (save_stream_put_all sz sha1 Hsz (list Z) list_putc bf [] Hok), put_all_list.
    reflexivity.
  - split; [|repeat split].
    rewrite <- (app_nil_r (serialized_layout sha1 bf)).
    rewrite (load_serialized sz sha1 Hsz Hsha true bf [] Hok). reflexivity.
Qed.

Lemma save_load_roundtrip_witness :
  exists (out : list Z) (bf' : bloom_filter),
    hibp_bf_save_stream 8 Sha1.digest (list Z) list_putc example_filter [] = Done (inr (tt, out)) /\
    hibp_bf_load_stream 8 Sha1.digest true out = Done (inr (bf', [])) /\
    n_hash_functions bf' = n_hash_functions example_filter /\
    log2_bits bf' = log2_bits example_filter /\
    hash_table bf' = hash_table example_filter /\
    bit_vector bf' = bit_vector example_filter /\
    (forall s, hibp_bf_query Sha1.digest bf' s = hibp_bf_query Sha1.digest example_filter s).
Proof.
  apply (save_load_roundtrip 8 Sha1.digest example_filter).
  - exact sha1_digest_length.
  - lia.
  - exact example_filter_ok.
Defined.

(** C3. For a filter built by the library with parameters [(k, b)], saving it
    writes, in order, the magic bytes [B1 00 13 37], [k] as 8 little-endian
    bytes, [b] as one byte, the SHA-1 of [H ++ V], then the [k * b] bytes of
    [H] and the [ceil(2^b / 8)] bytes of [V], one [putc] per byte; it returns
    [HIBP_E_IO] as soon as one [putc] fails and [HIBP_OK] otherwise. *)
Theorem save_layout (sz : Z) (sha1 : list Z -> list Z) (bf : bloom_filter) :
  1 <= sz <= 8 ->
  filter_ok sz bf ->
  (forall (W : Type) (putc : W -> Z -> option W) (w : W),
     hibp_bf_save_stream sz sha1 W putc bf w =
     match put_all putc (serialized_layout sha1 bf) w with
     | Some w' => Done (inr (tt, w'))
     | None => Done (inl HIBP_E_IO)
     end) /\
  hibp_bf_save_stream sz sha1 (list Z) list_putc bf [] =
    Done (inr (tt, serialized_layout sha1 bf)) /\
  Z.of_nat (length (hash_table bf)) = n_hash_functions bf * log2_bits bf /\
  Z.of_nat (length (bit_vector bf)) = vector_bytes (log2_bits bf).
Proof.
  intros Hsz Hok.
  destruct (filter_ok_layout sz bf ltac:(lia) Hok) as (_ & _ & _ & Hl).
  pose proof (hash_table_length bf Hl) as Hh.
  destruct Hl as (Hn & Hb & Hlen).
  split; [|split; [|split]].
  - intros W putc w. exact (save_stream_put_all sz sha1 Hsz W putc bf w Hok).
  - rewrite (save_stream_put_all sz sha1 Hsz (list Z) list_putc bf [] Hok), put_all_list.
    reflexivity.
  - exact Hh.
  - unfold bit_vector, bvector_offset in *. rewrite length_drop.
    pose proof (vector_bytes_pos (log2_bits bf) Hb). nia.
Qed.

Lemma save_layout_witness :
  (forall (W : Type) (putc : W -> Z -> option W) (w : W),
     hibp_bf_save_stream 8 Sha1.digest W putc example_filter w =
     match put_all putc (serialized_layout Sha1.digest example_filter) w with
     | Some w' => Done (inr (tt, w'))
     | None => Done (inl HIBP_E_IO)
     end) /\
  hibp_bf_save_stream 8 Sha1.digest (list Z) list_putc example_filter [] =
    Done (inr (tt, serialized_layout Sha1.digest example_filter)) /\
  Z.of_nat (length (hash_table example_filter)) =
    n_hash_functions example_filter * log2_bits example_filter /\
  Z.of_nat (length (bit_vector example_filter)) = vector_bytes (log2_bits example_filter).
Proof.
  apply (save_layout 8 Sha1.digest example_filter).
  - lia.
  - exact example_filter_ok.
Defined.

(** ** Invariant (I3) *)

Lemma blocks_indices_ok (ps : list (list Z)) (m : nat) :
  Forall (fun p => p ≡ₚ identity_permutation) ps ->
  Forall (fun q => 0 <= q < SHA1_BITS) (take m (concat ps)).
Proof.
  intros Hps. apply Forall_take. apply List.Forall_forall. intros q Hq.
  apply in_concat in Hq as (p & Hp & Hqp).
  rewrite List.Forall_forall in Hps. specialize (Hps p Hp).
  apply (Permutation_in _ Hps) in Hqp.
  unfold identity_permutation in Hqp. apply in_map_iff in Hqp as (i & <- & Hi).
  apply in_seq in Hi. unfold SHA1_BITS, SHA1_BYTES in *. lia.
Qed.

Lemma new_prng_indices_ok (prng_state : Type) (prng : prng_state -> Z -> Z * prng_state)
    (sz : Z) (calloc_ok : bool) (ctx ctx' : prng_state) (n b : Z) (bf : bloom_filter) :
  (forall c u, 1 <= u <= SHA1_BITS -> 0 <= fst (prng c u) < u) ->
  1 <= sz ->
  hibp_bf_new_prng prng_state prng sz calloc_ok ctx n b = Done (inr (bf, ctx')) ->
  hash_indices_ok bf.
Proof.
  intros Hprng Hsz Hnew.
  destruct (new_prng_blocks prng_state prng Hprng sz calloc_ok ctx ctx' n b bf Hsz Hnew)
    as (_ & _ & ps & Hps & _ & Hht).
  unfold hash_indices_ok. rewrite Hht. apply blocks_indices_ok. exact Hps.
Qed.

(** [default_prng] meets the PRNG contract for the bounds the construction
    uses, whatever [my_rand] returns. *)
Lemma default_prng_range (sz : Z) (rand_state : Type)
    (draw_below : rand_state -> Z -> Z * rand_state) (c : rand_state) (u : Z) :
  1 <= sz -> 1 <= u <= SHA1_BITS ->
  0 <= fst (default_prng sz rand_state draw_below c u) < u.
Proof.
  intros Hsz Hu. unfold default_prng.
  assert (HM : SHA1_BITS < SIZE_MAX sz).
  { unfold SIZE_MAX, size_t_bits, SHA1_BITS, SHA1_BYTES.
    assert (2 ^ 8 <= 2 ^ (8 * sz)) by (apply Z.pow_le_mono_r; lia). lia. }
  replace (u =? SIZE_MAX sz) with false by (symmetry; apply Z.eqb_neq; lia).
  destruct (draw_below c _) as [number c']. simpl. apply Z.mod_pos_bound. lia.
Qed.

(** ** Parameter validation and size arithmetic *)

Lemma compute_buffer_size_zero_log2 (sz n : Z) :
  1 <= sz -> 1 <= n <= N_HASH_FUNCTIONS_MAX sz ->
  compute_buffer_size sz n 0 = Done (inr 1).
Proof.
  intros Hsz Hn. unfold compute_buffer_size, size_t_shl, size_t_wrap, LOG2_BITS_MAX.
  assert (HW : 8 <= size_t_bits sz) by (unfold size_t_bits; lia).
  assert (HP : 2 ^ 8 <= 2 ^ size_t_bits sz) by (apply Z.pow_le_mono_r; lia).
  assert (HM : SIZE_MAX sz = 2 ^ size_t_bits sz - 1) by reflexivity.
  assert (HN : N_HASH_FUNCTIONS_MAX sz <= SIZE_MAX sz) by (unfold N_HASH_FUNCTIONS_MAX; lia).
  assert (HD : 0 <= SIZE_MAX sz / n) by (apply Z.div_pos; lia).
  replace (n =? 0) with false by (symmetry; apply Z.eqb_neq; lia).
  replace ((0 >? Z.min (size_t_bits sz) SHA1_BITS) || (n >? N_HASH_FUNCTIONS_MAX sz))
    with false by (symmetry; apply orb_false_iff; split; rewrite Z.gtb_ltb; apply Z.ltb_ge;
                   unfold SHA1_BITS, SHA1_BYTES; lia).
  replace (0 >? SIZE_MAX sz / n) with false by (symmetry; rewrite Z.gtb_ltb; apply Z.ltb_ge; lia).
  replace ((0 <=? 0) && (0 <? size_t_bits sz)) with true
    by (symmetry; apply andb_true_iff; split; [apply Z.leb_le | apply Z.ltb_lt]; lia).
  rewrite Z.shiftl_0_r, Z.mul_0_l, (Z.mod_small 1) by lia.
  change (1 / 8 + (if 1 mod 8 =? 0 then 0 else 1)) with 1.
  rewrite Z.mod_0_l, (Z.mod_small 1) by lia.
  replace (0 >? SIZE_MAX sz - 1) with false by (symmetry; rewrite Z.gtb_ltb; apply Z.ltb_ge; lia).
  rewrite Z.add_0_l, Z.mod_small by lia. reflexivity.
Qed.

(** C4. Construction rejects [k = 0] with [HIBP_E_INVAL] and [b] or [k] above
    its bound with [HIBP_E_2BIG], but accepts [b = 0]: for every valid [k],
    [compute_buffer_size] gives a 1-byte buffer and [hibp_bf_new_prng] (hence
    [hibp_bf_new]) returns [HIBP_OK] with a filter with [log2_bits = 0]. *)
Theorem new_params_validation (prng_state : Type) (prng : prng_state -> Z -> Z * prng_state)
    (sz : Z) (calloc_ok : bool) (ctx : prng_state) :
  1 <= sz ->
  (forall b, hibp_bf_new_prng prng_state prng sz calloc_ok ctx 0 b = Done (inl HIBP_E_INVAL)) /\
  (forall n b, 1 <= n -> LOG2_BITS_MAX sz < b \/ N_HASH_FUNCTIONS_MAX sz < n ->
     hibp_bf_new_prng prng_state prng sz calloc_ok ctx n b = Done (inl HIBP_E_2BIG)) /\
  (forall n, 1 <= n <= N_HASH_FUNCTIONS_MAX sz ->
     compute_buffer_size sz n 0 = Done (inr 1) /\
     (calloc_ok = true ->
      exists bf ctx', hibp_bf_new_prng prng_state prng sz calloc_ok ctx n 0 = Done (inr (bf, ctx'))
                      /\ log2_bits bf = 0)).
Proof.
  intros Hsz. split; [|split].
  - intros b. reflexivity.
  - intros n b Hn Hbig. unfold hibp_bf_new_prng, compute_buffer_size.
    replace (n =? 0) with false by (symmetry; apply Z.eqb_neq; lia).
    replace ((b >? LOG2_BITS_MAX sz) || (n >? N_HASH_FUNCTIONS_MAX sz)) with true
      by (symmetry; apply orb_true_iff;
          destruct Hbig; [left|right]; rewrite Z.gtb_ltb; apply Z.ltb_lt; lia).
    reflexivity.
  - intros n Hn. pose proof (compute_buffer_size_zero_log2 sz n Hsz Hn) as Hc.
    split; [exact Hc|]. intros ->.
    unfold hibp_bf_new_prng. rewrite Hc. cbn [negb].
    destruct (generate_loop _ _ _ _ _ _ _ _) as [buf' c].
    exists {| n_hash_functions := n; log2_bits := 0; buffer := buf' |}, c.
    split; reflexivity.
Qed.

Lemma new_params_validation_witness :
  hibp_bf_new_prng Z lcg 8 true 7 0 5 = Done (inl HIBP_E_INVAL) /\
  hibp_bf_new_prng Z lcg 8 true 7 1 65 = Done (inl HIBP_E_2BIG) /\
  compute_buffer_size 8 1 0 = Done (inr 1).
Proof.
  assert (H8 : 1 <= 8) by lia.
  destruct (new_params_validation Z lcg 8 true 7 H8) as (HA & HB & HC).
  split; [exact (HA 5)|]. split.
  - apply HB; [lia|]. left. vm_compute. reflexivity.
  - apply (HC 1). split; [lia|]. apply (bool_decide_unpack _). vm_compute. exact I.
Defined.

(** C6. On a host whose [size_t] has at most 160 bits, [b] equal to the width
    of [size_t] passes the [LOG2_BITS_MAX] check, and [(size_t)1 << b] is then
    a shift by the full width, undefined in C: construction does not return
    [HIBP_E_2BIG]. Every size [compute_buffer_size] does return is the exact
    [k * b + ceil(2^b / 8)], within [SIZE_MAX]. *)
Theorem shift_by_width_undefined (prng_state : Type) (prng : prng_state -> Z -> Z * prng_state)
    (sz : Z) (calloc_ok : bool) (ctx : prng_state) :
  1 <= sz <= 20 ->
  (forall n, 1 <= n <= N_HASH_FUNCTIONS_MAX sz -> size_t_bits sz * n <= SIZE_MAX sz ->
     compute_buffer_size sz n (size_t_bits sz) = Stuck /\
     hibp_bf_new_prng prng_state prng sz calloc_ok ctx n (size_t_bits sz) = Stuck) /\
  (forall n b size, compute_buffer_size sz n b = Done (inr size) ->
     size = n * b + vector_bytes b /\ size <= SIZE_MAX sz).
Proof.
  intros Hsz. split.
  - intros n Hn Hfit.
    assert (Hc : compute_buffer_size sz n (size_t_bits sz) = Stuck).
    { unfold compute_buffer_size, size_t_shl, LOG2_BITS_MAX.
      assert (HW : size_t_bits sz <= SHA1_BITS)
        by (unfold size_t_bits, SHA1_BITS, SHA1_BYTES; lia).
      replace (n =? 0) with false by (symmetry; apply Z.eqb_neq; lia).
      replace ((size_t_bits sz >? Z.min (size_t_bits sz) SHA1_BITS) ||
               (n >? N_HASH_FUNCTIONS_MAX sz)) with false
        by (symmetry; apply orb_false_iff; split; rewrite Z.gtb_ltb; apply Z.ltb_ge; lia).
      replace (size_t_bits sz >? SIZE_MAX sz / n) with false
        by (symmetry; rewrite Z.gtb_ltb; apply Z.ltb_ge, Z.div_le_lower_bound; lia).
      rewrite Z.ltb_irrefl, andb_false_r. reflexivity. }
    split; [exact Hc|]. unfold hibp_bf_new_prng. rewrite Hc. reflexivity.
  - intros n b size Hc.
    destruct (compute_buffer_size_ok sz n b size ltac:(lia) Hc) as (_ & _ & _ & Hs & Hm).
    split; assumption.
Qed.

Lemma shift_by_width_undefined_witness :
  compute_buffer_size 8 1 64 = Stuck /\
  hibp_bf_new_prng Z lcg 8 true 7 1 64 = Stuck.
Proof.
  assert (H8 : 1 <= 8 <= 20) by lia.
  destruct (shift_by_width_undefined Z lcg 8 true 7 H8) as (HA & _).
  apply (HA 1).
  - split; [lia|]. apply (bool_decide_unpack _). vm_compute. exact I.
  - apply (bool_decide_unpack _). vm_compute. exact I.
Defined.

(** C5. [hibp_compute_constrained_params] passes [(candidate_log2_bits,
    candidate_n_hash_functions)] to [compute_buffer_size] in the order
    [(n_hash_functions, log2_bits)], so it tests the size of a filter with the
    roles of [k] and [b] swapped. For [count = 1] and [max_memory = 10000] on a
    64-bit host it returns [(k, b) = (178, 8)], while the selection rule (the
    same [k] at every [b], sizes [k * b + ceil(2^b / 8)]) gives [(710, 10)]. *)
Theorem constrained_params_swapped :
  hibp_compute_constrained_params 8 optimal_k_real 100 1 10000 = Done (Some (178, 8)) /\
  constrained_params_spec 8 optimal_k_real 100 1 10000 = Some (710, 10) /\
  compute_buffer_size 8 8 178 = Done (inl HIBP_E_2BIG) /\
  compute_buffer_size 8 710 10 = Done (inr 7228).
Proof. vm_compute. repeat split. Qed.

(** C8. [hibp_sha1_hex2bin] reads the digits [hex[i]] and [hex[i+1]] for byte
    [i] (the inner loop runs [k] from [i] to [i + 1]), not [hex[2i]] and
    [hex[2i+1]]: on a valid 40-digit string it returns [HIBP_OK] with other
    bytes than the decoding, and it reads only the first 21 characters, so a
    non-hex character at position 39 is accepted. *)
Theorem hex2bin_reads_overlapping_digits :
  hibp_sha1_hex2bin (replicate 20 0) hex_example =
    inr [1; 18; 35; 52; 69; 86; 103; 120; 137; 154; 171; 188; 205; 222; 239; 240;
         1; 18; 35; 52] /\
  hex_decode_spec hex_example =
    Some [1; 35; 69; 103; 137; 171; 205; 239; 1; 35; 69; 103; 137; 171; 205; 239;
          1; 35; 69; 103] /\
  hibp_sha1_hex2bin (replicate 20 0) hex_example_bad =
    inr [1; 18; 35; 52; 69; 86; 103; 120; 137; 154; 171; 188; 205; 222; 239; 240;
         1; 18; 35; 52] /\
  hex_decode_spec hex_example_bad = None.
Proof. vm_compute. repeat split. Qed.

(** ** Further properties of the code *)


Lemma filter_eq (bf1 bf2 : bloom_filter) :
  n_hash_functions bf1 = n_hash_functions bf2 -> log2_bits bf1 = log2_bits bf2 ->
  buffer bf1 = buffer bf2 -> bf1 = bf2.
Proof. destruct bf1, bf2; simpl; intros -> -> ->; reflexivity. Qed.

Lemma set_byte_comm (x a c : Z) :
  Z.land (Z.lor (Z.land (Z.lor x a) 255) c) 255 = Z.land (Z.lor (Z.land (Z.lor x c) 255) a) 255.
Proof.
  apply Z.bits_inj'. intros j Hj. repeat rewrite ?Z.land_spec, ?Z.lor_spec.
  destruct (Z.testbit x j), (Z.testbit a j), (Z.testbit c j), (Z.testbit 255 j); reflexivity.
Qed.

Lemma set_byte_idem (x a : Z) :
  Z.land (Z.lor (Z.land (Z.lor x a) 255) a) 255 = Z.land (Z.lor x a) 255.
Proof.
  apply Z.bits_inj'. intros j Hj. repeat rewrite ?Z.land_spec, ?Z.lor_spec.
  destruct (Z.testbit x j), (Z.testbit a j), (Z.testbit 255 j); reflexivity.
Qed.

Lemma set_vector_bit_comm (off : Z) (buf : list Z) (k1 k2 : Z) :
  set_vector_bit off (set_vector_bit off buf k1) k2 = set_vector_bit off (set_vector_bit off buf k2) k1.
Proof.
  unfold set_vector_bit.
  set (p1 := Z.to_nat (off + k1 / 8)). set (p2 := Z.to_nat (off + k2 / 8)).
  destruct (decide (p1 = p2)) as [E|E].
  - rewrite <- E. rewrite !list_insert_insert_eq.
    destruct (decide (p1 < length buf)%nat) as [Hl|Hl].
    + rewrite !list_lookup_total_insert_eq by exact Hl. f_equal. apply set_byte_comm.
    + rewrite !list_insert_ge by (rewrite ?length_insert; lia). reflexivity.
  - rewrite (list_lookup_total_insert_ne _ p1 p2) by exact E.
    rewrite (list_lookup_total_insert_ne _ p2 p1) by congruence.
    apply list_insert_insert_ne. congruence.
Qed.

Lemma set_vector_bit_idem (off : Z) (buf : list Z) (k : Z) :
  set_vector_bit off (set_vector_bit off buf k) k = set_vector_bit off buf k.
Proof.
  unfold set_vector_bit. set (p := Z.to_nat (off + k / 8)).
  rewrite list_insert_insert_eq.
  destruct (decide (p < length buf)%nat) as [Hl|Hl].
  + rewrite list_lookup_total_insert_eq by exact Hl. f_equal. apply set_byte_idem.
  + rewrite !list_insert_ge by (rewrite ?length_insert; lia). reflexivity.
Qed.

Lemma fold_left_perm_comm {A B : Type} (f : A -> B -> A) (l1 l2 : list B) (a : A) :
  (forall a x y, f (f a x) y = f (f a y) x) ->
  l1 ≡ₚ l2 -> fold_left f l1 a = fold_left f l2 a.
Proof.
  intros Hc Hp. revert a. induction Hp as [|x l1 l2 _ IH|x y l|l1 l2 l3 _ IH1 _ IH2];
    intros a; simpl; auto.
  - rewrite Hc. reflexivity.
  - rewrite IH1. apply IH2.
Qed.

Lemma fold_left_dup {A B : Type} (f : A -> B -> A) (l : list B) (a : A) :
  (forall a x y, f (f a x) y = f (f a y) x) ->
  (forall a x, f (f a x) x = f a x) ->
  fold_left f (l ++ l) a = fold_left f l a.
Proof.
  intros Hc Hi. revert a. induction l as [|x l IH]; intros a; [reflexivity|].
  simpl. rewrite (fold_left_perm_comm f (l ++ x :: l) (x :: l ++ l)); [|exact Hc|].
  - simpl. rewrite Hi. apply IH.
  - symmetry. apply Permutation_middle.
Qed.

Lemma insert_fold_buffer (sha : list Z) (bf0 : bloom_filter) (is : list nat) (bf : bloom_filter) :
  0 <= n_hash_functions bf0 -> 0 <= log2_bits bf0 ->
  n_hash_functions bf = n_hash_functions bf0 -> log2_bits bf = log2_bits bf0 ->
  hash_table bf = hash_table bf0 ->
  (forall i, In i is -> Z.of_nat i < n_hash_functions bf0) ->
  fold_left (insert_step sha) is bf =
  {| n_hash_functions := n_hash_functions bf; log2_bits := log2_bits bf;
     buffer := fold_left (set_vector_bit (bvector_offset bf))
                 (map (fun i => eval_nth_hash_function bf0 (Z.of_nat i) sha) is) (buffer bf) |}.
Proof.
  intros Hn Hb. revert bf. induction is as [|i is IH]; intros bf En Eb EH Hi; cbn [fold_left map].
  - destruct bf; reflexivity.
  - assert (Hi0 : Z.of_nat i < n_hash_functions bf0) by (apply Hi; left; reflexivity).
    assert (Ev : eval_nth_hash_function bf (Z.of_nat i) sha
                 = eval_nth_hash_function bf0 (Z.of_nat i) sha)
      by (apply eval_hash_table; lia || assumption).
    rewrite IH; rewrite ?insert_step_n, ?insert_step_b, ?insert_step_hash_table; try lia;
      [| auto | intros j Hj; apply Hi; right; exact Hj].
    change (buffer (insert_step sha bf i)) with
      (set_vector_bit (bvector_offset bf) (buffer bf) (eval_nth_hash_function bf (Z.of_nat i) sha)).
    change (bvector_offset (insert_step sha bf i)) with (bvector_offset bf).
    rewrite Ev. reflexivity.
Qed.

Lemma insert_sha1_buffer (bf : bloom_filter) (sha : list Z) :
  0 <= n_hash_functions bf -> 0 <= log2_bits bf ->
  hibp_bf_insert_sha1 bf sha =
  {| n_hash_functions := n_hash_functions bf; log2_bits := log2_bits bf;
     buffer := fold_left (set_vector_bit (bvector_offset bf)) (hash_values bf sha) (buffer bf) |}.
Proof.
  intros Hn Hb. unfold hibp_bf_insert_sha1, hash_values.
  apply insert_fold_buffer; auto.
  intros i Hi. apply in_seq in Hi. lia.
Qed.

Lemma hash_values_insert (bf : bloom_filter) (d1 d2 : list Z) :
  0 <= n_hash_functions bf -> 0 <= log2_bits bf ->
  hash_values (hibp_bf_insert_sha1 bf d1) d2 = hash_values bf d2.
Proof.
  intros Hn Hb. destruct (insert_preserves bf d1 Hn Hb) as (E1 & E2 & _ & E4 & _).
  unfold hash_values. rewrite E1. apply map_ext_in. intros i Hi. apply in_seq in Hi.
  apply eval_hash_table; rewrite ?E1, ?E2; auto; lia.
Qed.

(** Inserting two digests in either order gives the same filter. *)
Theorem insert_sha1_commute (bf : bloom_filter) (d1 d2 : list Z) :
  0 <= n_hash_functions bf -> 0 <= log2_bits bf ->
  hibp_bf_insert_sha1 (hibp_bf_insert_sha1 bf d1) d2 =
  hibp_bf_insert_sha1 (hibp_bf_insert_sha1 bf d2) d1.
Proof.
  intros Hn Hb.
  destruct (insert_preserves bf d1 Hn Hb) as (E1 & E2 & _).
  destruct (insert_preserves bf d2 Hn Hb) as (F1 & F2 & _).
  rewrite (insert_sha1_buffer (hibp_bf_insert_sha1 bf d1)) by lia.
  rewrite (insert_sha1_buffer (hibp_bf_insert_sha1 bf d2)) by lia.
  rewrite !hash_values_insert by lia.
  apply filter_eq; simpl; try congruence.
  unfold bvector_offset. rewrite E1, E2, F1, F2. fold (bvector_offset bf).
  rewrite !(insert_sha1_buffer bf) by lia. simpl.
  rewrite <- !fold_left_app.
  apply fold_left_perm_comm; [apply set_vector_bit_comm|].
  apply Permutation_app_comm.
Qed.

(** Inserting the same digest twice gives the filter of inserting it once. *)
Theorem insert_sha1_idempotent (bf : bloom_filter) (d : list Z) :
  0 <= n_hash_functions bf -> 0 <= log2_bits bf ->
  hibp_bf_insert_sha1 (hibp_bf_insert_sha1 bf d) d = hibp_bf_insert_sha1 bf d.
Proof.
  intros Hn Hb.
  destruct (insert_preserves bf d Hn Hb) as (E1 & E2 & _).
  rewrite (insert_sha1_buffer (hibp_bf_insert_sha1 bf d)) by lia.
  rewrite !hash_values_insert by lia.
  apply filter_eq; simpl; try congruence.
  unfold bvector_offset. rewrite E1, E2. fold (bvector_offset bf).
  rewrite !(insert_sha1_buffer bf) by lia. simpl.
  rewrite <- fold_left_app.
  apply fold_left_dup; [apply set_vector_bit_comm|apply set_vector_bit_idem].
Qed.

Lemma set_vector_bit_length (off : Z) (buf : list Z) (k : Z) :
  length (set_vector_bit off buf k) = length buf.
Proof. apply length_insert. Qed.

Lemma set_vector_bit_bit (off : Z) (buf : list Z) (k v : Z) :
  0 <= off -> 0 <= k -> 0 <= v -> off + k / 8 < Z.of_nat (length buf) ->
  Z.testbit (set_vector_bit off buf k !!! Z.to_nat (off + v / 8)) (v mod 8)
  = Z.testbit (buf !!! Z.to_nat (off + v / 8)) (v mod 8) || (k =? v).
Proof.
  intros Hoff Hk Hv Hlen. unfold set_vector_bit.
  pose proof (Z.div_pos k 8 ltac:(lia) ltac:(lia)).
  pose proof (Z.div_pos v 8 ltac:(lia) ltac:(lia)).
  pose proof (Z.mod_pos_bound k 8 ltac:(lia)). pose proof (Z.mod_pos_bound v 8 ltac:(lia)).
  pose proof (Z.div_mod k 8 ltac:(lia)). pose proof (Z.div_mod v 8 ltac:(lia)).
  destruct (Z.eq_dec (k / 8) (v / 8)) as [E|E].
  - rewrite <- E. rewrite list_lookup_total_insert_eq by lia.
    rewrite testbit_set_byte by lia.
    f_equal. destruct (Z.eq_dec (v mod 8) (k mod 8)) as [E2|E2].
    + rewrite bool_decide_true by exact E2. symmetry. apply Z.eqb_eq. lia.
    + rewrite bool_decide_false by exact E2. symmetry. apply Z.eqb_neq. lia.
  - rewrite list_lookup_total_insert_ne by lia.
    replace (k =? v) with false by (symmetry; apply Z.eqb_neq; intros ->; lia).
    rewrite orb_false_r. reflexivity.
Qed.

Lemma set_vector_bits_fold (off b : Z) (ks : list Z) (buf : list Z) (v : Z) :
  0 <= off -> 0 <= b -> 0 <= v ->
  Z.of_nat (length buf) = off + vector_bytes b ->
  Forall (fun k => 0 <= k < 2 ^ b) ks ->
  Z.testbit (fold_left (set_vector_bit off) ks buf !!! Z.to_nat (off + v / 8)) (v mod 8)
  = Z.testbit (buf !!! Z.to_nat (off + v / 8)) (v mod 8) || existsb (fun k => k =? v) ks.
Proof.
  intros Hoff Hb Hv. revert buf. induction ks as [|k ks IH]; intros buf Hlen Hks; simpl.
  - rewrite orb_false_r. reflexivity.
  - inversion Hks as [|? ? Hk Hks']; subst.
    rewrite IH by (rewrite ?set_vector_bit_length; assumption).
    rewrite set_vector_bit_bit; try lia.
    + rewrite orb_assoc. reflexivity.
    + assert (Hq : k / 8 < vector_bytes b).
      { unfold vector_bytes.
        assert (E : 2 ^ b + 7 = (2 ^ b - 1) + 1 * 8) by lia.
        rewrite E, Z.div_add by lia.
        pose proof (Z.div_le_mono k (2 ^ b - 1) 8 ltac:(lia) ltac:(lia)). lia. }
      lia.
Qed.

(** The bits of the vector after an insertion: bit [v] is set exactly when
    it was set before or [v] is the value of one of the [k] hash functions. *)
Theorem insert_sha1_sets_exactly (bf : bloom_filter) (sha : list Z) (v : Z) :
  layout_ok bf -> 0 <= v < 2 ^ log2_bits bf ->
  bit_set (hibp_bf_insert_sha1 bf sha) v = true <->
  bit_set bf v = true \/
  exists i, 0 <= i < n_hash_functions bf /\ eval_nth_hash_function bf i sha = v.
Proof.
  intros Hl Hv. pose proof Hl as (Hn & Hb & Hlen).
  rewrite (insert_sha1_buffer bf sha Hn Hb), !bit_set_testbit.
  unfold bvector_offset at 1. simpl. fold (bvector_offset bf).
  rewrite (set_vector_bits_fold (bvector_offset bf) (log2_bits bf)); try lia.
  - rewrite orb_true_iff, existsb_exists. apply or_iff_compat_l. split.
    + intros (k & Hk & Ek). apply Z.eqb_eq in Ek. subst k.
      unfold hash_values in Hk. apply in_map_iff in Hk as (i & <- & Hi). apply in_seq in Hi.
      exists (Z.of_nat i). split; [lia|reflexivity].
    + intros (i & Hi & <-). exists (eval_nth_hash_function bf i sha).
      split; [|apply Z.eqb_refl].
      unfold hash_values. apply in_map_iff. exists (Z.to_nat i).
      rewrite Z2Nat.id by lia. split; [reflexivity|]. apply in_seq. lia.
  - unfold bvector_offset. nia.
  - unfold bvector_offset. lia.
  - unfold hash_values. apply Forall_forall. intros k Hk.
    apply list_elem_of_In, in_map_iff in Hk as (i & <- & _). apply eval_bound. exact Hb.
Qed.

Lemma hash_fold_bits (f : nat -> Z) (m : nat) (j : Z) :
  (forall i, 0 <= f i <= 1) -> 0 <= j ->
  Z.testbit (fold_left (fun value i => Z.lor value (Z.shiftl (f i) (Z.of_nat i))) (seq 0 m) 0) j
  = (j <? Z.of_nat m) && Z.testbit (f (Z.to_nat j)) 0.
Proof.
  intros Hf Hj. induction m as [|m IH].
  - replace (j <? Z.of_nat 0) with false by (symmetry; apply Z.ltb_ge; lia).
    cbn [seq fold_left]. apply Z.testbit_0_l.
  - rewrite seq_S, fold_left_app, Nat.add_0_l. cbn [fold_left]. rewrite Z.lor_spec, IH, Z.shiftl_spec by lia.
    destruct (Z.lt_trichotomy j (Z.of_nat m)) as [Hlt|[Heq|Hgt]].
    + rewrite (Z.testbit_neg_r (f m)) by lia.
      replace (j <? Z.of_nat (S m)) with true by (symmetry; apply Z.ltb_lt; lia).
      replace (j <? Z.of_nat m) with true by (symmetry; apply Z.ltb_lt; lia).
      apply orb_false_r.
    + subst j. rewrite Nat2Z.id, Z.sub_diag, Z.ltb_irrefl.
      replace (Z.of_nat m <? Z.of_nat (S m)) with true by (symmetry; apply Z.ltb_lt; lia).
      reflexivity.
    + replace (j <? Z.of_nat m) with false by (symmetry; apply Z.ltb_ge; lia).
      replace (j <? Z.of_nat (S m)) with (j =? Z.of_nat m) by
        (destruct (Z.eqb_spec j (Z.of_nat m)), (Z.ltb_spec j (Z.of_nat (S m))); lia).
      replace (j =? Z.of_nat m) with false by (symmetry; apply Z.eqb_neq; lia).
      rewrite orb_false_l, andb_false_l. specialize (Hf m).
      destruct (Z.eq_dec (f m) 0) as [->|E]; [apply Z.testbit_0_l|].
      replace (f m) with 1 by lia. change 1 with (2 ^ 0).
      rewrite Z.pow2_bits_eqb by lia. apply Z.eqb_neq. lia.
Qed.

(** Bit [i] of the value of hash function [k] is bit [q mod 8] of byte
    [q / 8] of the digest, where [q] is the table byte [H[k * b + i]], for
    [i < b]; the value has no bit at or above [b]. *)
Theorem eval_nth_hash_function_bits (bf : bloom_filter) (k : Z) (sha : list Z) (i : Z) :
  0 <= i ->
  Z.testbit (eval_nth_hash_function bf k sha) i =
  (i <? log2_bits bf) &&
  (let q := buffer bf !!! Z.to_nat (k * log2_bits bf + i) in
   Z.testbit (sha !!! Z.to_nat (q / 8)) (q mod 8)).
Proof.
  intros Hi. unfold eval_nth_hash_function. cbv zeta.
  rewrite hash_fold_bits by (intros; apply land_1_range || lia).
  destruct (Z.ltb_spec i (Z.of_nat (Z.to_nat (log2_bits bf)))) as [Hlt|Hge].
  - replace (i <? log2_bits bf) with true by (symmetry; apply Z.ltb_lt; lia).
    rewrite !andb_true_l, Z2Nat.id by lia.
    rewrite Z.land_spec, Z.shiftr_spec by apply Z.le_refl.
    rewrite Z.add_0_l. change (Z.testbit 1 0) with true. apply andb_true_r.
  - replace (i <? log2_bits bf) with false by (symmetry; apply Z.ltb_ge; lia).
    reflexivity.
Qed.

Lemma memcpy_frame (buf src : list Z) (g hfs : Z) :
  0 <= g -> g + Z.of_nat (length src) <= hfs -> hfs <= Z.of_nat (length buf) ->
  length (memcpy buf g src) = length buf /\
  drop (Z.to_nat hfs) (memcpy buf g src) = drop (Z.to_nat hfs) buf.
Proof.
  intros Hg Hs Hh. unfold memcpy. split.
  - rewrite !length_app, length_take, length_drop. lia.
  - rewrite app_assoc, drop_app_ge by (rewrite length_app, length_take; lia).
    rewrite drop_drop, length_app, length_take. f_equal. lia.
Qed.

Lemma generate_loop_frame (prng_state : Type) (prng : prng_state -> Z -> Z * prng_state)
    (fuel : nat) (generated hfs : Z) (permutation buf : list Z) (ctx : prng_state) :
  0 <= generated -> hfs <= Z.of_nat (length buf) ->
  length (fst (generate_loop prng_state prng fuel generated hfs permutation buf ctx)) = length buf /\
  drop (Z.to_nat hfs) (fst (generate_loop prng_state prng fuel generated hfs permutation buf ctx))
  = drop (Z.to_nat hfs) buf.
Proof.
  revert generated permutation buf ctx.
  induction fuel as [|fuel IH]; intros generated permutation buf ctx Hg Hh; cbn [generate_loop];
    [split; reflexivity|].
  destruct (Z.ltb_spec generated hfs) as [Hlt|Hge]; [|split; reflexivity].
  destruct (fisher_yates prng_state prng (Z.to_nat (SHA1_BITS - 1)) permutation ctx)
    as [perm' ctx'].
  set (src := take (Z.to_nat (Z.min (hfs - generated) SHA1_BITS)) perm').
  assert (Hsrc : Z.of_nat (length src) <= hfs - generated).
  { unfold src. rewrite length_take. unfold SHA1_BITS, SHA1_BYTES. lia. }
  destruct (memcpy_frame buf src generated hfs) as [E1 E2]; try lia.
  destruct (IH (generated + SHA1_BITS) perm' (memcpy buf generated src) ctx') as [F1 F2];
    [unfold SHA1_BITS, SHA1_BYTES; lia|lia|].
  rewrite F1, F2, E1, E2. split; reflexivity.
Qed.

(** A filter returned by [hibp_bf_new_prng] has the buffer size
    [compute_buffer_size] gives, an all-zero bit vector, and answers every
    query negatively (for any PRNG). *)
Theorem new_prng_empty (prng_state : Type) (prng : prng_state -> Z -> Z * prng_state)
    (sz : Z) (calloc_ok : bool) (ctx ctx' : prng_state) (n b : Z) (bf : bloom_filter) :
  1 <= sz ->
  hibp_bf_new_prng prng_state prng sz calloc_ok ctx n b = Done (inr (bf, ctx')) ->
  filter_ok sz bf /\
  bit_vector bf = replicate (Z.to_nat (vector_bytes b)) 0 /\
  forall sha, hibp_bf_query_sha1 bf sha = false.
Proof.
  intros Hsz Hnew. unfold hibp_bf_new_prng in Hnew.
  destruct (compute_buffer_size sz n b) as [[st|size]|] eqn:Ec; try discriminate.
  destruct calloc_ok; cbn [negb] in Hnew; [|discriminate].
  destruct (compute_buffer_size_ok sz n b size Hsz Ec) as (Hn & Hb & _ & Hsize & _).
  pose proof (vector_bytes_pos b (proj1 Hb)) as Hvb.
  destruct (generate_loop_frame prng_state prng (generate_fuel (b * n)) 0 (b * n)
              identity_permutation (replicate (Z.to_nat size) 0) ctx) as [Hlen Hdrop];
    [lia|rewrite length_replicate; nia|].
  destruct (generate_loop prng_state prng (generate_fuel (b * n)) 0 (b * n)
              identity_permutation (replicate (Z.to_nat size) 0) ctx) as [buf' c] eqn:Eg.
  injection Hnew as <- <-. simpl in Hlen, Hdrop.
  rewrite length_replicate in Hlen.
  assert (Hok : filter_ok sz {| n_hash_functions := n; log2_bits := b; buffer := buf' |}).
  { unfold filter_ok. simpl. rewrite Hlen, Z2Nat.id by lia. exact Ec. }
  assert (HV : bit_vector {| n_hash_functions := n; log2_bits := b; buffer := buf' |}
               = replicate (Z.to_nat (vector_bytes b)) 0).
  { unfold bit_vector, bvector_offset. simpl. rewrite (Z.mul_comm n b), Hdrop, drop_replicate.
    f_equal. lia. }
  split; [exact Hok|]. split; [exact HV|].
  intros sha. apply not_true_iff_false. rewrite query_true_iff. intros Hall.
  specialize (Hall 0 ltac:(simpl; lia)). simpl in Hall.
  set (v := eval_nth_hash_function {| n_hash_functions := n; log2_bits := b; buffer := buf' |} 0 sha) in Hall.
  destruct (filter_ok_layout sz _ Hsz Hok) as (_ & _ & _ & Hl).
  pose proof (eval_bound {| n_hash_functions := n; log2_bits := b; buffer := buf' |} 0 sha
                ltac:(simpl; lia)) as Hv. fold v in Hv.
  pose proof (bit_position_in_vector _ v Hl Hv) as Hp.
  rewrite bit_set_testbit in Hall.
  assert (Hz : buf' !!! Z.to_nat (bvector_offset {| n_hash_functions := n; log2_bits := b;
                                                     buffer := buf' |} + v / 8) = 0).
  { pose proof (lookup_total_drop buf' (Z.to_nat (bvector_offset
       {| n_hash_functions := n; log2_bits := b; buffer := buf' |})) (Z.to_nat (v / 8))) as Hd.
    change (drop _ buf') with (bit_vector {| n_hash_functions := n; log2_bits := b; buffer := buf' |}) in Hd.
    rewrite HV in Hd.
    pose proof (Z.div_pos v 8 ltac:(lia) ltac:(lia)).
    simpl in Hp. rewrite Z2Nat.inj_add by (unfold bvector_offset; simpl; nia || lia).
    rewrite <- Hd. apply lookup_total_replicate_2.
    unfold bvector_offset in Hp. simpl in Hp. lia. }
  simpl in Hall. rewrite Hz, Z.testbit_0_l in Hall. discriminate.
Qed.

Lemma my_read_spec (n : nat) (s : list Z) :
  my_read n s =
  if (n <=? length s)%nat then Done (inr (Some (take n s), drop n s)) else Done (inr (None, [])).
Proof.
  revert s. induction n as [|n IH]; intros s; [reflexivity|].
  destruct s as [|c s]; [reflexivity|].
  cbn [my_read]. unfold bind at 1. cbn [getc]. unfold bind. rewrite IH.
  change (S n <=? length (c :: s))%nat with (n <=? length s)%nat.
  destruct (n <=? length s)%nat; reflexivity.
Qed.

Lemma my_read_short (n : nat) (s : list Z) :
  (length s < n)%nat -> my_read n s = Done (inr (None, [])).
Proof.
  intros H. rewrite my_read_spec. replace (n <=? length s)%nat with false; [reflexivity|].
  symmetry. apply Nat.leb_gt. exact H.
Qed.

(** Loading rejects a stream shorter than the 4 magic bytes with
    [HIBP_E_IO], and a stream whose first 4 bytes are not the magic with
    [HIBP_E_VERSION]. *)
Theorem load_magic_errors (sz : Z) (sha1 : list Z -> list Z) (malloc_ok : bool) (s : list Z) :
  ((length s < 4)%nat -> hibp_bf_load_stream sz sha1 malloc_ok s = Done (inl HIBP_E_IO)) /\
  ((4 <= length s)%nat -> take 4 s <> VERSION ->
   hibp_bf_load_stream sz sha1 malloc_ok s = Done (inl HIBP_E_VERSION)).
Proof.
  split.
  - intros H. unfold hibp_bf_load_stream, bind at 1. rewrite my_read_short by exact H. reflexivity.
  - intros H Hv. unfold hibp_bf_load_stream, bind at 1. rewrite my_read_spec.
    replace (4 <=? length s)%nat with true by (symmetry; apply Nat.leb_le; exact H).
    rewrite bool_decide_eq_false_2 by exact Hv. reflexivity.
Qed.

(** After a correct magic, loading returns [HIBP_E_IO] when fewer than 8
    bytes follow, [HIBP_E_2BIG] when the 8-byte count does not fit a
    [size_t] (a nonzero byte at position [sizeof(size_t)] or above), and the
    status [compute_buffer_size] returns when it rejects the decoded [k] and
    the byte [b]. *)
Theorem load_header_errors (sz : Z) (sha1 : list Z -> list Z) (malloc_ok : bool)
    (kb r : list Z) :
  ((length kb < 8)%nat ->
   hibp_bf_load_stream sz sha1 malloc_ok (VERSION ++ kb) = Done (inl HIBP_E_IO)) /\
  (length kb = 8%nat -> le_8_bytes_to_size_t sz kb = None ->
   hibp_bf_load_stream sz sha1 malloc_ok (VERSION ++ kb ++ r) = Done (inl HIBP_E_2BIG)) /\
  (forall k c st, length kb = 8%nat -> le_8_bytes_to_size_t sz kb = Some k ->
   compute_buffer_size sz k c = Done (inl st) ->
   hibp_bf_load_stream sz sha1 malloc_ok (VERSION ++ kb ++ c :: r) = Done (inl st)).
Proof.
  split; [|split].
  - intros H. unfold hibp_bf_load_stream, bind at 1. rewrite (my_read_app 4 VERSION) by reflexivity.
    rewrite bool_decide_eq_true_2 by reflexivity. cbn [negb].
    unfold bind at 1. rewrite my_read_short by exact H. reflexivity.
  - intros H Hd. unfold hibp_bf_load_stream, bind at 1. rewrite (my_read_app 4 VERSION) by reflexivity.
    rewrite bool_decide_eq_true_2 by reflexivity. cbn [negb].
    unfold bind at 1. rewrite (my_read_app 8 kb) by exact H. rewrite Hd. reflexivity.
  - intros k c st H Hd Hc. unfold hibp_bf_load_stream, bind at 1.
    rewrite (my_read_app 4 VERSION) by reflexivity.
    rewrite bool_decide_eq_true_2 by reflexivity. cbn [negb].
    unfold bind at 1. rewrite (my_read_app 8 kb) by exact H. rewrite Hd.
    unfold bind at 1. cbn [getc]. rewrite Hc. reflexivity.
Qed.

Lemma load_stream_success (sz : Z) (sha1 : list Z -> list Z) (malloc_ok : bool)
    (s r : list Z) (bf : bloom_filter) :
  1 <= sz ->
  hibp_bf_load_stream sz sha1 malloc_ok s = Done (inr (bf, r)) ->
  filter_ok sz bf /\ malloc_ok = true /\
  exists kb, length kb = 8%nat /\ le_8_bytes_to_size_t sz kb = Some (n_hash_functions bf) /\
    s = VERSION ++ kb ++ [log2_bits bf] ++ sha1 (buffer bf) ++ buffer bf ++ r.
Proof.
  intros Hsz H. unfold hibp_bf_load_stream in H.
  unfold bind at 1 in H. rewrite my_read_spec in H.
  destruct (4 <=? length s)%nat eqn:E1; [|discriminate]. cbv beta iota in H.
  case_bool_decide as Hv; cbn [negb] in H; [|discriminate].
  unfold bind at 1 in H. rewrite my_read_spec in H.
  destruct (8 <=? length (drop 4 s))%nat eqn:E2; [|discriminate]. cbv beta iota in H.
  destruct (le_8_bytes_to_size_t sz (take 8 (drop 4 s))) as [k|] eqn:Ek; [|discriminate].
  unfold bind at 1 in H. destruct (drop 8 (drop 4 s)) as [|c s3] eqn:Es3; [discriminate|].
  cbn [getc] in H. cbv beta iota in H.
  destruct (compute_buffer_size sz k c) as [[st|size]|] eqn:Ec; try discriminate.
  unfold bind at 1 in H. rewrite my_read_spec in H.
  destruct (Z.to_nat SHA1_BYTES <=? length s3)%nat eqn:E3; [|discriminate]. cbv beta iota in H.
  destruct malloc_ok; cbn [negb] in H; [|discriminate].
  unfold bind at 1 in H. rewrite my_read_spec in H.
  destruct (Z.to_nat size <=? length (drop (Z.to_nat SHA1_BYTES) s3))%nat eqn:E4;
    [|discriminate]. cbv beta iota in H.
  case_bool_decide as Hc; cbn [negb] in H; [|discriminate].
  injection H as <- <-. cbn [n_hash_functions log2_bits buffer].
  apply Nat.leb_le in E1, E2, E3, E4.
  destruct (compute_buffer_size_ok sz k c size Hsz Ec) as (Hk & Hc0 & _ & Hsize & _).
  pose proof (vector_bytes_pos c).
  split.
  - unfold filter_ok. simpl. rewrite Ec, length_take. f_equal. f_equal. nia.
  - split; [reflexivity|]. exists (take 8 (drop 4 s)).
    split; [rewrite length_take; lia|]. split; [exact Ek|].
    rewrite <- Hc, <- Hv.
    rewrite <- (take_drop 4 s) at 1. f_equal.
    rewrite <- (take_drop 8 (drop 4 s)) at 1. f_equal.
    rewrite Es3. simpl. f_equal.
    rewrite <- (take_drop (Z.to_nat SHA1_BYTES) s3) at 1. f_equal.
    symmetry. apply take_drop.
Qed.

(** What a successful load guarantees: the filter has the buffer size
    [compute_buffer_size] gives for its [k] and [b], and the bytes consumed
    are the magic, an 8-byte count decoding to [k], the byte [b], the SHA-1
    of the buffer and the buffer itself. *)
Theorem load_success_format (sz : Z) (sha1 : list Z -> list Z) (malloc_ok : bool)
    (s r : list Z) (bf : bloom_filter) :
  1 <= sz ->
  hibp_bf_load_stream sz sha1 malloc_ok s = Done (inr (bf, r)) ->
  filter_ok sz bf /\
  exists kb, length kb = 8%nat /\ le_8_bytes_to_size_t sz kb = Some (n_hash_functions bf) /\
    s = VERSION ++ kb ++ [log2_bits bf] ++ sha1 (buffer bf) ++ buffer bf ++ r.
Proof.
  intros Hsz H. destruct (load_stream_success sz sha1 malloc_ok s r bf Hsz H) as (Hok & _ & Hkb).
  split; assumption.
Qed.

(** Every proper prefix of the bytes [hibp_bf_save_stream] writes for a
    filter fails to load, with [HIBP_E_IO]. *)
Theorem load_truncated (sz : Z) (sha1 : list Z -> list Z) (bf : bloom_filter) (m : nat) :
  1 <= sz <= 8 ->
  (forall l, length (sha1 l) = Z.to_nat SHA1_BYTES) ->
  filter_ok sz bf ->
  (m < length (serialized_layout sha1 bf))%nat ->
  hibp_bf_load_stream sz sha1 true (take m (serialized_layout sha1 bf)) = Done (inl HIBP_E_IO).
Proof.
  intros Hsz Hsha Hok Hm. pose proof Hok as Hok'. unfold filter_ok in Hok'.
  destruct (compute_buffer_size_ok sz _ _ _ ltac:(lia) Hok') as (Hn & Hb & Hb160 & _ & _).
  unfold serialized_layout in *. rewrite hash_table_bit_vector in *.
  rewrite !length_app, le8_spec_length, Hsha in Hm.
  change (length VERSION) with 4%nat in Hm. change (length [log2_bits bf]) with 1%nat in Hm.
  change (Z.to_nat SHA1_BYTES) with 20%nat in Hm.
  unfold hibp_bf_load_stream.
  destruct (decide (m < 4)%nat) as [H1|H1].
  { rewrite take_app_le by (change (length VERSION) with 4%nat; lia).
    unfold bind at 1. rewrite my_read_short by (rewrite length_take; lia). reflexivity. }
  rewrite take_app_ge by (change (length VERSION) with 4%nat; lia).
  change (length VERSION) with 4%nat.
  unfold bind at 1. rewrite (my_read_app 4 VERSION) by reflexivity.
  rewrite bool_decide_eq_true_2 by reflexivity. cbn [negb].
  destruct (decide (m - 4 < 8)%nat) as [H2|H2].
  { rewrite take_app_le by (rewrite le8_spec_length; lia).
    unfold bind at 1. rewrite my_read_short by (rewrite length_take; lia). reflexivity. }
  rewrite take_app_ge by (rewrite le8_spec_length; lia). rewrite le8_spec_length.
  unfold bind at 1. rewrite (my_read_app 8 (le8_spec _)) by apply le8_spec_length.
  rewrite le8_decode by (unfold N_HASH_FUNCTIONS_MAX in Hn; lia).
  destruct (decide (m - 4 - 8 = 0)%nat) as [H3|H3].
  { rewrite H3. reflexivity. }
  rewrite take_app_ge by (simpl; lia). cbn [length].
  unfold bind at 1. cbn [getc app]. rewrite Hok'.
  destruct (decide (m - 4 - 8 - 1 < 20)%nat) as [H4|H4].
  { rewrite take_app_le by (rewrite Hsha; change (Z.to_nat SHA1_BYTES) with 20%nat; lia).
    unfold bind at 1. rewrite my_read_short
      by (rewrite length_take, Hsha; change (Z.to_nat SHA1_BYTES) with 20%nat; lia).
    reflexivity. }
  rewrite take_app_ge by (rewrite Hsha; change (Z.to_nat SHA1_BYTES) with 20%nat; lia).
  unfold bind at 1. rewrite (my_read_app (Z.to_nat SHA1_BYTES) (sha1 _)) by apply Hsha.
  cbn [negb]. unfold bind at 1. rewrite my_read_short; [reflexivity|].
  rewrite length_take, Hsha, Nat2Z.id. change (Z.to_nat SHA1_BYTES) with 20%nat. lia.
Qed.

(** A stream in the on-disk format of a filter whose buffer bytes have been
    replaced by bytes of the same length with another SHA-1 is rejected with
    [HIBP_E_CHECKSUM]. *)
Theorem load_checksum_mismatch (sz : Z) (sha1 : list Z -> list Z) (bf : bloom_filter)
    (buf' r : list Z) :
  1 <= sz <= 8 ->
  (forall l, length (sha1 l) = Z.to_nat SHA1_BYTES) ->
  filter_ok sz bf ->
  length buf' = length (buffer bf) -> sha1 buf' <> sha1 (buffer bf) ->
  hibp_bf_load_stream sz sha1 true
    (VERSION ++ le8_spec (n_hash_functions bf) ++ [log2_bits bf] ++ sha1 (buffer bf) ++ buf' ++ r)
  = Done (inl HIBP_E_CHECKSUM).
Proof.
  intros Hsz Hsha Hok Hl Hne. pose proof Hok as Hok'. unfold filter_ok in Hok'.
  destruct (compute_buffer_size_ok sz _ _ _ ltac:(lia) Hok') as (Hn & Hb & Hb160 & _ & _).
  unfold hibp_bf_load_stream.
  unfold bind at 1. rewrite (my_read_app 4 VERSION) by reflexivity.
  rewrite bool_decide_eq_true_2 by reflexivity. cbn [negb].
  unfold bind at 1. rewrite (my_read_app 8 (le8_spec _)) by apply le8_spec_length.
  rewrite le8_decode by (unfold N_HASH_FUNCTIONS_MAX in Hn; lia).
  unfold bind at 1. cbn [getc app]. rewrite Hok'.
  unfold bind at 1. rewrite (my_read_app (Z.to_nat SHA1_BYTES) (sha1 _)) by apply Hsha.
  cbn [negb]. unfold bind at 1. rewrite Nat2Z.id, (my_read_app (length (buffer bf)) buf') by exact Hl.
  rewrite bool_decide_eq_false_2 by (intros E; apply Hne; symmetry; exact E).
  reflexivity.
Qed.

Lemma le8_fold_bits (sz : Z) (kb : list Z) (m : nat) (j : Z) :
  1 <= sz <= 8 -> Forall (fun x => 0 <= x < 256) kb -> (m <= Z.to_nat sz)%nat -> 0 <= j ->
  Z.testbit (fold_left (fun size i => Z.lor size
                 (size_t_wrap sz (Z.shiftl (kb !!! i) (8 * Z.of_nat i))))
               (seq 0 m) 0) j
  = (j <? 8 * Z.of_nat m) && Z.testbit (kb !!! Z.to_nat (j / 8)) (j mod 8).
Proof.
  intros Hsz Hkb Hm Hj. induction m as [|m IH].
  - cbn [seq fold_left]. rewrite Z.testbit_0_l.
    replace (j <? 8 * Z.of_nat 0) with false by (symmetry; apply Z.ltb_ge; lia). reflexivity.
  - rewrite seq_S, fold_left_app, Nat.add_0_l. cbn [fold_left].
    rewrite Z.lor_spec, IH by lia. unfold size_t_wrap, size_t_bits.
    assert (Hbyte : forall i, 0 <= kb !!! i < 256).
    { intros i. destruct (kb !! i) as [x|] eqn:Ex.
      - rewrite (list_lookup_total_correct _ _ _ Ex). exact (Forall_lookup_1 _ _ _ _ Hkb Ex).
      - rewrite (list_lookup_total_alt kb i), Ex. simpl. lia. }
    pose proof (Z.div_mod j 8 ltac:(lia)). pose proof (Z.mod_pos_bound j 8 ltac:(lia)).
    destruct (Z.lt_ge_cases j (8 * Z.of_nat m)) as [H1|H1].
    + rewrite Z.mod_pow2_bits_low, Z.shiftl_spec, (Z.testbit_neg_r (kb !!! m)) by lia.
      replace (j <? 8 * Z.of_nat m) with true by (symmetry; apply Z.ltb_lt; lia).
      replace (j <? 8 * Z.of_nat (S m)) with true by (symmetry; apply Z.ltb_lt; lia).
      apply orb_false_r.
    + replace (j <? 8 * Z.of_nat m) with false by (symmetry; apply Z.ltb_ge; lia).
      rewrite andb_false_l, orb_false_l.
      destruct (Z.lt_ge_cases j (8 * Z.of_nat (S m))) as [H2|H2].
      * replace (j <? 8 * Z.of_nat (S m)) with true by (symmetry; apply Z.ltb_lt; lia).
        rewrite Z.mod_pow2_bits_low, Z.shiftl_spec by lia.
        assert (Hq : j / 8 = Z.of_nat m) by lia. rewrite Hq, Nat2Z.id. simpl. f_equal. lia.
      * replace (j <? 8 * Z.of_nat (S m)) with false by (symmetry; apply Z.ltb_ge; lia).
        destruct (Z.lt_ge_cases j (8 * sz)) as [H3|H3].
        -- rewrite Z.mod_pow2_bits_low, Z.shiftl_spec by lia.
           specialize (Hbyte m).
           rewrite <- (Z.mod_small (kb !!! m) (2 ^ 8)) by (simpl; lia).
           apply Z.mod_pow2_bits_high. lia.
        -- apply Z.mod_pow2_bits_high. lia.
Qed.

(** Decoding 8 bytes and encoding the value again gives the bytes back. *)
Lemma le8_encode_decode (sz k : Z) (kb : list Z) :
  1 <= sz <= 8 -> length kb = 8%nat -> Forall (fun x => 0 <= x < 256) kb ->
  le_8_bytes_to_size_t sz kb = Some k -> le8_spec k = kb.
Proof.
  intros Hsz Hl Hkb Hd. unfold le_8_bytes_to_size_t in Hd.
  destruct (existsb _ _) eqn:Ex; [discriminate|]. injection Hd as Hk.
  assert (Hhigh : forall i, (Z.to_nat sz <= i < 8)%nat -> kb !!! i = 0).
  { intros i Hi. destruct (Z.eqb_spec (kb !!! i) 0) as [E|E]; [exact E|].
    exfalso. apply not_true_iff_false in Ex. apply Ex. apply existsb_exists.
    exists i. split; [apply in_seq; lia|]. apply negb_true_iff, Z.eqb_neq. exact E. }
  assert (Hbits : forall j, 0 <= j -> Z.testbit k j =
            (j <? 8 * sz) && Z.testbit (kb !!! Z.to_nat (j / 8)) (j mod 8)).
  { intros j Hj. rewrite <- Hk, le8_fold_bits; [|lia|exact Hkb|lia|lia]. rewrite Z2Nat.id by lia. reflexivity. }
  apply (list_eq_same_length _ _ 8); [exact Hl|apply le8_spec_length|].
  intros i x y Hi Hx Hy.
  rewrite <- (list_lookup_total_correct _ _ _ Hx), <- (list_lookup_total_correct _ _ _ Hy).
  rewrite le8_spec_lookup by exact Hi.
  assert (Hbyte : 0 <= kb !!! i < 256)
    by (rewrite (list_lookup_total_correct _ _ _ Hy); exact (Forall_lookup_1 _ _ _ _ Hkb Hy)).
  apply Z.bits_inj'. intros j Hj. change 256 with (2 ^ 8).
  destruct (Z.lt_ge_cases j 8) as [H1|H1].
  - rewrite Z.mod_pow2_bits_low, Z.div_pow2_bits, Hbits by lia.
    replace ((j + 8 * Z.of_nat i) / 8) with (Z.of_nat i)
      by (apply Z.div_unique with (r := j); lia).
    replace ((j + 8 * Z.of_nat i) mod 8) with j
      by (apply Z.mod_unique with (q := Z.of_nat i); lia).
    rewrite Nat2Z.id.
    destruct (Z.ltb_spec (j + 8 * Z.of_nat i) (8 * sz)) as [H2|H2]; [reflexivity|].
    rewrite Hhigh by lia. rewrite Z.testbit_0_l. reflexivity.
  - rewrite Z.mod_pow2_bits_high by lia.
    rewrite <- (Z.mod_small (kb !!! i) (2 ^ 8)) by (simpl; lia).
    rewrite Z.mod_pow2_bits_high by lia. reflexivity.
Qed.

(** Load then save reproduces the input: when a stream of bytes loads
    successfully, saving the loaded filter writes exactly the bytes the load
    consumed. *)
Theorem load_then_save (sz : Z) (sha1 : list Z -> list Z) (s r : list Z) (bf : bloom_filter) :
  1 <= sz <= 8 ->
  Forall (fun x => 0 <= x < 256) s ->
  hibp_bf_load_stream sz sha1 true s = Done (inr (bf, r)) ->
  exists out, hibp_bf_save_stream sz sha1 (list Z) list_putc bf [] = Done (inr (tt, out)) /\
              s = out ++ r.
Proof.
  intros Hsz Hs Hload.
  destruct (load_stream_success sz sha1 true s r bf ltac:(lia) Hload)
    as (Hok & _ & kb & Hkl & Hkd & ->).
  exists (serialized_layout sha1 bf).
  split.
  - rewrite (save_stream_put_all sz sha1 Hsz (list Z) list_putc bf [] Hok), put_all_list.
    reflexivity.
  - unfold serialized_layout. rewrite hash_table_bit_vector.
    rewrite (le8_encode_decode sz (n_hash_functions bf) kb); [|lia|exact Hkl| |exact Hkd].
    + rewrite <- !app_assoc. reflexivity.
    + apply Forall_app in Hs as [_ Hs]. apply Forall_app in Hs as [Hs _]. exact Hs.
Qed.

(** For [1 <= k <= N_HASH_FUNCTIONS_MAX] and [b] below the width of
    [size_t] and at most 160, [compute_buffer_size] returns the exact size
    [k * b + ceil(2^b / 8)] when it is at most [SIZE_MAX], and [HIBP_E_2BIG]
    otherwise: no intermediate result wraps around. *)
Theorem compute_buffer_size_exact (sz n b : Z) :
  1 <= sz -> 1 <= n <= N_HASH_FUNCTIONS_MAX sz -> 0 <= b < size_t_bits sz -> b <= SHA1_BITS ->
  compute_buffer_size sz n b =
  if n * b + vector_bytes b <=? SIZE_MAX sz then Done (inr (n * b + vector_bytes b))
  else Done (inl HIBP_E_2BIG).
Proof.
  intros Hsz Hn Hb Hb160. unfold compute_buffer_size, size_t_shl, LOG2_BITS_MAX, size_t_wrap.
  assert (HM : SIZE_MAX sz = 2 ^ size_t_bits sz - 1) by reflexivity.
  pose proof (vector_bytes_pos b ltac:(lia)) as Hvb.
  replace (n =? 0) with false by (symmetry; apply Z.eqb_neq; lia).
  replace ((b >? Z.min (size_t_bits sz) SHA1_BITS) || (n >? N_HASH_FUNCTIONS_MAX sz))
    with false by (symmetry; apply orb_false_iff; split; rewrite Z.gtb_ltb; apply Z.ltb_ge; lia).
  pose proof (Z.div_mod (SIZE_MAX sz) n ltac:(lia)) as Hd.
  pose proof (Z.mod_pos_bound (SIZE_MAX sz) n ltac:(lia)) as Hr.
  destruct (Z.gtb_spec b (SIZE_MAX sz / n)) as [Hgt|Hle].
  - replace (n * b + vector_bytes b <=? SIZE_MAX sz) with false; [reflexivity|].
    symmetry. apply Z.leb_gt. nia.
  - replace ((0 <=? b) && (b <? size_t_bits sz)) with true
      by (symmetry; apply andb_true_iff; split; [apply Z.leb_le|apply Z.ltb_lt]; lia).
    assert (Hp : 2 ^ b < 2 ^ size_t_bits sz) by (apply Z.pow_lt_mono_r; lia).
    assert (Hbpos : 0 < 2 ^ b) by (apply Z.pow_pos_nonneg; lia).
    assert (Hprod : b * n <= SIZE_MAX sz) by nia.
    rewrite Z.shiftl_1_l.
    rewrite (Z.mod_small (2 ^ b)) by lia.
    rewrite (Z.mod_small (b * n)) by nia.
    rewrite ceil8_eq by lia. fold (vector_bytes b).
    rewrite (Z.mod_small (vector_bytes b)) by lia.
    destruct (Z.gtb_spec (b * n) (SIZE_MAX sz - vector_bytes b)).
    + replace (n * b + vector_bytes b <=? SIZE_MAX sz) with false; [reflexivity|].
      symmetry. apply Z.leb_gt. nia.
    + replace (n * b + vector_bytes b <=? SIZE_MAX sz) with true
        by (symmetry; apply Z.leb_le; nia).
      rewrite Z.mod_small by nia. f_equal. f_equal. lia.
Qed.

Lemma hex_digit_value_range (c v : Z) : hex_digit_value c = Some v -> 0 <= v < 16.
Proof.
  unfold hex_digit_value.
  destruct ((48 <=? c) && (c <=? 57)) eqn:E1;
    [apply andb_true_iff in E1 as [E1 E1']; apply Z.leb_le in E1, E1'; intros [= <-]; lia|].
  destruct ((97 <=? c) && (c <=? 102)) eqn:E2;
    [apply andb_true_iff in E2 as [E2 E2']; apply Z.leb_le in E2, E2'; intros [= <-]; lia|].
  destruct ((65 <=? c) && (c <=? 70)) eqn:E3;
    [apply andb_true_iff in E3 as [E3 E3']; apply Z.leb_le in E3, E3'; intros [= <-]; lia|].
  discriminate.
Qed.

Lemma hex2bin_inner_spec (hex : list Z) (i : nat) (l : list Z) :
  (i < length l)%nat ->
  hex2bin_inner hex i (seq i 2) (<[i := 0]> l) =
  if hex_valid (hex !!! i) && hex_valid (hex !!! S i)
  then inr (<[i := 16 * hex_nibble (hex !!! i) + hex_nibble (hex !!! S i)]> l)
  else inl HIBP_E_INVAL.
Proof.
  intros Hi. cbn [seq hex2bin_inner]. unfold hex_valid, hex_nibble.
  destruct (hex_digit_value (hex !!! i)) as [v1|] eqn:E1; [|reflexivity].
  destruct (hex_digit_value (hex !!! S i)) as [v2|] eqn:E2; [|reflexivity].
  pose proof (hex_digit_value_range _ _ E1). pose proof (hex_digit_value_range _ _ E2).
  cbn [andb]. f_equal.
  rewrite !list_lookup_total_insert_eq by (rewrite ?length_insert; lia).
  rewrite !list_insert_insert_eq.
  rewrite Z.shiftl_0_l, Z.land_0_l, Z.lor_0_l. f_equal.
  change 255 with (Z.ones 8). rewrite Z.land_ones by lia.
  rewrite Z.shiftl_mul_pow2 by lia. rewrite Z.mod_small by (simpl; lia).
  assert (Hl : Z.land (v1 * 2 ^ 4) v2 = 0).
  { apply Z.bits_inj'. intros j Hj. rewrite Z.land_spec, Z.bits_0.
    destruct (Z.lt_ge_cases j 4).
    - rewrite <- Z.shiftl_mul_pow2, Z.shiftl_spec_low by lia. reflexivity.
    - rewrite <- (Z.mod_small v2 (2 ^ 4)) by (simpl; lia).
      rewrite Z.mod_pow2_bits_high by lia. apply andb_false_r. }
  rewrite <- Z.lxor_lor, <- Z.add_nocarry_lxor by exact Hl. lia.
Qed.

Lemma hex2bin_outer_spec (hex bin : list Z) (m s : nat) :
  (s + m <= length bin)%nat ->
  hex2bin_outer hex (seq s m) (map (hex2bin_byte hex) (seq 0 s) ++ drop s bin) =
  if forallb (fun i => hex_valid (hex !!! i) && hex_valid (hex !!! S i)) (seq s m)
  then inr (map (hex2bin_byte hex) (seq 0 (s + m)) ++ drop (s + m) bin)
  else inl HIBP_E_INVAL.
Proof.
  intros Hlen. revert s Hlen. induction m as [|m IH]; intros s Hlen.
  - rewrite Nat.add_0_r. reflexivity.
  - cbn [seq hex2bin_outer forallb].
    rewrite hex2bin_inner_spec
      by (rewrite length_app, length_map, length_seq, length_drop; lia).
    destruct (hex_valid (hex !!! s) && hex_valid (hex !!! S s)); [|reflexivity].
    cbn [andb].
    destruct (lookup_lt_is_Some_2 bin s ltac:(lia)) as [x Hx].
    rewrite insert_app_r_alt by (rewrite length_map, length_seq; lia).
    rewrite length_map, length_seq, Nat.sub_diag, (drop_S bin x s Hx).
    cbn [insert list_insert].
    change (16 * hex_nibble (hex !!! s) + hex_nibble (hex !!! S s)) with (hex2bin_byte hex s).
    replace (map (hex2bin_byte hex) (seq 0 s) ++ hex2bin_byte hex s :: drop (S s) bin) with
      (map (hex2bin_byte hex) (seq 0 (S s)) ++ drop (S s) bin)
      by (rewrite seq_S, map_app, <- app_assoc; reflexivity).
    rewrite IH by lia. rewrite Nat.add_succ_r. reflexivity.
Qed.

(** On a 20-byte buffer, [hibp_sha1_hex2bin] returns [HIBP_E_INVAL] exactly
    when one of the first 21 characters (the terminating 0 included) is not a
    hexadecimal digit, and otherwise [HIBP_OK] with byte [i] equal to
    [16 * hex[i] + hex[i+1]] (digit values). *)
Theorem hex2bin_behaviour (bin hex : list Z) :
  length bin = 20%nat ->
  ((forall k, (k <= 20)%nat -> hex_digit_value (hex !!! k) <> None) ->
   hibp_sha1_hex2bin bin hex =
   inr (map (fun i => 16 * hex_nibble (hex !!! i) + hex_nibble (hex !!! S i)) (seq 0 20))) /\
  ((exists k, (k <= 20)%nat /\ hex_digit_value (hex !!! k) = None) ->
   hibp_sha1_hex2bin bin hex = inl HIBP_E_INVAL).
Proof.
  intros Hlen. unfold hibp_sha1_hex2bin.
  pose proof (hex2bin_outer_spec hex bin 20 0 ltac:(lia)) as H. cbv zeta in H.
  change (map (hex2bin_byte hex) (seq 0 0) ++ drop 0 bin) with bin in H.
  rewrite Nat.add_0_l in H. rewrite H. clear H. unfold hex2bin_byte.
  split.
  - intros Hall.
    replace (forallb _ (seq 0 20)) with true.
    + rewrite drop_ge by lia. rewrite app_nil_r. reflexivity.
    + symmetry. apply forallb_forall. intros i Hi. apply in_seq in Hi.
      unfold hex_valid.
      destruct (hex_digit_value (hex !!! i)) eqn:E1; [|exfalso; apply (Hall i); [lia|exact E1]].
      destruct (hex_digit_value (hex !!! S i)) eqn:E2; [|exfalso; apply (Hall (S i)); [lia|exact E2]].
      reflexivity.
  - intros (k & Hk & Hnone).
    replace (forallb _ (seq 0 20)) with false; [reflexivity|].
    symmetry. apply not_true_iff_false. intros Hall. rewrite forallb_forall in Hall.
    destruct (decide (k = 20%nat)) as [->|Hk'].
    + specialize (Hall 19%nat ltac:(apply in_seq; lia)).
      apply andb_true_iff in Hall as [_ Hall]. unfold hex_valid in Hall.
      rewrite Hnone in Hall. discriminate.
    + specialize (Hall k ltac:(apply in_seq; lia)).
      apply andb_true_iff in Hall as [Hall _]. unfold hex_valid in Hall.
      rewrite Hnone in Hall. discriminate.
Qed.

Lemma constrained_loop_result (sz : Z) (optimal_k : Z -> Z -> Z) (fuel : nat)
    (count max_memory cand : Z) (cur r : option (Z * Z)) :
  (cur = None /\ cand = 8 \/
   cur = Some (constrained_candidate_n sz optimal_k count (cand - 1), cand - 1) /\ 9 <= cand /\
   forall b', 9 <= b' <= cand - 1 ->
     exists size, constrained_tested_size sz optimal_k count b' = Done size /\ size <= max_memory) ->
  constrained_loop sz optimal_k fuel count max_memory cand cur = Done r ->
  exists b, r = Some (constrained_candidate_n sz optimal_k count b, b) /\ 8 <= b /\
    (forall b', 9 <= b' <= b ->
       exists size, constrained_tested_size sz optimal_k count b' = Done size /\ size <= max_memory) /\
    exists size, constrained_tested_size sz optimal_k count (b + 1) = Done size /\ max_memory < size.
Proof.
  revert cand cur. induction fuel as [|fuel IH]; intros cand cur Hinv H; [discriminate|].
  cbn [constrained_loop] in H.
  fold (constrained_candidate_n sz optimal_k count cand) in H.
  destruct (compute_buffer_size sz cand (constrained_candidate_n sz optimal_k count cand))
    as [res|] eqn:Ec; [|discriminate].
  set (size := match res with inr s => s | inl _ => SIZE_MAX sz end) in H.
  assert (Ht : constrained_tested_size sz optimal_k count cand = Done size).
  { unfold constrained_tested_size. rewrite Ec. destruct res; reflexivity. }
  destruct ((size >? max_memory) && (cand >? 8)) eqn:Eb.
  - injection H as <-. apply andb_true_iff in Eb as [E1 E2].
    rewrite Z.gtb_ltb, Z.ltb_lt in E1, E2.
    destruct Hinv as [[_ ->]|(-> & Hc & Hall)]; [lia|].
    exists (cand - 1). split; [reflexivity|]. split; [lia|]. split; [exact Hall|].
    exists size. replace (cand - 1 + 1) with cand by lia. split; [exact Ht|lia].
  - apply IH in H; [exact H|]. right.
    replace (cand + 1 - 1) with cand by lia. split; [reflexivity|].
    apply andb_false_iff in Eb.
    destruct Hinv as [[-> ->]|(-> & Hc & Hall)].
    + split; [lia|]. intros b' Hb'. lia.
    + split; [lia|]. intros b' Hb'.
      destruct (Z.eq_dec b' cand) as [->|Hne].
      * exists size. split; [exact Ht|].
        destruct Eb as [Eb|Eb]; rewrite Z.gtb_ltb, Z.ltb_ge in Eb; lia.
      * apply Hall. lia.
Qed.

(** When [hibp_compute_constrained_params] terminates normally it always
    sets both outputs: [log2_bits = b] with [b >= 8] and [n_hash_functions]
    the optimal count at [b] capped at [N_HASH_FUNCTIONS_MAX]; every candidate
    from 9 to [b] passed the memory test and candidate [b + 1] failed it. *)
Theorem constrained_params_result (sz : Z) (optimal_k : Z -> Z -> Z) (fuel : nat)
    (count max_memory : Z) (r : option (Z * Z)) :
  hibp_compute_constrained_params sz optimal_k fuel count max_memory = Done r ->
  exists b, r = Some (Z.min (optimal_k count b) (N_HASH_FUNCTIONS_MAX sz), b) /\ 8 <= b /\
    (forall b', 9 <= b' <= b ->
       exists size, constrained_tested_size sz optimal_k count b' = Done size /\ size <= max_memory) /\
    exists size, constrained_tested_size sz optimal_k count (b + 1) = Done size /\ max_memory < size.
Proof.
  intros H. apply constrained_loop_result in H; [|left; split; reflexivity].
  destruct H as (b & -> & H). exists b. split; [|exact H].
  unfold constrained_candidate_n. f_equal. f_equal.
  destruct (Z.gtb_spec (optimal_k count b) (N_HASH_FUNCTIONS_MAX sz)); lia.
Qed.

(** On a filter whose buffer has the size [compute_buffer_size] gives,
    [hibp_bf_get_info] reports its [k] and [b], [bits = 2^b] exactly, and
    [memory = sizeof(hibp_bloom_filter_t) + buffer size] (modulo [2^width]). *)
Theorem get_info_ok (sz sizeof_bf uninit : Z) (bf : bloom_filter) :
  1 <= sz -> filter_ok sz bf ->
  hibp_bf_get_info sz sizeof_bf uninit bf =
  Done (mk_info (n_hash_functions bf) (log2_bits bf) (2 ^ log2_bits bf)
          (size_t_wrap sz (sizeof_bf + Z.of_nat (length (buffer bf))))).
Proof.
  intros Hsz Hok.
  destruct (filter_ok_layout sz bf Hsz Hok) as (_ & _ & Hw & (_ & Hb & _)).
  unfold hibp_bf_get_info. rewrite Hok. unfold size_t_shl, size_t_wrap.
  replace ((0 <=? log2_bits bf) && (log2_bits bf <? size_t_bits sz)) with true
    by (symmetry; apply andb_true_iff; split; [apply Z.leb_le|apply Z.ltb_lt]; lia).
  rewrite Z.shiftl_1_l. rewrite Z.mod_small; [reflexivity|].
  split; [apply Z.pow_nonneg; lia|apply Z.pow_lt_mono_r; lia].
Qed.

Lemma count_mod_block (u r : Z) (q : Z) (m : nat) :
  0 < u -> 0 <= r < u -> 0 <= q -> (m <= Z.to_nat u)%nat ->
  length (List.filter (fun x : nat => Z.of_nat x mod u =? r) (seq (Z.to_nat (q * u)) m)) =
  (if Z.of_nat m >? r then 1 else 0)%nat.
Proof.
  intros Hu Hr Hq. induction m as [|m IH]; intros Hm.
  - simpl. destruct (Z.gtb_spec (Z.of_nat 0) r); [lia|reflexivity].
  - rewrite seq_S, List.filter_app, length_app, IH by lia. simpl.
    replace (Z.of_nat (Z.to_nat (q * u) + m) mod u) with (Z.of_nat m).
    2:{ rewrite Nat2Z.inj_add, Z2Nat.id by nia.
        rewrite (Z.add_comm (q * u)), Z.mod_add by lia. rewrite Z.mod_small; lia. }
    destruct (Z.gtb_spec (Z.of_nat m) r), (Z.gtb_spec (Z.of_nat (S m)) r),
      (Z.eqb_spec (Z.of_nat m) r); simpl; lia.
Qed.

Lemma count_mod (u r : Z) (q : nat) :
  0 < u -> 0 <= r < u ->
  length (List.filter (fun x : nat => Z.of_nat x mod u =? r) (seq 0 (Z.to_nat (Z.of_nat q * u)))) = q.
Proof.
  intros Hu Hr. induction q as [|q IH]; [reflexivity|].
  replace (Z.to_nat (Z.of_nat (S q) * u)) with (Z.to_nat (Z.of_nat q * u) + Z.to_nat u)%nat by lia.
  rewrite seq_app, List.filter_app, length_app, IH. simpl.
  rewrite (count_mod_block u r (Z.of_nat q) (Z.to_nat u)) by lia.
  destruct (Z.gtb_spec (Z.of_nat (Z.to_nat u)) r); lia.
Qed.

(** For [1 <= u < SIZE_MAX], [default_prng] returns a value in [[0, u)]
    whatever the draw, and every residue [r < u] is the result for exactly
    [SIZE_MAX / u] of the draws in [[0, limit)] it accepts: a draw uniform on
    that range gives a result uniform on [[0, u)]. *)
Theorem default_prng_uniform (sz u : Z) :
  1 <= sz -> 1 <= u < SIZE_MAX sz ->
  (forall (rand_state : Type) (draw_below : rand_state -> Z -> Z * rand_state) (c : rand_state),
     0 <= fst (default_prng sz rand_state draw_below c u) < u) /\
  forall r, 0 <= r < u ->
    length (List.filter
      (fun x : nat => fst (default_prng sz unit (fun _ _ => (Z.of_nat x, tt)) tt u) =? r)
      (seq 0 (Z.to_nat (SIZE_MAX sz / u * u)))) = Z.to_nat (SIZE_MAX sz / u).
Proof.
  intros Hsz Hu. unfold default_prng.
  replace (u =? SIZE_MAX sz) with false by (symmetry; apply Z.eqb_neq; lia).
  split.
  - intros rs draw c. destruct (draw c _) as [number c']. simpl. apply Z.mod_pos_bound. lia.
  - intros r Hr. simpl.
    assert (HD : 0 <= SIZE_MAX sz / u) by (apply Z.div_pos; lia).
    pose proof (count_mod u r (Z.to_nat (SIZE_MAX sz / u)) ltac:(lia) Hr) as Hc.
    rewrite Z2Nat.id in Hc by lia. exact Hc.
Qed.

Lemma fread_my_read {B : Type} (n : nat) (e : status)
    (K : list Z -> M (list Z) B) (K' : list Z -> M (list Z) B) (s : list Z) :
  (forall l s', length l = n -> K l s' = K' l s') ->
  bind (fread n) (fun l => if negb (length l =? n)%nat then fail e else K l) s =
  bind (my_read n) (fun o => match o with None => fail e | Some l => K' l end) s.
Proof.
  intros HK. unfold bind at 2. rewrite my_read_spec. unfold bind, fread.
  destruct (Nat.leb_spec n (length s)).
  - rewrite length_take, Nat.min_l, Nat.eqb_refl by lia. simpl. apply HK.
    rewrite length_take. lia.
  - rewrite length_take, Nat.min_r by lia.
    replace (length s =? n)%nat with false by (symmetry; apply Nat.eqb_neq; lia).
    reflexivity.
Qed.

Lemma fwrite_my_write (writer : Type) (fputc : writer -> Z -> option writer)
    (bytes : list Z) (w : writer) :
  exists k w', fwrite writer fputc bytes w = Done (inr (k, w')) /\
    my_write writer fputc bytes w = Done (inr ((k =? length bytes)%nat, w')).
Proof.
  revert w. induction bytes as [|c bytes IH]; intros w.
  - exists 0%nat, w. split; reflexivity.
  - cbn [fwrite my_write]. destruct (fputc w c) as [w1|].
    + destruct (IH w1) as (k & w' & E1 & E2). exists (S k), w'.
      split; [|exact E2]. unfold bind. rewrite E1. reflexivity.
    + exists 0%nat, w. split; reflexivity.
Qed.

Lemma fwrite_bind {B : Type} (writer : Type) (fputc : writer -> Z -> option writer)
    (bytes : list Z) (n : nat) (e : status) (K : M writer B) (w : writer) :
  length bytes = n ->
  bind (fwrite writer fputc bytes) (fun k => if negb (k =? n)%nat then fail e else K) w =
  bind (my_write writer fputc bytes) (fun ok => if negb ok then fail e else K) w.
Proof.
  intros <-. destruct (fwrite_my_write writer fputc bytes w) as (k & w' & E1 & E2).
  unfold bind. rewrite E1, E2. reflexivity.
Qed.

Lemma fwrite_bind_ext {B : Type} (writer : Type) (fputc : writer -> Z -> option writer)
    (bytes : list Z) (n : nat) (e : status) (K K' : M writer B) (w : writer) :
  length bytes = n -> (forall s, K s = K' s) ->
  bind (fwrite writer fputc bytes) (fun k => if negb (k =? n)%nat then fail e else K) w =
  bind (my_write writer fputc bytes) (fun ok => if negb ok then fail e else K') w.
Proof.
  intros <- HK. destruct (fwrite_my_write writer fputc bytes w) as (k & w' & E1 & E2).
  unfold bind. rewrite E1, E2. destruct (k =? length bytes)%nat; [apply HK|reflexivity].
Qed.

Lemma my_write_one {B : Type} (writer : Type) (fputc : writer -> Z -> option writer)
    (c : Z) (e : status) (K : M writer B) (w : writer) :
  bind (my_write writer fputc [c]) (fun ok => if negb ok then fail e else K) w =
  match fputc w c with None => fail e w | Some w' => K w' end.
Proof. unfold bind. simpl. destruct (fputc w c); reflexivity. Qed.

(** [hibp_bf_load_file] (with [fread] and [fgetc]) and [hibp_bf_load_stream]
    (with [getc]) return the same result on every file contents. *)
Theorem load_file_eq_stream (sz : Z) (sha1 : list Z -> list Z) (malloc_ok : bool) (s : list Z) :
  hibp_bf_load_file sz sha1 malloc_ok s = hibp_bf_load_stream sz sha1 malloc_ok s.
Proof.
  unfold hibp_bf_load_file, hibp_bf_load_stream.
  apply fread_my_read. intros v s1 _.
  destruct (negb (bool_decide (v = VERSION))); [reflexivity|].
  apply fread_my_read. intros nb s2 _.
  destruct (le_8_bytes_to_size_t sz nb) as [k|]; [|reflexivity].
  apply bind_ext. intros [c|] s3; [|reflexivity].
  destruct (compute_buffer_size sz k c) as [[st|size]|]; try reflexivity.
  apply fread_my_read. intros ck s4 _.
  destruct malloc_ok; [|reflexivity]. simpl negb. cbv iota.
  apply fread_my_read. intros buf s5 _. reflexivity.
Qed.

(** [hibp_bf_save_file] (with [fwrite] and [fputc]) and [hibp_bf_save_stream]
    (with [putc]) write the same bytes and return the same status, failures of
    [putc] included, for a SHA-1 that returns 20 bytes. *)
Theorem save_file_eq_stream (sz : Z) (sha1 : list Z -> list Z) (writer : Type)
    (fputc : writer -> Z -> option writer) (bf : bloom_filter) (w : writer) :
  (forall l, length (sha1 l) = Z.to_nat SHA1_BYTES) ->
  hibp_bf_save_file writer fputc sz sha1 bf w = hibp_bf_save_stream sz sha1 writer fputc bf w.
Proof.
  intros Hsha. unfold hibp_bf_save_file, hibp_bf_save_stream.
  apply fwrite_bind_ext; [reflexivity|]. intros s1.
  destruct (size_t_to_le_8_bytes (n_hash_functions bf)) as [nb|] eqn:En; [|reflexivity].
  apply fwrite_bind_ext.
  { unfold size_t_to_le_8_bytes in En.
    destruct (Z.shiftr (n_hash_functions bf) 64 =? 0); [|discriminate].
    injection En as <-. reflexivity. }
  intros s2. destruct (negb _); [reflexivity|].
  rewrite my_write_one. destruct (fputc s2 (log2_bits bf)) as [s3|]; [|reflexivity].
  destruct (compute_buffer_size sz (n_hash_functions bf) (log2_bits bf)) as [[st|size]|];
    try reflexivity.
  destruct (Nat.ltb_spec (length (buffer bf)) (Z.to_nat size)); [reflexivity|].
  apply fwrite_bind_ext; [apply Hsha|]. intros s4.
  apply fwrite_bind_ext; [|reflexivity].
  rewrite length_take. lia.
Qed.

Lemma set_byte_noop (x t : Z) :
  0 <= x < 256 -> 0 <= t < 8 -> Z.testbit x t = true ->
  Z.land (Z.lor x (Z.shiftl 1 t)) 255 = x.
Proof.
  intros Hx Ht Hb. apply Z.bits_inj'. intros j Hj.
  destruct (Z.lt_ge_cases j 8).
  - rewrite testbit_set_byte by lia. case_bool_decide as E.
    + subst j. rewrite Hb. reflexivity.
    + apply orb_false_r.
  - change 255 with (Z.ones 8). rewrite Z.land_spec, Z.testbit_ones by lia.
    replace ((0 <=? j) && (j <? 8)) with false
      by (symmetry; apply andb_false_iff; right; apply Z.ltb_ge; lia).
    rewrite andb_false_r. rewrite <- (Z.mod_small x (2 ^ 8)) by (simpl; lia).
    rewrite Z.mod_pow2_bits_high by lia. reflexivity.
Qed.

Lemma set_vector_bit_noop (off : Z) (buf : list Z) (k : Z) :
  Forall (fun x => 0 <= x < 256) buf ->
  Z.testbit (buf !!! Z.to_nat (off + k / 8)) (k mod 8) = true ->
  set_vector_bit off buf k = buf.
Proof.
  intros Hbuf Hb. unfold set_vector_bit. set (pos := Z.to_nat (off + k / 8)) in *.
  destruct (buf !! pos) as [x|] eqn:E.
  - rewrite (list_lookup_total_correct _ _ _ E) in *.
    rewrite set_byte_noop.
    + apply list_insert_id. exact E.
    + exact (Forall_lookup_1 _ _ _ _ Hbuf E).
    + apply Z.mod_pos_bound. lia.
    + exact Hb.
  - apply list_insert_ge. apply lookup_ge_None. exact E.
Qed.

Lemma set_vector_bits_noop (off : Z) (ks : list Z) (buf : list Z) :
  Forall (fun x => 0 <= x < 256) buf ->
  (forall k, In k ks -> Z.testbit (buf !!! Z.to_nat (off + k / 8)) (k mod 8) = true) ->
  fold_left (set_vector_bit off) ks buf = buf.
Proof.
  intros Hbuf. induction ks as [|k ks IH]; intros Hks; [reflexivity|].
  simpl. rewrite set_vector_bit_noop; [| exact Hbuf | apply Hks; left; reflexivity].
  apply IH. intros k' Hk'. apply Hks. right. exact Hk'.
Qed.

(** On a filter with its layout and buffer bytes below 256, inserting a
    digest leaves the filter unchanged exactly when querying the digest
    returns true. *)
Theorem insert_sha1_noop_iff_query (bf : bloom_filter) (sha : list Z) :
  layout_ok bf -> Forall (fun x => 0 <= x < 256) (buffer bf) ->
  hibp_bf_insert_sha1 bf sha = bf <-> hibp_bf_query_sha1 bf sha = true.
Proof.
  intros Hl Hbytes. rewrite query_true_iff. split.
  - intros H i Hi. pose proof (insert_sets_all bf sha Hl i Hi) as Hs.
    rewrite H in Hs. exact Hs.
  - intros H. destruct Hl as (Hn & Hb & _).
    rewrite (insert_sha1_buffer bf sha Hn Hb).
    apply filter_eq; try reflexivity. cbn [buffer].
    apply set_vector_bits_noop; [exact Hbytes|].
    intros k Hk. unfold hash_values in Hk. apply in_map_iff in Hk as (i & <- & Hi).
    apply in_seq in Hi. rewrite <- bit_set_testbit. apply H. lia.
Qed.

(** ** The assertions of hashing, insertion and query; loading without (I3) *)

Lemma size_t_shl_small (sz x n : Z) :
  1 <= sz -> 0 <= n < size_t_bits sz -> 0 <= x -> x * 2 ^ n < 2 ^ size_t_bits sz ->
  size_t_shl sz x n = Done (x * 2 ^ n).
Proof.
  intros Hsz Hn Hx Hlt. unfold size_t_shl, size_t_wrap.
  replace ((0 <=? n) && (n <? size_t_bits sz)) with true
    by (symmetry; apply andb_true_iff; split; [apply Z.leb_le|apply Z.ltb_lt]; lia).
  rewrite Z.shiftl_mul_pow2 by lia. rewrite Z.mod_small; [reflexivity|].
  split; [apply Z.mul_nonneg_nonneg; [lia|apply Z.pow_nonneg; lia]|exact Hlt].
Qed.

Lemma eval_loop_checked_ok (sz : Z) (bf : bloom_filter) (base : Z) (sha : list Z)
    (s m : nat) (value : Z) :
  1 <= sz -> 0 <= base -> Z.of_nat (s + m) <= size_t_bits sz -> length sha = 20%nat ->
  (forall p, (s <= p < s + m)%nat ->
     (Z.to_nat (base + Z.of_nat p) < length (buffer bf))%nat /\
     0 <= buffer bf !!! Z.to_nat (base + Z.of_nat p) < SHA1_BITS) ->
  eval_loop_checked sz bf base sha (seq s m) value =
  Done (fold_left
          (fun value i =>
             let index := buffer bf !!! Z.to_nat (base + Z.of_nat i) in
             let bit := Z.land (Z.shiftr (sha !!! Z.to_nat (index / 8)) (index mod 8)) 1 in
             Z.lor value (Z.shiftl bit (Z.of_nat i)))
          (seq s m) value).
Proof.
  intros Hsz Hbase. revert s value. induction m as [|m IH]; intros s value Hw Hsha Hp;
    [reflexivity|].
  cbn [seq eval_loop_checked fold_left].
  destruct (Hp s ltac:(lia)) as [Hlt Hq].
  destruct (lookup_lt_is_Some_2 _ _ Hlt) as [index Hi].
  rewrite Hi. rewrite (list_lookup_total_correct _ _ _ Hi) in Hq |- *.
  replace (index <? SHA1_BITS) with true by (symmetry; apply Z.ltb_lt; lia). cbn [negb].
  assert (Hd : (Z.to_nat (index / 8) < length sha)%nat).
  { rewrite Hsha. unfold SHA1_BITS, SHA1_BYTES in Hq.
    pose proof (Z.div_lt_upper_bound index 8 20 ltac:(lia) ltac:(lia)).
    pose proof (Z.div_pos index 8 ltac:(lia) ltac:(lia)). lia. }
  destruct (lookup_lt_is_Some_2 _ _ Hd) as [byte Hb].
  rewrite Hb, (list_lookup_total_correct _ _ _ Hb).
  pose proof (land_1_range (Z.shiftr byte (index mod 8))) as Hbit.
  assert (HW : 2 ^ Z.of_nat s * 2 <= 2 ^ size_t_bits sz).
  { replace (2 ^ Z.of_nat s * 2) with (2 ^ (Z.of_nat s + 1)) by (rewrite Z.pow_add_r; lia).
    apply Z.pow_le_mono_r; lia. }
  assert (Hs0 : 0 < 2 ^ Z.of_nat s) by (apply Z.pow_pos_nonneg; lia).
  rewrite size_t_shl_small by (try lia; nia).
  rewrite <- Z.shiftl_mul_pow2 by lia.
  apply IH; [lia|exact Hsha|]. intros p Hp'. apply Hp. lia.
Qed.

Lemma eval_checked_ok (sz : Z) (bf : bloom_filter) (i : Z) (sha : list Z) :
  1 <= sz -> filter_ok sz bf -> hash_indices_ok bf -> length sha = 20%nat ->
  0 <= i < n_hash_functions bf ->
  eval_nth_hash_function_checked sz bf i sha = Done (eval_nth_hash_function bf i sha).
Proof.
  intros Hsz Hok HI Hsha Hi.
  destruct (filter_ok_layout sz bf Hsz Hok) as (Hn & _ & Hw & Hl).
  pose proof Hl as (_ & Hb & Hlen).
  pose proof (vector_bytes_pos (log2_bits bf) Hb) as Hv.
  unfold eval_nth_hash_function_checked.
  rewrite eval_loop_checked_ok; try lia.
  - change (fold_left _ (seq 0 (Z.to_nat (log2_bits bf))) 0)
      with (eval_nth_hash_function bf i sha).
    pose proof (eval_bound bf i sha Hb) as Hbound.
    rewrite size_t_shl_small by first [lia | rewrite Z.mul_1_l; apply Z.pow_lt_mono_r; lia].
    rewrite Z.mul_1_l. replace (_ <? 2 ^ log2_bits bf) with true
      by (symmetry; apply Z.ltb_lt; lia). reflexivity.
  - intros p Hp. split.
    + apply Nat2Z.inj_lt. rewrite Z2Nat.id by nia. nia.
    + apply hash_table_byte; [exact Hl|exact HI|]. unfold bvector_offset.
      rewrite Z2Nat.id by nia. nia.
Qed.

Lemma insert_loop_checked_ok (sz : Z) (sha : list Z) (s m : nat) (bf : bloom_filter) :
  1 <= sz -> filter_ok sz bf -> hash_indices_ok bf -> length sha = 20%nat ->
  Z.of_nat (s + m) <= n_hash_functions bf ->
  insert_loop_checked sz sha bf (seq s m) = Done (fold_left (insert_step sha) (seq s m) bf).
Proof.
  intros Hsz. revert s bf. induction m as [|m IH]; intros s bf Hok HI Hsha Hm; [reflexivity|].
  cbn [seq insert_loop_checked fold_left].
  destruct (filter_ok_layout sz bf Hsz Hok) as (Hn & _ & Hw & Hl).
  pose proof Hl as (_ & Hb & _).
  rewrite (eval_checked_ok sz bf (Z.of_nat s) sha) by (auto; lia).
  pose proof (bit_position_in_vector bf _ Hl (eval_bound bf (Z.of_nat s) sha Hb)) as Hpos.
  destruct (lookup_lt_is_Some_2 (buffer bf)
              (Z.to_nat (bvector_offset bf + eval_nth_hash_function bf (Z.of_nat s) sha / 8)))
    as [x Hx]; [assert (0 <= bvector_offset bf) by (unfold bvector_offset; nia); lia|].
  rewrite Hx.
  set (k := eval_nth_hash_function bf (Z.of_nat s) sha) in *.
  assert (Heq : insert_step sha bf s =
    {| n_hash_functions := n_hash_functions bf; log2_bits := log2_bits bf;
       buffer := <[Z.to_nat (bvector_offset bf + k / 8) := Z.land (Z.lor x (Z.shiftl 1 (k mod 8))) 255]>
                   (buffer bf) |}).
  { unfold insert_step. fold k. rewrite (list_lookup_total_correct _ _ _ Hx). reflexivity. }
  rewrite <- Heq.
  apply IH; [| |exact Hsha|].
  - unfold filter_ok. rewrite insert_step_n, insert_step_b, insert_step_length by lia. exact Hok.
  - unfold hash_indices_ok. rewrite insert_step_hash_table by lia. exact HI.
  - rewrite insert_step_n by lia. lia.
Qed.

Lemma query_loop_checked_ok (sz : Z) (bf : bloom_filter) (sha : list Z) (is : list nat) :
  1 <= sz -> filter_ok sz bf -> hash_indices_ok bf -> length sha = 20%nat ->
  (forall i, In i is -> Z.of_nat i < n_hash_functions bf) ->
  query_loop_checked sz bf sha is = Done (query_loop bf sha is).
Proof.
  intros Hsz Hok HI Hsha. destruct (filter_ok_layout sz bf Hsz Hok) as (Hn & _ & Hw & Hl).
  pose proof Hl as (_ & Hb & _).
  induction is as [|i is IH]; intros Hin; [reflexivity|].
  cbn [query_loop_checked query_loop].
  rewrite (eval_checked_ok sz bf (Z.of_nat i) sha) by (auto; specialize (Hin i (or_introl eq_refl)); lia).
  pose proof (eval_bound bf (Z.of_nat i) sha Hb) as Hv.
  pose proof (bit_position_in_vector bf _ Hl Hv) as Hpos.
  rewrite size_t_shl_small by first [lia | rewrite Z.mul_1_l; apply Z.pow_lt_mono_r; lia].
  rewrite Z.mul_1_l. replace (_ <? 2 ^ log2_bits bf) with true
    by (symmetry; apply Z.ltb_lt; lia). cbn [negb].
  destruct (lookup_lt_is_Some_2 (buffer bf)
              (Z.to_nat (bvector_offset bf + eval_nth_hash_function bf (Z.of_nat i) sha / 8)))
    as [x Hx]; [assert (0 <= bvector_offset bf) by (unfold bvector_offset; nia); lia|].
  rewrite Hx, (list_lookup_total_correct _ _ _ Hx).
  destruct (_ =? 0); [reflexivity|]. apply IH. intros j Hj. apply Hin. right. exact Hj.
Qed.

Lemma eval_checked_width (sz : Z) (bf : bloom_filter) (k : Z) (sha : list Z) :
  log2_bits bf = size_t_bits sz ->
  eval_nth_hash_function_checked sz bf k sha = Stuck.
Proof.
  intros Hb. unfold eval_nth_hash_function_checked.
  destruct (eval_loop_checked _ _ _ _ _ _); [|reflexivity].
  unfold size_t_shl. rewrite Hb, Z.ltb_irrefl, andb_false_r. reflexivity.
Qed.

Lemma load_accepts_format (sz : Z) (sha1 : list Z -> list Z) (kb : list Z) (k c : Z)
    (buf r : list Z) :
  (forall l, length (sha1 l) = Z.to_nat SHA1_BYTES) ->
  length kb = 8%nat -> le_8_bytes_to_size_t sz kb = Some k ->
  compute_buffer_size sz k c = Done (inr (Z.of_nat (length buf))) ->
  hibp_bf_load_stream sz sha1 true (VERSION ++ kb ++ [c] ++ sha1 buf ++ buf ++ r)
  = Done (inr ({| n_hash_functions := k; log2_bits := c; buffer := buf |}, r)).
Proof.
  intros Hsha Hkb Hk Hc. unfold hibp_bf_load_stream.
  unfold bind at 1. rewrite (my_read_app 4 VERSION) by reflexivity.
  rewrite bool_decide_eq_true_2 by reflexivity. cbn [negb].
  unfold bind at 1. rewrite (my_read_app 8 kb) by exact Hkb. rewrite Hk.
  unfold bind at 1. cbn [getc app]. rewrite Hc.
  unfold bind at 1. rewrite (my_read_app (Z.to_nat SHA1_BYTES) (sha1 buf)) by apply Hsha.
  cbn [negb].
  unfold bind at 1. rewrite Nat2Z.id, (my_read_app (length buf) buf) by reflexivity.
  rewrite bool_decide_eq_true_2 by reflexivity. reflexivity.
Qed.

Lemma load_hash_table (sz : Z) (sha1 : list Z -> list Z) (malloc_ok : bool)
    (s r : list Z) (bf : bloom_filter) :
  1 <= sz -> (forall l, length (sha1 l) = Z.to_nat SHA1_BYTES) ->
  hibp_bf_load_stream sz sha1 malloc_ok s = Done (inr (bf, r)) ->
  hash_table bf = take (Z.to_nat (n_hash_functions bf * log2_bits bf)) (drop 33 s).
Proof.
  intros Hsz Hsha H.
  destruct (load_stream_success sz sha1 malloc_ok s r bf Hsz H) as (Hok & _ & kb & Hkb & _ & ->).
  destruct (filter_ok_layout sz bf Hsz Hok) as (_ & _ & _ & Hl).
  pose proof (hash_table_length bf Hl) as Hlen.
  unfold hash_table, bvector_offset in *.
  rewrite (app_assoc kb), (app_assoc (kb ++ _)), (app_assoc VERSION).
  rewrite drop_app_length'.
  - rewrite take_app_le; [reflexivity|]. rewrite length_take in Hlen. lia.
  - rewrite !length_app, Hkb, Hsha. reflexivity.
Qed.

(** C10. Safety of the hashing primitive, insertion and query, with the
    assertions of the source kept ([eval_nth_hash_function_checked],
    [hibp_bf_insert_sha1_checked], [hibp_bf_query_sha1_checked]): on a filter
    with [b] below the width of [size_t] (as [compute_buffer_size] accepts it)
    and (I3), and a 20-byte digest, evaluation of hash function [i < k] reads
    only in-bounds bytes, passes [assert(index < SHA1_BITS)] and
    [assert(value < 1 << log2_bits)], returns a value below [2^b] whose byte
    lies in the bit vector, and insertion and query pass all their checks. At
    [b] equal to the width of [size_t], which [LOG2_BITS_MAX] admits, the
    assertion [value < ((size_t)1) << log2_bits] shifts by the full width: the
    evaluation, and insertion and query with [k >= 1], are undefined. *)
Theorem hash_eval_safe (sz : Z) :
  1 <= sz ->
  (forall bf sha i,
     filter_ok sz bf -> hash_indices_ok bf -> length sha = 20%nat ->
     0 <= i < n_hash_functions bf ->
     eval_nth_hash_function_checked sz bf i sha = Done (eval_nth_hash_function bf i sha) /\
     0 <= eval_nth_hash_function bf i sha < 2 ^ log2_bits bf /\
     bvector_offset bf <= bvector_offset bf + eval_nth_hash_function bf i sha / 8
       < Z.of_nat (length (buffer bf))) /\
  (forall bf sha,
     filter_ok sz bf -> hash_indices_ok bf -> length sha = 20%nat ->
     hibp_bf_insert_sha1_checked sz bf sha = Done (hibp_bf_insert_sha1 bf sha) /\
     hibp_bf_query_sha1_checked sz bf sha = Done (hibp_bf_query_sha1 bf sha)) /\
  (forall bf sha i,
     log2_bits bf = size_t_bits sz ->
     eval_nth_hash_function_checked sz bf i sha = Stuck /\
     (1 <= n_hash_functions bf ->
      hibp_bf_insert_sha1_checked sz bf sha = Stuck /\
      hibp_bf_query_sha1_checked sz bf sha = Stuck)).
Proof.
  intros Hsz. split; [|split].
  - intros bf sha i Hok HI Hsha Hi.
    destruct (filter_ok_layout sz bf Hsz Hok) as (_ & _ & _ & Hl).
    pose proof Hl as (_ & Hb & _).
    pose proof (eval_bound bf i sha Hb) as Hv.
    split; [apply eval_checked_ok; assumption|].
    split; [exact Hv|]. apply bit_position_in_vector; assumption.
  - intros bf sha Hok HI Hsha.
    destruct (filter_ok_layout sz bf Hsz Hok) as (Hn & _ & _ & _).
    split.
    + unfold hibp_bf_insert_sha1_checked, hibp_bf_insert_sha1.
      apply insert_loop_checked_ok; try assumption. lia.
    + unfold hibp_bf_query_sha1_checked, hibp_bf_query_sha1.
      apply query_loop_checked_ok; try assumption.
      intros j Hj. apply in_seq in Hj. lia.
  - intros bf sha i Hb. split; [apply eval_checked_width; exact Hb|].
    intros Hn.
    unfold hibp_bf_insert_sha1_checked, hibp_bf_query_sha1_checked.
    replace (Z.to_nat (n_hash_functions bf)) with (S (Z.to_nat (n_hash_functions bf) - 1)) by lia.
    cbn [seq insert_loop_checked query_loop_checked].
    rewrite eval_checked_width by exact Hb. split; reflexivity.
Qed.

Lemma hash_eval_safe_witness :
  (filter_ok 8 example_filter /\ hash_indices_ok example_filter /\
   length example_digest = 20%nat /\ 0 <= 2 < n_hash_functions example_filter) /\
  eval_nth_hash_function_checked 8 example_filter 2 example_digest
    = Done (eval_nth_hash_function example_filter 2 example_digest) /\
  hibp_bf_query_sha1_checked 8 example_filter example_digest
    = Done (hibp_bf_query_sha1 example_filter example_digest) /\
  (log2_bits {| n_hash_functions := 1; log2_bits := 64; buffer := replicate 72 0 |} = size_t_bits 8 /\
   hibp_bf_query_sha1_checked 8 {| n_hash_functions := 1; log2_bits := 64; buffer := replicate 72 0 |}
     example_digest = Stuck).
Proof.
  assert (HI : hash_indices_ok example_filter).
  { unfold hash_indices_ok. apply (bool_decide_unpack _). vm_compute. exact I. }
  assert (Hd : length example_digest = 20%nat) by reflexivity.
  assert (Hi : 0 <= 2 < n_hash_functions example_filter).
  { apply (bool_decide_unpack _). vm_compute. exact I. }
  assert (Hw : log2_bits {| n_hash_functions := 1; log2_bits := 64; buffer := replicate 72 0 |}
               = size_t_bits 8) by reflexivity.
  destruct (hash_eval_safe 8 ltac:(lia)) as (H1 & H2 & H3).
  split; [split; [exact example_filter_ok|auto]|].
  split; [exact (proj1 (H1 example_filter example_digest 2 example_filter_ok HI Hd Hi))|].
  split; [exact (proj2 (H2 example_filter example_digest example_filter_ok HI Hd))|].
  split; [exact Hw|].
  exact (proj2 (proj2 (H3 _ example_digest 0 Hw) ltac:(simpl; lia))).
Defined.

(** C7 (as the code establishes it). (I3), every byte of [H] below 160, holds
    for every filter returned by [hibp_bf_new_prng] with a PRNG meeting its
    contract and by [hibp_bf_new]; insertion leaves [H] unchanged (query and
    save return no filter); and loading the bytes that [hibp_bf_save_stream]
    wrote for a filter satisfying (I3) returns that filter. Loading checks
    only the header, the parameters and the checksum, not (I3): every stream
    made of the magic, an 8-byte count [k], a byte [b] accepted by
    [compute_buffer_size], the SHA-1 of a buffer of the size it gives and that
    buffer loads successfully, whatever the bytes of [H]; and a loaded filter
    satisfies (I3) exactly when the [k * b] bytes of [H] in the stream (after
    the 33 header bytes) are below 160. *)
Theorem hash_indices_invariant (sz : Z) :
  1 <= sz <= 8 ->
  (forall (prng_state : Type) (prng : prng_state -> Z -> Z * prng_state)
          (calloc_ok : bool) (ctx ctx' : prng_state) (n b : Z) (bf : bloom_filter),
     (forall c u, 1 <= u <= SHA1_BITS -> 0 <= fst (prng c u) < u) ->
     hibp_bf_new_prng prng_state prng sz calloc_ok ctx n b = Done (inr (bf, ctx')) ->
     hash_indices_ok bf) /\
  (forall (rand_state : Type) (draw_below : rand_state -> Z -> Z * rand_state)
          (calloc_ok : bool) (ctx ctx' : rand_state) (n b : Z) (bf : bloom_filter),
     hibp_bf_new sz rand_state draw_below calloc_ok ctx n b = Done (inr (bf, ctx')) ->
     hash_indices_ok bf) /\
  (forall (bf : bloom_filter) (sha : list Z),
     filter_ok sz bf -> hash_indices_ok bf ->
     hash_table (hibp_bf_insert_sha1 bf sha) = hash_table bf /\
     hash_indices_ok (hibp_bf_insert_sha1 bf sha)) /\
  (forall (sha1 : list Z -> list Z) (bf : bloom_filter) (r : list Z),
     (forall l, length (sha1 l) = Z.to_nat SHA1_BYTES) ->
     filter_ok sz bf -> hash_indices_ok bf ->
     exists bf', hibp_bf_load_stream sz sha1 true (serialized_layout sha1 bf ++ r)
                 = Done (inr (bf', r)) /\ hash_indices_ok bf') /\
  (forall (sha1 : list Z -> list Z) (kb : list Z) (k c : Z) (buf r : list Z),
     (forall l, length (sha1 l) = Z.to_nat SHA1_BYTES) ->
     length kb = 8%nat -> le_8_bytes_to_size_t sz kb = Some k ->
     compute_buffer_size sz k c = Done (inr (Z.of_nat (length buf))) ->
     hibp_bf_load_stream sz sha1 true (VERSION ++ kb ++ [c] ++ sha1 buf ++ buf ++ r)
     = Done (inr ({| n_hash_functions := k; log2_bits := c; buffer := buf |}, r))) /\
  (forall (sha1 : list Z -> list Z) (malloc_ok : bool) (s r : list Z) (bf : bloom_filter),
     (forall l, length (sha1 l) = Z.to_nat SHA1_BYTES) ->
     hibp_bf_load_stream sz sha1 malloc_ok s = Done (inr (bf, r)) ->
     (hash_indices_ok bf <->
      Forall (fun q => 0 <= q < SHA1_BITS)
        (take (Z.to_nat (n_hash_functions bf * log2_bits bf)) (drop 33 s)))).
Proof.
  intros Hsz. split; [|split; [|split; [|split; [|split]]]].
  - intros prng_state prng calloc_ok ctx ctx' n b bf Hprng Hnew.
    exact (new_prng_indices_ok prng_state prng sz calloc_ok ctx ctx' n b bf Hprng
             ltac:(lia) Hnew).
  - intros rand_state draw_below calloc_ok ctx ctx' n b bf Hnew.
    unfold hibp_bf_new in Hnew.
    refine (new_prng_indices_ok rand_state (default_prng sz rand_state draw_below)
              sz calloc_ok ctx ctx' n b bf _ ltac:(lia) Hnew).
    intros c u Hu. apply default_prng_range; lia.
  - intros bf sha Hok HI.
    destruct (filter_ok_layout sz bf ltac:(lia) Hok) as (_ & _ & _ & (Hn & Hb & _)).
    destruct (insert_preserves bf sha Hn Hb) as (_ & _ & _ & Hh & _).
    split; [exact Hh|]. unfold hash_indices_ok. rewrite Hh. exact HI.
  - intros sha1 bf r Hsha Hok HI. exists bf. split; [|exact HI].
    rewrite (load_serialized sz sha1 Hsz Hsha true bf r Hok). reflexivity.
  - intros sha1 kb k c buf r Hsha Hkb Hk Hc.
    exact (load_accepts_format sz sha1 kb k c buf r Hsha Hkb Hk Hc).
  - intros sha1 malloc_ok s r bf Hsha H.
    unfold hash_indices_ok.
    rewrite (load_hash_table sz sha1 malloc_ok s r bf ltac:(lia) Hsha H). reflexivity.
Qed.

Lemma hash_indices_invariant_witness :
  1 <= 8 <= 8 /\
  hash_indices_ok example_filter /\
  hash_indices_ok {| n_hash_functions := 3; log2_bits := 5;
     buffer := [0; 84; 4; 126; 156; 114; 138; 88; 142; 148; 150; 136; 96; 94; 122;
                0; 0; 0; 0] |} /\
  hash_table (hibp_bf_insert_sha1 example_filter example_digest) = hash_table example_filter /\
  (exists bf', hibp_bf_load_stream 8 Sha1.digest true
                 (serialized_layout Sha1.digest example_filter ++ [])
               = Done (inr (bf', [])) /\ hash_indices_ok bf') /\
  hibp_bf_load_stream 8 Sha1.digest true
    (VERSION ++ [1; 0; 0; 0; 0; 0; 0; 0] ++ [1] ++ Sha1.digest [200; 0] ++ [200; 0] ++ [])
  = Done (inr ({| n_hash_functions := 1; log2_bits := 1; buffer := [200; 0] |}, [])) /\
  (hash_indices_ok example_filter <->
   Forall (fun q => 0 <= q < SHA1_BITS)
     (take (Z.to_nat (n_hash_functions example_filter * log2_bits example_filter))
        (drop 33 (serialized_layout Sha1.digest example_filter ++ [])))).
Proof.
  assert (H8 : 1 <= 8 <= 8) by lia.
  destruct (hash_indices_invariant 8 H8) as (Hnp & Hn & Hins & Hload & Hacc & Hiff).
  assert (Hex : hibp_bf_new_prng Z lcg 8 true 7 3 5 = Done (inr (example_filter, 1643607334)))
    by (vm_compute; reflexivity).
  assert (HI : hash_indices_ok example_filter)
    by exact (Hnp Z lcg true 7 1643607334 3 5 example_filter lcg_range Hex).
  split; [exact H8|]. split; [exact HI|]. split.
  - apply (Hn Z counter_draw true 7 166 3 5). vm_compute. reflexivity.
  - split; [exact (proj1 (Hins example_filter example_digest example_filter_ok HI))|].
    split; [exact (Hload Sha1.digest example_filter [] sha1_digest_length example_filter_ok HI)|].
    split.
    + apply (Hacc Sha1.digest [1; 0; 0; 0; 0; 0; 0; 0] 1 1 [200; 0] [] sha1_digest_length);
        vm_compute; reflexivity.
    + apply (Hiff Sha1.digest true _ [] example_filter sha1_digest_length).
      rewrite (load_serialized 8 Sha1.digest H8 sha1_digest_length true example_filter []
                 example_filter_ok).
      reflexivity.
Defined.

(** C7 (load): a stream in the on-disk format with a correct checksum whose
    table [H] holds the byte 200 loads successfully, giving a filter that
    violates (I3). *)
Lemma load_accepts_bad_index :
  hibp_bf_load_stream 8 Sha1.digest true stream_bad_index
    = Done (inr ({| n_hash_functions := 1; log2_bits := 1; buffer := [200; 0] |}, [])) /\
  ~ hash_indices_ok {| n_hash_functions := 1; log2_bits := 1; buffer := [200; 0] |}.
Proof.
  split.
  - vm_compute. reflexivity.
  - unfold hash_indices_ok, hash_table, bvector_offset. simpl.
    intros H. inversion H as [|x l Hx _]. unfold SHA1_BITS, SHA1_BYTES in Hx. lia.
Qed.

(** ** Instances of the properties above on concrete inputs *)

Lemma example_filter_params :
  n_hash_functions example_filter = 3 /\ log2_bits example_filter = 5.
Proof. vm_compute. split; reflexivity. Qed.

Lemma example_filter_layout : layout_ok example_filter.
Proof. unfold layout_ok. apply (bool_decide_unpack _). vm_compute. exact I. Qed.

Lemma example_filter_bytes : Forall (fun x => 0 <= x < 256) (buffer example_filter).
Proof. apply (bool_decide_unpack _). vm_compute. exact I. Qed.

Lemma example_filter_new :
  hibp_bf_new_prng Z lcg 8 true 7 3 5 = Done (inr (example_filter, 1643607334)).
Proof. vm_compute. reflexivity. Qed.

Lemma insert_sha1_commute_witness :
  (0 <= n_hash_functions example_filter /\ 0 <= log2_bits example_filter) /\
  hibp_bf_insert_sha1 (hibp_bf_insert_sha1 example_filter example_digest) example_digest' =
  hibp_bf_insert_sha1 (hibp_bf_insert_sha1 example_filter example_digest') example_digest.
Proof.
  destruct example_filter_params as [E1 E2].
  assert (Hn : 0 <= n_hash_functions example_filter) by lia.
  assert (Hb : 0 <= log2_bits example_filter) by lia.
  split; [split; assumption|].
  exact (insert_sha1_commute example_filter example_digest example_digest' Hn Hb).
Defined.

Lemma insert_sha1_idempotent_witness :
  (0 <= n_hash_functions example_filter /\ 0 <= log2_bits example_filter) /\
  hibp_bf_insert_sha1 (hibp_bf_insert_sha1 example_filter example_digest) example_digest =
  hibp_bf_insert_sha1 example_filter example_digest.
Proof.
  destruct example_filter_params as [E1 E2].
  assert (Hn : 0 <= n_hash_functions example_filter) by lia.
  assert (Hb : 0 <= log2_bits example_filter) by lia.
  split; [split; assumption|].
  exact (insert_sha1_idempotent example_filter example_digest Hn Hb).
Defined.

Lemma insert_sha1_sets_exactly_witness :
  (layout_ok example_filter /\ 0 <= 7 < 2 ^ log2_bits example_filter) /\
  (bit_set (hibp_bf_insert_sha1 example_filter example_digest) 7 = true <->
   bit_set example_filter 7 = true \/
   exists i, 0 <= i < n_hash_functions example_filter /\
             eval_nth_hash_function example_filter i example_digest = 7).
Proof.
  assert (Hv : 0 <= 7 < 2 ^ log2_bits example_filter).
  { destruct example_filter_params as [_ ->]. lia. }
  split; [split; [exact example_filter_layout|exact Hv]|].
  exact (insert_sha1_sets_exactly example_filter example_digest 7 example_filter_layout Hv).
Defined.

Lemma eval_nth_hash_function_bits_witness :
  0 <= 2 /\
  Z.testbit (eval_nth_hash_function example_filter 1 example_digest) 2 =
  (2 <? log2_bits example_filter) &&
  (let q := buffer example_filter !!! Z.to_nat (1 * log2_bits example_filter + 2) in
   Z.testbit (example_digest !!! Z.to_nat (q / 8)) (q mod 8)).
Proof.
  assert (H : 0 <= 2) by lia. split; [exact H|].
  exact (eval_nth_hash_function_bits example_filter 1 example_digest 2 H).
Defined.

Lemma new_prng_empty_witness :
  (1 <= 8 /\ hibp_bf_new_prng Z lcg 8 true 7 3 5 = Done (inr (example_filter, 1643607334))) /\
  filter_ok 8 example_filter /\
  bit_vector example_filter = replicate (Z.to_nat (vector_bytes 5)) 0 /\
  forall sha, hibp_bf_query_sha1 example_filter sha = false.
Proof.
  assert (H1 : 1 <= 8) by lia.
  split; [split; [exact H1|exact example_filter_new]|].
  exact (new_prng_empty Z lcg 8 true 7 1643607334 3 5 example_filter H1 example_filter_new).
Defined.

Lemma load_magic_errors_witness :
  ((length [0xb1; 0x00] < 4)%nat /\
   hibp_bf_load_stream 8 Sha1.digest true [0xb1; 0x00] = Done (inl HIBP_E_IO)) /\
  ((4 <= length [0xb1; 0x00; 0x13; 0x38])%nat /\ take 4 [0xb1; 0x00; 0x13; 0x38] <> VERSION /\
   hibp_bf_load_stream 8 Sha1.digest true [0xb1; 0x00; 0x13; 0x38] = Done (inl HIBP_E_VERSION)).
Proof.
  assert (H1 : (length [0xb1; 0x00] < 4)%nat) by (simpl; lia).
  assert (H2 : (4 <= length [0xb1; 0x00; 0x13; 0x38])%nat) by (simpl; lia).
  assert (H3 : take 4 [0xb1; 0x00; 0x13; 0x38] <> VERSION) by (vm_compute; discriminate).
  split.
  - split; [exact H1|].
    exact (proj1 (load_magic_errors 8 Sha1.digest true [0xb1; 0x00]) H1).
  - split; [exact H2|]. split; [exact H3|].
    exact (proj2 (load_magic_errors 8 Sha1.digest true [0xb1; 0x00; 0x13; 0x38]) H2 H3).
Defined.

Lemma load_header_errors_witness :
  (length [1; 0; 0; 0; 0; 0; 0; 1] = 8%nat /\
   le_8_bytes_to_size_t 4 [1; 0; 0; 0; 0; 0; 0; 1] = None /\
   hibp_bf_load_stream 4 Sha1.digest true (VERSION ++ [1; 0; 0; 0; 0; 0; 0; 1] ++ [5])
   = Done (inl HIBP_E_2BIG)) /\
  (le_8_bytes_to_size_t 8 [0; 0; 0; 0; 0; 0; 0; 0] = Some 0 /\
   compute_buffer_size 8 0 5 = Done (inl HIBP_E_INVAL) /\
   hibp_bf_load_stream 8 Sha1.digest true (VERSION ++ [0; 0; 0; 0; 0; 0; 0; 0] ++ 5 :: [])
   = Done (inl HIBP_E_INVAL)).
Proof.
  assert (L : length [1; 0; 0; 0; 0; 0; 0; 1] = 8%nat) by reflexivity.
  assert (D : le_8_bytes_to_size_t 4 [1; 0; 0; 0; 0; 0; 0; 1] = None) by (vm_compute; reflexivity).
  assert (L' : length [0; 0; 0; 0; 0; 0; 0; 0] = 8%nat) by reflexivity.
  assert (D' : le_8_bytes_to_size_t 8 [0; 0; 0; 0; 0; 0; 0; 0] = Some 0) by (vm_compute; reflexivity).
  assert (C : compute_buffer_size 8 0 5 = Done (inl HIBP_E_INVAL)) by (vm_compute; reflexivity).
  split.
  - split; [exact L|]. split; [exact D|].
    exact (proj1 (proj2 (load_header_errors 4 Sha1.digest true _ [5])) L D).
  - split; [exact D'|]. split; [exact C|].
    exact (proj2 (proj2 (load_header_errors 8 Sha1.digest true _ [])) 0 5 HIBP_E_INVAL L' D' C).
Defined.

Lemma load_success_format_witness :
  (1 <= 8 /\
   hibp_bf_load_stream 8 Sha1.digest true (serialized_layout Sha1.digest example_filter)
   = Done (inr (example_filter, []))) /\
  filter_ok 8 example_filter /\
  exists kb, length kb = 8%nat /\
    le_8_bytes_to_size_t 8 kb = Some (n_hash_functions example_filter) /\
    serialized_layout Sha1.digest example_filter =
    VERSION ++ kb ++ [log2_bits example_filter] ++ Sha1.digest (buffer example_filter) ++
    buffer example_filter ++ [].
Proof.
  assert (H1 : 1 <= 8) by lia.
  assert (H2 : hibp_bf_load_stream 8 Sha1.digest true (serialized_layout Sha1.digest example_filter)
               = Done (inr (example_filter, []))) by (vm_compute; reflexivity).
  split; [split; [exact H1|exact H2]|].
  exact (load_success_format 8 Sha1.digest true _ [] example_filter H1 H2).
Defined.

Lemma load_truncated_witness :
  (1 <= 8 <= 8 /\ filter_ok 8 example_filter /\
   (30 < length (serialized_layout Sha1.digest example_filter))%nat) /\
  hibp_bf_load_stream 8 Sha1.digest true (take 30 (serialized_layout Sha1.digest example_filter))
  = Done (inl HIBP_E_IO).
Proof.
  assert (H1 : 1 <= 8 <= 8) by lia.
  assert (H2 : (30 < length (serialized_layout Sha1.digest example_filter))%nat)
    by (vm_compute; lia).
  split; [split; [exact H1|split; [exact example_filter_ok|exact H2]]|].
  exact (load_truncated 8 Sha1.digest example_filter 30 H1 sha1_digest_length
           example_filter_ok H2).
Defined.

Lemma load_checksum_mismatch_witness :
  (1 <= 8 <= 8 /\ filter_ok 8 example_filter /\
   length (replicate 19 1) = length (buffer example_filter) /\
   Sha1.digest (replicate 19 1) <> Sha1.digest (buffer example_filter)) /\
  hibp_bf_load_stream 8 Sha1.digest true
    (VERSION ++ le8_spec (n_hash_functions example_filter) ++ [log2_bits example_filter] ++
     Sha1.digest (buffer example_filter) ++ replicate 19 1 ++ [])
  = Done (inl HIBP_E_CHECKSUM).
Proof.
  assert (H1 : 1 <= 8 <= 8) by lia.
  assert (H2 : length (replicate 19 1) = length (buffer example_filter))
    by (vm_compute; reflexivity).
  assert (H3 : Sha1.digest (replicate 19 1) <> Sha1.digest (buffer example_filter))
    by (vm_compute; discriminate).
  split; [split; [exact H1|split; [exact example_filter_ok|split; [exact H2|exact H3]]]|].
  exact (load_checksum_mismatch 8 Sha1.digest example_filter (replicate 19 1) []
           H1 sha1_digest_length example_filter_ok H2 H3).
Defined.

Lemma load_then_save_witness :
  (1 <= 8 <= 8 /\
   Forall (fun x => 0 <= x < 256) (serialized_layout Sha1.digest example_filter ++ [7]) /\
   hibp_bf_load_stream 8 Sha1.digest true (serialized_layout Sha1.digest example_filter ++ [7])
   = Done (inr (example_filter, [7]))) /\
  exists out, hibp_bf_save_stream 8 Sha1.digest (list Z) list_putc example_filter []
              = Done (inr (tt, out)) /\
    serialized_layout Sha1.digest example_filter ++ [7] = out ++ [7].
Proof.
  assert (H1 : 1 <= 8 <= 8) by lia.
  assert (H2 : Forall (fun x => 0 <= x < 256) (serialized_layout Sha1.digest example_filter ++ [7]))
    by (apply (bool_decide_unpack _); vm_compute; exact I).
  assert (H3 : hibp_bf_load_stream 8 Sha1.digest true
                 (serialized_layout Sha1.digest example_filter ++ [7])
               = Done (inr (example_filter, [7]))) by (vm_compute; reflexivity).
  split; [split; [exact H1|split; [exact H2|exact H3]]|].
  exact (load_then_save 8 Sha1.digest _ [7] example_filter H1 H2 H3).
Defined.

Lemma compute_buffer_size_exact_witness :
  (1 <= 8 /\ 1 <= 3 <= N_HASH_FUNCTIONS_MAX 8 /\ 0 <= 5 < size_t_bits 8 /\ 5 <= SHA1_BITS) /\
  compute_buffer_size 8 3 5 =
  if 3 * 5 + vector_bytes 5 <=? SIZE_MAX 8 then Done (inr (3 * 5 + vector_bytes 5))
  else Done (inl HIBP_E_2BIG).
Proof.
  assert (H1 : 1 <= 8) by lia.
  assert (H2 : 1 <= 3 <= N_HASH_FUNCTIONS_MAX 8) by (apply (bool_decide_unpack _); vm_compute; exact I).
  assert (H3 : 0 <= 5 < size_t_bits 8) by (apply (bool_decide_unpack _); vm_compute; exact I).
  assert (H4 : 5 <= SHA1_BITS) by (apply (bool_decide_unpack _); vm_compute; exact I).
  split; [split; [exact H1|split; [exact H2|split; [exact H3|exact H4]]]|].
  exact (compute_buffer_size_exact 8 3 5 H1 H2 H3 H4).
Defined.

Lemma hex2bin_behaviour_witness :
  length (replicate 20 0) = 20%nat /\
  ((forall k, (k <= 20)%nat -> hex_digit_value (hex_example !!! k) <> None) ->
   hibp_sha1_hex2bin (replicate 20 0) hex_example =
   inr (map (fun i => 16 * hex_nibble (hex_example !!! i) + hex_nibble (hex_example !!! S i))
            (seq 0 20))) /\
  ((exists k, (k <= 20)%nat /\ hex_digit_value (hex_example !!! k) = None) ->
   hibp_sha1_hex2bin (replicate 20 0) hex_example = inl HIBP_E_INVAL).
Proof.
  assert (H : length (replicate 20 0) = 20%nat) by reflexivity.
  split; [exact H|]. exact (hex2bin_behaviour (replicate 20 0) hex_example H).
Defined.

Lemma constrained_params_result_witness :
  hibp_compute_constrained_params 8 optimal_k_real 100 1 10000 = Done (Some (178, 8)) /\
  exists b, Some (178, 8) = Some (Z.min (optimal_k_real 1 b) (N_HASH_FUNCTIONS_MAX 8), b) /\
            8 <= b.
Proof.
  assert (H : hibp_compute_constrained_params 8 optimal_k_real 100 1 10000 = Done (Some (178, 8)))
    by (vm_compute; reflexivity).
  split; [exact H|].
  destruct (constrained_params_result 8 optimal_k_real 100 1 10000 _ H) as (b & E & Hb & _).
  exists b. split; assumption.
Defined.

Lemma get_info_ok_witness :
  (1 <= 8 /\ filter_ok 8 example_filter) /\
  hibp_bf_get_info 8 24 0 example_filter =
  Done (mk_info (n_hash_functions example_filter) (log2_bits example_filter)
          (2 ^ log2_bits example_filter)
          (size_t_wrap 8 (24 + Z.of_nat (length (buffer example_filter))))).
Proof.
  assert (H : 1 <= 8) by lia.
  split; [split; [exact H|exact example_filter_ok]|].
  exact (get_info_ok 8 24 0 example_filter H example_filter_ok).
Defined.

Lemma default_prng_uniform_witness :
  (1 <= 1 /\ 1 <= 10 < SIZE_MAX 1) /\
  length (List.filter
    (fun x : nat => fst (default_prng 1 unit (fun _ _ => (Z.of_nat x, tt)) tt 10) =? 3)
    (seq 0 (Z.to_nat (SIZE_MAX 1 / 10 * 10)))) = Z.to_nat (SIZE_MAX 1 / 10).
Proof.
  assert (H1 : 1 <= 1) by lia.
  assert (H2 : 1 <= 10 < SIZE_MAX 1) by (apply (bool_decide_unpack _); vm_compute; exact I).
  split; [split; [exact H1|exact H2]|].
  exact (proj2 (default_prng_uniform 1 10 H1 H2) 3 ltac:(lia)).
Defined.

Lemma save_file_eq_stream_witness :
  (forall l, length (Sha1.digest l) = Z.to_nat SHA1_BYTES) /\
  hibp_bf_save_file (list Z) list_putc 8 Sha1.digest example_filter [] =
  hibp_bf_save_stream 8 Sha1.digest (list Z) list_putc example_filter [].
Proof.
  split; [exact sha1_digest_length|].
  exact (save_file_eq_stream 8 Sha1.digest (list Z) list_putc example_filter []
           sha1_digest_length).
Defined.

Lemma insert_sha1_noop_iff_query_witness :
  (layout_ok example_filter /\ Forall (fun x => 0 <= x < 256) (buffer example_filter)) /\
  (hibp_bf_insert_sha1 example_filter example_digest = example_filter <->
   hibp_bf_query_sha1 example_filter example_digest = true).
Proof.
  split; [split; [exact example_filter_layout|exact example_filter_bytes]|].
  exact (insert_sha1_noop_iff_query example_filter example_digest example_filter_layout
           example_filter_bytes).
Defined.
